(** * rsc/2fa: the code generator and the keychain store of [main.go]

    A shallow embedding of [hotp], [totp], [readKeychain], [Keychain.code] and
    [Keychain.showAll], together with the parts of the Go
    standard library they call (HMAC-SHA1, [strconv.ParseUint], [fmt]'s
    padded verbs, [bytes.Split], [bytes.SplitAfter], [sort.Strings]).

    Conventions.
    - A Go [byte] is a [Byte.byte]; a [[]byte] is a [list byte], and so is
      a Go [string] that holds text of the keychain (a name, a field, a
      code); only the path of the keychain file is a [string].
    - A [uint32], [uint64] or [int] is a [Z]; every operation that can wrap
      around has its reduction written out.
    - [log.Fatal] and run-time panics are results of their own ([Fatal],
      [Panic]); the backing file, the clock and the two output streams are
      fields of an explicit [World]. *)

From Stdlib Require Import ZArith List Lia.
From Stdlib Require Import Strings.Byte Strings.String Strings.Ascii.
From stdpp Require Import base gmap strings list sorting.
Import ListNotations.
Local Open Scope Z_scope.

(** ** Bytes *)

#[global] Instance byte_eq_decision : EqDecision byte := Byte.byte_eq_dec.

(** [uint32(b)], [int(b)]: the value of a byte. *)
Definition byte_to_Z (b : byte) : Z := Z.of_N (Byte.to_N b).

(** [byte(x)]: the low eight bits of an integer. *)
Definition byte_of_Z (x : Z) : byte :=
  match Byte.of_N (Z.to_N (x mod 256)) with
  | Some b => b
  | None => x00
  end.

(** The bytes of a string literal. *)
Abbreviation bytes_of s := (list_byte_of_string s) (only parsing).

(** ** crypto/sha1 (FIPS 180-4), on 32-bit words *)

Module SHA1.

Definition w32 (x : Z) : Z := x mod 2 ^ 32.

(** [bits.RotateLeft32(x, n)] *)
Definition rotl (n x : Z) : Z :=
  w32 (Z.lor (Z.shiftl x n) (Z.shiftr x (32 - n))).

(** [^x] on a [uint32] *)
Definition not32 (x : Z) : Z := Z.lxor x 0xFFFFFFFF.

Definition K0 : Z := 0x5A827999.
Definition K1 : Z := 0x6ED9EBA1.
Definition K2 : Z := 0x8F1BBCDC.
Definition K3 : Z := 0xCA62C1D6.

(** Big-endian 32-bit word of four bytes. *)
Definition be32 (b0 b1 b2 b3 : byte) : Z :=
  Z.lor (Z.lor (Z.shiftl (byte_to_Z b0) 24) (Z.shiftl (byte_to_Z b1) 16))
        (Z.lor (Z.shiftl (byte_to_Z b2) 8) (byte_to_Z b3)).

(** The four bytes of a 32-bit word, big-endian. *)
Definition word_bytes (x : Z) : list byte :=
  [byte_of_Z (Z.shiftr x 24); byte_of_Z (Z.shiftr x 16);
   byte_of_Z (Z.shiftr x 8); byte_of_Z x].

(** The eight bytes of a 64-bit word, big-endian
    ([binary.BigEndian.PutUint64]). *)
Definition be64_bytes (x : Z) : list byte :=
  [byte_of_Z (Z.shiftr x 56); byte_of_Z (Z.shiftr x 48);
   byte_of_Z (Z.shiftr x 40); byte_of_Z (Z.shiftr x 32);
   byte_of_Z (Z.shiftr x 24); byte_of_Z (Z.shiftr x 16);
   byte_of_Z (Z.shiftr x 8); byte_of_Z x].

Fixpoint words (p : list byte) : list Z :=
  match p with
  | b0 :: b1 :: b2 :: b3 :: rest => be32 b0 b1 b2 b3 :: words rest
  | _ => []
  end.

(** Message schedule, most recent word first: [rw] holds
    [w(t-1), w(t-2), ...]. *)
Fixpoint schedule (n : nat) (rw : list Z) : list Z :=
  match n with
  | O => rw
  | S n' =>
      schedule n'
        (rotl 1 (Z.lxor (Z.lxor (nth 2 rw 0) (nth 7 rw 0))
                        (Z.lxor (nth 13 rw 0) (nth 15 rw 0))) :: rw)
  end.

Definition round_f (t : Z) (b c d : Z) : Z :=
  if t <? 20 then Z.lor (Z.land b c) (Z.land (not32 b) d)
  else if t <? 40 then Z.lxor (Z.lxor b c) d
  else if t <? 60 then Z.lor (Z.land (Z.lor b c) d) (Z.land b c)
  else Z.lxor (Z.lxor b c) d.

Definition round_k (t : Z) : Z :=
  if t <? 20 then K0 else if t <? 40 then K1
  else if t <? 60 then K2 else K3.

Record regs := Regs { ra : Z; rb : Z; rc : Z; rd : Z; re : Z }.

Fixpoint rounds (t : Z) (w : list Z) (r : regs) : regs :=
  match w with
  | [] => r
  | wt :: w' =>
      let tmp := w32 (rotl 5 (ra r) + round_f t (rb r) (rc r) (rd r)
                      + re r + wt + round_k t) in
      rounds (t + 1) w' (Regs tmp (ra r) (rotl 30 (rb r)) (rc r) (rd r))
  end.

(** One 64-byte block. *)
Definition block (h : regs) (p : list byte) : regs :=
  let w := rev (schedule 64 (rev (words p))) in
  let r := rounds 0 w h in
  Regs (w32 (ra h + ra r)) (w32 (rb h + rb r)) (w32 (rc h + rc r))
       (w32 (rd h + rd r)) (w32 (re h + re r)).

Fixpoint blocks (n : nat) (h : regs) (p : list byte) : regs :=
  match n with
  | O => h
  | S n' => blocks n' (block h (firstn 64 p)) (skipn 64 p)
  end.

(** Padding: a 1 bit, zeros up to 56 mod 64, the bit length on 64 bits. *)
Definition pad (msg : list byte) : list byte :=
  let len := Z.of_nat (length msg) in
  let zeros := Z.to_nat ((55 - len) mod 64) in
  msg ++ [x80] ++ repeat x00 zeros ++ be64_bytes (len * 8).

Definition sum (msg : list byte) : list byte :=
  let p := pad msg in
  let r := blocks (length p / 64)%nat
             (Regs 0x67452301 0xEFCDAB89 0x98BADCFE 0x10325476 0xC3D2E1F0) p in
  word_bytes (ra r) ++ word_bytes (rb r) ++ word_bytes (rc r)
    ++ word_bytes (rd r) ++ word_bytes (re r).

End SHA1.

(** ** crypto/hmac (RFC 2104) over SHA-1 *)

Module HMAC.

Definition blocksize : nat := 64.

Definition xor_byte (c : Z) (b : byte) : byte :=
  byte_of_Z (Z.lxor (byte_to_Z b) c).

(** [hmac.New(sha1.New, key)]: a key longer than a block is hashed
    first, then the key is padded with zeros to a block. *)
Definition block_key (key : list byte) : list byte :=
  let k := if (blocksize <? length key)%nat then SHA1.sum key else key in
  k ++ repeat x00 (blocksize - length k).

(** [h.Write(msg); h.Sum(nil)] *)
Definition sum (key msg : list byte) : list byte :=
  let k := block_key key in
  SHA1.sum (map (xor_byte 0x5c) k ++ SHA1.sum (map (xor_byte 0x36) k ++ msg)).

End HMAC.

(** ** The code generator *)

(** [uint32(x)], [uint64(x)], [int64(x)] on an integer: wrap-around. *)
Definition u32 (x : Z) : Z := x mod 2 ^ 32.
Definition u64 (x : Z) : Z := x mod 2 ^ 64.
Definition i64 (x : Z) : Z := (x + 2 ^ 63) mod 2 ^ 64 - 2 ^ 63.

(** [binary.BigEndian.Uint32(b)] *)
Definition be_uint32 (b : list byte) : Z :=
  SHA1.be32 (nth 0 b x00) (nth 1 b x00) (nth 2 b x00) (nth 3 b x00).

(** [d := uint32(1); for i := 0; i < digits && i < 8; i++ { d *= 10 }],
    entered with [i] and [d]; [fuel] bounds the variant [8 - i]. *)
Fixpoint digits_loop (fuel : nat) (digits i d : Z) : Z :=
  match fuel with
  | O => d
  | S fuel' =>
      if (i <? digits) && (i <? 8)
      then digits_loop fuel' digits (i + 1) (u32 (d * 10))
      else d
  end.

(** The first four lines of [hotp]: the HMAC-SHA1 of the counter and its
    dynamic truncation [v]. *)
Definition hotp_truncated (key : list byte) (counter : Z) : Z :=
  let sum := HMAC.sum key (SHA1.be64_bytes counter) in
  let off := Z.land (byte_to_Z (nth (length sum - 1) sum x00)) 0x0F in
  Z.land (be_uint32 (skipn (Z.to_nat off) sum)) 0x7FFFFFFF.

(** [func hotp(key []byte, counter uint64, digits int) int] *)
Definition hotp (key : list byte) (counter : Z) (digits : Z) : Z :=
  let v := hotp_truncated key counter in
  let d := digits_loop 8 digits 0 1 in
  v mod d.

(** A [time.Time]: seconds since the Unix epoch ([t.Unix()]) and
    nanoseconds within the second ([t.Nanosecond()]), [0 <= nsec < 10^9]. *)
Record Time := { unix_sec : Z; nsec : Z }.

(** [t.UnixNano()]. The [time] package computes
    [(t.unixSec())*1e9 + int64(t.nsec())] in [int64], where arithmetic wraps
    around; its documentation leaves the result undefined when the
    nanoseconds do not fit 64 bits. *)
Definition UnixNano (t : Time) : Z := i64 (unix_sec t * 10 ^ 9 + nsec t).

(** [func totp(key []byte, t time.Time, digits int) int] *)
Definition totp (key : list byte) (t : Time) (digits : Z) : Z :=
  hotp key (u64 (UnixNano t) / 30000000000) digits.


(** ** bytes, strconv, fmt, strings

    A Go [string] that is a conversion of a byte slice, or is converted to
    one, is kept as its [list byte]. *)

Definition space : byte := x20.
Definition newline : byte := x0a.

(** [bytes.Split(s, []byte{sep})]: the fields between separators; an empty
    [s] gives one empty field. *)
Fixpoint Split (sep : byte) (s : list byte) : list (list byte) :=
  match s with
  | [] => [[]]
  | b :: s' =>
      if decide (b = sep) then [] :: Split sep s'
      else match Split sep s' with
           | f :: fs => (b :: f) :: fs
           | [] => [[b]]
           end
  end.

(** [bytes.SplitAfter(s, []byte{sep})]: as [Split], each piece keeping its
    separator. *)
Fixpoint SplitAfter (sep : byte) (s : list byte) : list (list byte) :=
  match s with
  | [] => [[]]
  | b :: s' =>
      if decide (b = sep) then [b] :: SplitAfter sep s'
      else match SplitAfter sep s' with
           | f :: fs => (b :: f) :: fs
           | [] => [[b]]
           end
  end.

(** [bytes.TrimSuffix(s, []byte{c})] *)
Fixpoint TrimSuffix (c : byte) (s : list byte) : list byte :=
  match s with
  | [] => []
  | [b] => if decide (b = c) then [] else [b]
  | b :: s' => b :: TrimSuffix c s'
  end.

(** [s[len(s)-1] == c] for a non-empty [s]. *)
Definition ends_with (c : byte) (s : list byte) : bool :=
  bool_decide (last s = Some c).

Definition is_digit (c : byte) : bool :=
  (0x30 <=? byte_to_Z c) && (byte_to_Z c <=? 0x39).

Definition maxUint64 : Z := 2 ^ 64 - 1.

(** The loop of [strconv.ParseUint(s, 10, 64)] over the bytes of [s], with
    the value [n] read so far: a byte that is no decimal digit is a syntax
    error, a value beyond [maxUint64] a range error (both [None]). *)
Fixpoint parse_digits (s : list byte) (n : Z) : option Z :=
  match s with
  | [] => Some n
  | c :: s' =>
      if is_digit c then
        let d := byte_to_Z c - 0x30 in
        if maxUint64 / 10 + 1 <=? n then None
        else
          let n10 := u64 (n * 10) in
          let n1 := u64 (n10 + d) in
          if (n1 <? n10) || (maxUint64 <? n1) then None
          else parse_digits s' n1
      else None
  end.

(** [strconv.ParseUint(s, 10, 64)]; [None] stands for a non-nil error. *)
Definition ParseUint (s : list byte) : option Z :=
  match s with
  | [] => None
  | _ => parse_digits s 0
  end.

Definition digit_byte (d : Z) : byte := byte_of_Z (0x30 + d).

(** The digit loop of [fmt]'s integer formatting:
    [for u >= 10 { next := u / 10; buf[i] = '0' + u - next*10; u = next }],
    then the last digit. *)
Fixpoint fmt_digits (fuel : nat) (u : Z) (acc : list byte) : list byte :=
  match fuel with
  | O => acc
  | S fuel' =>
      if 10 <=? u then fmt_digits fuel' (u / 10) (digit_byte (u mod 10) :: acc)
      else digit_byte u :: acc
  end.

(** The decimal digits of [u >= 0]; a number has no more decimal digits
    than binary ones. *)
Definition decimal (u : Z) : list byte :=
  fmt_digits (S (Z.to_nat (Z.log2 u))) u [].

(** [fmt.Sprintf("%0*d", wid, n)], for [|wid| <= 10^6]. A negative width
    given through [*] sets the minus flag and clears the zero flag: the
    number is then left-justified and padded with spaces. Otherwise the
    digits are padded with zeros on the left to [wid] characters, the sign
    included. *)
Definition Sprintf_0d (wid n : Z) : list byte :=
  let sign := if n <? 0 then [x2d] else [] in
  let digs := decimal (Z.abs n) in
  if wid <? 0 then
    let body := sign ++ digs in
    body ++ repeat space (Z.to_nat (- wid) - length body)
  else
    let prec := if n <? 0 then wid - 1 else wid in
    sign ++ repeat x30 (Z.to_nat prec - length digs) ++ digs.

(** [fmt.Sprintf("%-*s\t%s\n", wid, code, name)] for [0 <= wid] and a
    [code] of one-byte characters. *)
Definition Sprintf_row (wid : Z) (code name : list byte) : list byte :=
  code ++ repeat space (Z.to_nat wid - length code) ++ [x09] ++ name ++ [newline].

(** [s < t] on Go strings: byte-wise lexicographic order. *)
Fixpoint bytes_ltb (s t : list byte) : bool :=
  match s, t with
  | _, [] => false
  | [], _ :: _ => true
  | a :: s', b :: t' =>
      if byte_to_Z a <? byte_to_Z b then true
      else if byte_to_Z b <? byte_to_Z a then false
      else bytes_ltb s' t'
  end.

(** [s <= t], that is [!(t < s)]. *)
Definition bytes_le (s t : list byte) : Prop := bytes_ltb t s = false.

#[global] Instance bytes_le_dec : RelDecision bytes_le :=
  fun s t => decide (bytes_ltb t s = false).

(** [sort.Strings(names)] *)
Definition sort_Strings (names : list (list byte)) : list (list byte) :=
  merge_sort bytes_le names.

(** ** The world outside the process *)

(** A path names a file with contents, or one the process may not use. *)
Inductive node :=
  | File (content : list byte)
  | NoAccess.

(** A line of the standard logger:
    [log.Printf("%s:%d: malformed key", file, lineno)]. *)
Inductive diag :=
  | MalformedKey (file : string) (lineno : Z).

Record World := {
  fs : gmap string node;       (* the file system *)
  clock : nat -> Time;         (* what time.Now returns, reading after reading *)
  ticks : nat;                 (* readings taken so far *)
  stdout : list (list byte);   (* what was printed, in order *)
  stderr : list diag           (* what was logged, in order *)
}.

Definition set_fs (f : gmap string node) (w : World) : World :=
  {| fs := f; clock := clock w; ticks := ticks w;
     stdout := stdout w; stderr := stderr w |}.

Definition print (s : list byte) (w : World) : World :=
  {| fs := fs w; clock := clock w; ticks := ticks w;
     stdout := stdout w ++ [s]; stderr := stderr w |}.

Definition log_Printf (d : diag) (w : World) : World :=
  {| fs := fs w; clock := clock w; ticks := ticks w;
     stdout := stdout w; stderr := stderr w ++ [d] |}.

(** [time.Now()] *)
Definition time_Now (w : World) : Time * World :=
  (clock w (ticks w),
   {| fs := fs w; clock := clock w; ticks := S (ticks w);
      stdout := stdout w; stderr := stderr w |}).

(** The ways the process stops early: the [log.Fatal] calls. *)
Inductive fatal :=
  | ReadError                              (* log.Fatal(err) in readKeychain *)
  | NoSuchKey (name : list byte)           (* "no such key %q" *)
  | MalformedCounter (name : list byte)    (* "malformed key counter for %q (%q)" *)
  | OpeningKeychain                        (* "opening keychain: %v" *)
  | UpdatingKeychain.                      (* "updating keychain: %v" *)

Inductive result (A : Type) :=
  | Ok (a : A)
  | Fatal (e : fatal)
  | Panic.
Arguments Ok {A} a.
Arguments Fatal {A} e.
Arguments Panic {A}.

#[global] Instance result_bind : MBind result :=
  fun A B (k : A -> result B) (r : result A) =>
    match r with
    | Ok a => k a
    | Fatal e => Fatal e
    | Panic => Panic
    end.

(** [s[lo:hi]] on a slice whose capacity is its length: a run-time panic
    out of range. *)
Definition slice (s : list byte) (lo hi : Z) : result (list byte) :=
  if (0 <=? lo) && (lo <=? hi) && (hi <=? Z.of_nat (length s))
  then Ok (firstn (Z.to_nat (hi - lo)) (skipn (Z.to_nat lo) s))
  else Panic.

(** [f.WriteAt(b, off)] on the contents of a file: the bytes land at [off],
    a gap beyond the end reads as zeros, the rest stays. A negative offset
    is an error. *)
Definition WriteAt (content b : list byte) (off : Z) : option (list byte) :=
  if off <? 0 then None
  else
    let o := Z.to_nat off in
    Some (firstn o content ++ repeat x00 (o - length content) ++ b
            ++ skipn (o + length b) content).

(** [strings.Repeat(s, count)]: panics on a negative count. *)
Definition Repeat (c : byte) (count : Z) : result (list byte) :=
  if count <? 0 then Panic else Ok (repeat c (Z.to_nat count)).

(** ** The keychain store *)

#[global] Instance byte_countable : Countable byte :=
  inj_countable Byte.to_N Byte.of_N Byte.of_to_N.

(** [type Key struct { raw []byte; digits int; offset int }] *)
Record Key := { raw : list byte; digits : Z; offset : Z }.

(** [type Keychain struct { file string; data []byte; keys map[string]Key }] *)
Record Keychain := {
  file : string;
  data : list byte;
  keys : gmap (list byte) Key
}.

Definition counterLen : Z := 20.

(** The zero value of [Key], what [c.keys[name]] gives for a missing name. *)
Definition zeroKey : Key := {| raw := []; digits := 0; offset := 0 |}.

(** What one turn of the loop of [readKeychain] does with its line. *)
Inductive line_result :=
  | Blank                               (* the first [continue] *)
  | Entry (name : list byte) (k : Key)  (* [c.keys[name] = k; continue] *)
  | Malformed                           (* [log.Printf(... malformed key ...)] *)
  | LinePanic.                          (* [line[len(line)-1]] on an empty line *)

Section Keychain.

(** [strings.ToUpper] and [base32.StdEncoding.DecodeString] of the Go
    standard library; [None] stands for a non-nil error. *)
Variable ToUpper : list byte -> list byte.
Variable DecodeString : list byte -> option (list byte).

(** [func decodeKey(key string) ([]byte, error)] *)
Definition decodeKey (key : list byte) : option (list byte) :=
  DecodeString (ToUpper key).

(** The body of the loop of [readKeychain], after [offset += len(line)]. *)
Definition read_line (offset : Z) (line : list byte) : line_result :=
  let f := Split space (TrimSuffix newline line) in
  let f0 := nth 0 f [] in
  let f1 := nth 1 f [] in
  let f2 := nth 2 f [] in
  let f3 := nth 3 f [] in
  if (length f =? 1)%nat && (length f0 =? 0)%nat then Blank
  else if (3 <=? length f)%nat && (length f1 =? 1)%nat
          && (0x36 <=? byte_to_Z (nth 0 f1 x00))
          && (byte_to_Z (nth 0 f1 x00) <=? 0x38) then
    let name := f0 in
    let k_digits := (byte_to_Z (nth 0 f1 x00) - 0x30) mod 256 in
    match decodeKey f2 with
    | Some r =>
        if (length f =? 3)%nat then
          Entry name {| raw := r; digits := k_digits; offset := 0 |}
        else if (length f =? 4)%nat && (Z.of_nat (length f3) =? counterLen) then
          match ParseUint f3 with
          | Some _ =>
              let k_offset := offset - counterLen in
              match line with
              | [] => LinePanic
              | _ =>
                  Entry name
                    {| raw := r; digits := k_digits;
                       offset := if ends_with newline line
                                 then k_offset - 1 else k_offset |}
              end
          | None => Malformed
          end
        else Malformed
    | None => Malformed
    end
  else Malformed.

(** The loop [for i, line := range lines], entered at line number
    [lineno] with [offset] bytes consumed. *)
Fixpoint read_lines (file : string) (lines : list (list byte))
    (lineno offset : Z) (keys : gmap (list byte) Key) (w : World)
    : result (gmap (list byte) Key * World) :=
  match lines with
  | [] => Ok (keys, w)
  | line :: rest =>
      let offset := offset + Z.of_nat (length line) in
      match read_line offset line with
      | Blank => read_lines file rest (lineno + 1) offset keys w
      | Entry name k =>
          read_lines file rest (lineno + 1) offset (<[name := k]> keys) w
      | Malformed =>
          read_lines file rest (lineno + 1) offset keys
            (log_Printf (MalformedKey file lineno) w)
      | LinePanic => Panic
      end
  end.

(** [func readKeychain(file string) *Keychain] *)
Definition readKeychain (file : string) (w : World)
    : result (Keychain * World) :=
  match fs w !! file with
  | None => Ok ({| file := file; data := []; keys := ∅ |}, w)
  | Some NoAccess => Fatal ReadError
  | Some (File data) =>
      let lines := SplitAfter newline data in
      '(keys, w') ← read_lines file lines 1 0 ∅ w;
      Ok ({| file := file; data := data; keys := keys |}, w')
  end.

(** [func (c *Keychain) code(name string) string] *)
Definition code (c : Keychain) (name : list byte) (w : World)
    : result (list byte * World) :=
  match keys c !! name with
  | None => Fatal (NoSuchKey name)
  | Some k =>
      if negb (offset k =? 0) then
        field ← slice (data c) (offset k) (offset k + counterLen);
        match ParseUint field with
        | None => Fatal (MalformedCounter name)
        | Some n =>
            let n := u64 (n + 1) in
            let code := hotp (raw k) n (digits k) in
            match fs w !! file c with
            | Some (File content) =>
                match WriteAt content (Sprintf_0d counterLen n) (offset k) with
                | Some content' =>
                    Ok (Sprintf_0d (digits k) code,
                        set_fs (<[file c := File content']> (fs w)) w)
                | None => Fatal UpdatingKeychain
                end
            | _ => Fatal OpeningKeychain
            end
        end
      else
        let '(t, w') := time_Now w in
        Ok (Sprintf_0d (digits k) (totp (raw k) t (digits k)), w')
  end.

(** The second loop of [showAll]: one row per name. *)
Fixpoint showAll_rows (c : Keychain) (max : Z) (names : list (list byte))
    (w : World) : result World :=
  match names with
  | [] => Ok w
  | name :: rest =>
      let k := default zeroKey (keys c !! name) in
      dashes ← Repeat x2d (digits k);
      '(code, w') ← (if offset k =? 0 then code c name w else Ok (dashes, w));
      showAll_rows c max rest (print (Sprintf_row max code name) w')
  end.

(** The first loop of [showAll]: [if max < k.digits { max = k.digits }]
    over the entries, from [max]. *)
Definition max_digits (entries : list (list byte * Key)) (max : Z) : Z :=
  foldl (fun m e => if m <? digits e.2 then digits e.2 else m) max entries.

(** [func (c *Keychain) showAll()]; the map is ranged over in the order
    of [map_to_list], and neither [max] nor the sorted names depend on
    that order. *)
Definition showAll (c : Keychain) (w : World) : result World :=
  let entries := map_to_list (keys c) in
  let names := sort_Strings (fst <$> entries) in
  showAll_rows c (max_digits entries 0) names w.

(** One run of [2fa name], up to the code it prints: [main] reads the
    keychain and [show] asks it for the code. *)
Definition run_code (path : string) (name : list byte) (w : World)
    : result (list byte * World) :=
  '(c, w') ← readKeychain path w;
  code c name w'.

(** *** Vocabulary of the statements *)

(** The fields of a line: the line without its line terminator, split at
    single spaces. *)
Definition fields (line : list byte) : list (list byte) :=
  Split space (TrimSuffix newline line).

(** A blank line has nothing before its line terminator. *)
Definition blank_line (line : list byte) : bool :=
  bool_decide (TrimSuffix newline line = []).

(** A valid record, in the words of the specification: three or four
    fields; a digits field of one character from '6' to '8'; a secret that
    decodes; and a fourth field, when there is one, of exactly 20
    characters that parse as an unsigned 64-bit decimal integer. *)
Definition valid_record (line : list byte) : bool :=
  let f := fields line in
  ((length f =? 3)%nat || (length f =? 4)%nat)
  && match nth 1 f [] with
     | [c] => (0x36 <=? byte_to_Z c) && (byte_to_Z c <=? 0x38)
     | _ => false
     end
  && bool_decide (is_Some (decodeKey (nth 2 f [])))
  && ((length f =? 3)%nat
      || ((length (nth 3 f []) =? 20)%nat
          && bool_decide (is_Some (ParseUint (nth 3 f []))))).

(** The diagnostics owed for [lines], the first of which has the number
    [lineno]: one for each line that is neither blank nor a valid record. *)
Fixpoint malformed_from (file : string) (lineno : Z)
    (lines : list (list byte)) : list diag :=
  match lines with
  | [] => []
  | line :: rest =>
      (if blank_line line || valid_record line then []
       else [MalformedKey file lineno])
      ++ malformed_from file (lineno + 1) rest
  end.

(** The index the loop of [readKeychain] builds from [lines], on top of
    [keys]: the loop without its logging. *)
Fixpoint index_from (lines : list (list byte)) (offset : Z)
    (keys : gmap (list byte) Key) : gmap (list byte) Key :=
  match lines with
  | [] => keys
  | line :: rest =>
      let offset := offset + Z.of_nat (length line) in
      index_from rest offset
        match read_line offset line with
        | Entry name k => <[name := k]> keys
        | _ => keys
        end
  end.

End Keychain.

(** ** A decoder for the examples

    [upper_ascii] is [strings.ToUpper] on ASCII text, and [base32_decode] is
    RFC 4648 base32 decoding with [=] padding. *)

Definition upper_ascii (s : list byte) : list byte :=
  map (fun b => if (0x61 <=? byte_to_Z b) && (byte_to_Z b <=? 0x7a)
                then byte_of_Z (byte_to_Z b - 0x20) else b) s.

Definition base32_value (b : byte) : option Z :=
  let v := byte_to_Z b in
  if (0x41 <=? v) && (v <=? 0x5a) then Some (v - 0x41)
  else if (0x32 <=? v) && (v <=? 0x37) then Some (v - 0x32 + 26)
  else None.

(** The value of a run of base32 characters, [acc] being the value so far. *)
Fixpoint base32_accum (cs : list byte) (acc : Z) : option Z :=
  match cs with
  | [] => Some acc
  | c :: cs' =>
      match base32_value c with
      | Some v => base32_accum cs' (acc * 32 + v)
      | None => None
      end
  end.

(** The characters before the first [=]. *)
Fixpoint base32_body (q : list byte) : list byte :=
  match q with
  | [] => []
  | b :: q' => if decide (b = x3d) then [] else b :: base32_body q'
  end.

(** One quantum of eight characters, of which the first [n] carry data and
    the others are padding. *)
Definition base32_quantum (q : list byte) : option (list byte) :=
  let body := base32_body q in
  let n := length body in
  if bool_decide (drop n q = repeat x3d (8 - n)) then
    match base32_accum body 0 with
    | Some v =>
        let v40 := v * 32 ^ Z.of_nat (8 - n) in
        let bytes := SHA1.be64_bytes v40 in
        match n with
        | 8%nat => Some (firstn 5 (skipn 3 bytes))
        | 7%nat => Some (firstn 4 (skipn 3 bytes))
        | 5%nat => Some (firstn 3 (skipn 3 bytes))
        | 4%nat => Some (firstn 2 (skipn 3 bytes))
        | 2%nat => Some (firstn 1 (skipn 3 bytes))
        | _ => None
        end
    | None => None
    end
  else None.

Fixpoint base32_quanta (n : nat) (s : list byte) : option (list byte) :=
  match n with
  | O => match s with [] => Some [] | _ => None end
  | S n' =>
      match base32_quantum (firstn 8 s) with
      | Some out =>
          match base32_quanta n' (skipn 8 s) with
          | Some rest =>
              if (length out <? 5)%nat && negb (n' =? 0)%nat then None
              else Some (out ++ rest)
          | None => None
          end
      | None => None
      end
  end.

Definition base32_decode (s : list byte) : option (list byte) :=
  if (length s mod 8 =? 0)%nat then base32_quanta (length s / 8) s else None.

(** ** Vocabulary of the statements *)

(** The world after the diagnostics [ds] were logged. *)
Definition logged (ds : list diag) (w : World) : World :=
  {| fs := fs w; clock := clock w; ticks := ticks w;
     stdout := stdout w; stderr := stderr w ++ ds |}.

(** The value of [offset] in the loop of [readKeychain] once line [i] was
    added to it: the number of bytes up to the end of that line. *)
Definition end_offset (lines : list (list byte)) (i : nat) : Z :=
  Z.of_nat (length (concat (take (S i) lines))).

(** [strings.Join(fs, string(sep))] *)
Fixpoint Join (sep : byte) (fs : list (list byte)) : list byte :=
  match fs with
  | [] => []
  | [f] => f
  | f :: fs' => f ++ sep :: Join sep fs'
  end.

(** The number a string of decimal digits denotes, after the value [acc] of
    the digits before it. *)
Definition digits_value (s : list byte) (acc : Z) : Z :=
  fold_left (fun a c => a * 10 + (byte_to_Z c - 0x30)) s acc.

(** Lines as [bytes.SplitAfter] cuts them: every line but the last is a
    separator-free text followed by the separator, and the last line holds
    no separator. *)
Fixpoint lines_wf (sep : byte) (lines : list (list byte)) : Prop :=
  match lines with
  | [] => False
  | line :: rest =>
      match rest with
      | [] => sep ∉ line
      | _ => (exists body, line = body ++ [sep] /\ sep ∉ body) /\ lines_wf sep rest
      end
  end.

(** Whether [name] is a time-based record of [c]: [k.offset == 0]. *)
Definition time_based (c : Keychain) (name : list byte) : bool :=
  offset (default zeroKey (keys c !! name)) =? 0.

(** The number of time-based records among [names]: the number of times
    [showAll] reads the clock on its way through them. *)
Definition count_time_based (c : Keychain) (names : list (list byte)) : nat :=
  length (filter (fun name => time_based c name = true) names).

(** The code column of the row of [name] when the clock shows [t]: the
    code of a time-based record, [digits] dashes for a counter-based one. *)
Definition code_column (c : Keychain) (t : Time) (name : list byte) : list byte :=
  let k := default zeroKey (keys c !! name) in
  if time_based c name
  then Sprintf_0d (digits k) (totp (raw k) t (digits k))
  else repeat x2d (Z.to_nat (digits k)).

(** ** Examples *)

(** A keychain file: a time-based key, a counter-based key whose counter
    was never used, a line with a wrong digits field, a blank line, and a
    second record for the first name. *)
Definition example_file : list byte :=
  bytes_of "github 6 nzxxiidbebvwk6jb
hot 6 AAAAUCIM 00000000000000000000
bad 9 AAAAAAAA

github 8 GEZDGNBVGY3TQOJQGEZDGNBVGY3TQOJQ
".

(** A world where that file is the keychain and the clock reads 59 s after
    the epoch, then 30 s more at each reading. *)
Definition example_world : World :=
  {| fs := {[ ".2fa"%string := File example_file ]};
     clock := fun n => {| unix_sec := 59 + 30 * Z.of_nat n; nsec := 0 |};
     ticks := 0; stdout := []; stderr := [] |}.

Definition example_hot : Key :=
  {| raw := [x00; x00; x0a; x09; x0c]; digits := 6; offset := 41 |}.

Definition example_github : Key :=
  {| raw := bytes_of "12345678901234567890"; digits := 8; offset := 0 |}.

(** What [readKeychain] makes of [example_world]. *)
Definition example_keychain : Keychain :=
  {| file := ".2fa"; data := example_file;
     keys := <[bytes_of "hot" := example_hot]>
               (<[bytes_of "github" := example_github]> ∅) |}.

Definition example_loaded_world : World :=
  logged [MalformedKey ".2fa" 3] example_world.

(** A keychain whose only key is counter-based and has used up its
    counter. *)
Definition maxed_file : list byte :=
  bytes_of "hot 6 AAAAUCIM 18446744073709551615
".

Definition maxed_keychain : Keychain :=
  {| file := ".2fa"; data := maxed_file;
     keys := {[ bytes_of "hot" :=
                  {| raw := [x00; x00; x0a; x09; x0c]; digits := 6; offset := 15 |} ]} |}.

Definition maxed_world : World :=
  {| fs := {[ ".2fa"%string := File maxed_file ]};
     clock := fun _ => {| unix_sec := 0; nsec := 0 |};
     ticks := 0; stdout := []; stderr := [] |}.

(** A keychain file with one counter-based key, fresh. *)
Definition fresh_file : list byte :=
  bytes_of "hot 6 AAAAUCIM 00000000000000000000
".

Definition fresh_world : World :=
  {| fs := {[ ".2fa"%string := File fresh_file ]};
     clock := fun _ => {| unix_sec := 0; nsec := 0 |};
     ticks := 0; stdout := []; stderr := [] |}.

(** The same file after one and after two counter steps. *)
Definition fresh_file_1 : list byte :=
  bytes_of "hot 6 AAAAUCIM 00000000000000000001
".

Definition fresh_file_2 : list byte :=
  bytes_of "hot 6 AAAAUCIM 00000000000000000002
".

Definition with_file (content : list byte) (w : World) : World :=
  set_fs (<[".2fa"%string := File content]> (fs w)) w.

(** ** unicode/utf8, unicode and strings: runes *)

(** [utf8.RuneError] *)
Definition RuneError : Z := 0xFFFD.

Definition in_range (lo hi : Z) (b : byte) : bool :=
  (lo <=? byte_to_Z b) && (byte_to_Z b <=? hi).

(** The six payload bits of a continuation byte: [b & maskx]. *)
Definition cont_bits (b : byte) : Z := Z.land (byte_to_Z b) 0x3F.

(** [utf8.DecodeRuneInString(p)]: the first rune of [p] and its width in
    bytes. A byte that starts no well-formed sequence (a continuation byte,
    an overlong or surrogate or too large encoding, a sequence cut short)
    decodes to [RuneError] with width 1. *)
Definition DecodeRune (p : list byte) : Z * nat :=
  match p with
  | [] => (RuneError, 0%nat)
  | p0 :: _ =>
      let x := byte_to_Z p0 in
      if x <? 0x80 then (x, 1%nat)
      else if (x <? 0xC2) || (0xF4 <? x) then (RuneError, 1%nat)
      else
        let sz := if x <? 0xE0 then 2%nat else if x <? 0xF0 then 3%nat else 4%nat in
        let lo := if x =? 0xE0 then 0xA0 else if x =? 0xF0 then 0x90 else 0x80 in
        let hi := if x =? 0xED then 0x9F else if x =? 0xF4 then 0x8F else 0xBF in
        if (length p <? sz)%nat then (RuneError, 1%nat)
        else
          let b1 := nth 1 p x00 in
          if negb (in_range lo hi b1) then (RuneError, 1%nat)
          else if (sz =? 2)%nat then
            (Z.lor (Z.shiftl (Z.land x 0x1F) 6) (cont_bits b1), 2%nat)
          else
            let b2 := nth 2 p x00 in
            if negb (in_range 0x80 0xBF b2) then (RuneError, 1%nat)
            else if (sz =? 3)%nat then
              (Z.lor (Z.lor (Z.shiftl (Z.land x 0x0F) 12)
                            (Z.shiftl (cont_bits b1) 6))
                     (cont_bits b2), 3%nat)
            else
              let b3 := nth 3 p x00 in
              if negb (in_range 0x80 0xBF b3) then (RuneError, 1%nat)
              else
                (Z.lor (Z.lor (Z.lor (Z.shiftl (Z.land x 0x07) 18)
                                     (Z.shiftl (cont_bits b1) 12))
                              (Z.shiftl (cont_bits b2) 6))
                       (cont_bits b3), 4%nat)
  end.

(** [for _, c := range s]: the runes of a string, one after the other;
    [fuel] bounds the bytes left. *)
Fixpoint runes_from (fuel : nat) (s : list byte) : list Z :=
  match fuel with
  | O => []
  | S fuel' =>
      match s with
      | [] => []
      | _ :: _ =>
          let '(r, size) := DecodeRune s in
          r :: runes_from fuel' (skipn size s)
      end
  end.

Definition runes (s : list byte) : list Z := runes_from (length s) s.

(** [utf8.AppendRune(nil, r)]: the encoding of [r]; a surrogate or a value
    beyond [MaxRune] is encoded as [RuneError]. *)
Definition EncodeRune (r : Z) : list byte :=
  let i := u32 r in
  if i <=? 0x7F then [byte_of_Z r]
  else if i <=? 0x7FF then
    [byte_of_Z (Z.lor 0xC0 (byte_to_Z (byte_of_Z (Z.shiftr r 6))));
     byte_of_Z (Z.lor 0x80 (Z.land (byte_to_Z (byte_of_Z r)) 0x3F))]
  else
    let r := if (0x10FFFF <? i) || ((0xD800 <=? i) && (i <=? 0xDFFF))
             then RuneError else r in
    if (u32 r <=? 0xFFFF) then
      [byte_of_Z (Z.lor 0xE0 (byte_to_Z (byte_of_Z (Z.shiftr r 12))));
       byte_of_Z (Z.lor 0x80 (Z.land (byte_to_Z (byte_of_Z (Z.shiftr r 6))) 0x3F));
       byte_of_Z (Z.lor 0x80 (Z.land (byte_to_Z (byte_of_Z r)) 0x3F))]
    else
      [byte_of_Z (Z.lor 0xF0 (byte_to_Z (byte_of_Z (Z.shiftr r 18))));
       byte_of_Z (Z.lor 0x80 (Z.land (byte_to_Z (byte_of_Z (Z.shiftr r 12))) 0x3F));
       byte_of_Z (Z.lor 0x80 (Z.land (byte_to_Z (byte_of_Z (Z.shiftr r 6))) 0x3F));
       byte_of_Z (Z.lor 0x80 (Z.land (byte_to_Z (byte_of_Z r)) 0x3F))].

(** [unicode.IsSpace(r)]: the Latin-1 cases of its switch, and the
    [White_Space] property beyond Latin-1. *)
Definition IsSpace (r : Z) : bool :=
  if u32 r <=? 0xFF then
    (r =? 0x09) || (r =? 0x0A) || (r =? 0x0B) || (r =? 0x0C) || (r =? 0x0D)
    || (r =? 0x20) || (r =? 0x85) || (r =? 0xA0)
  else
    (r =? 0x1680) || ((0x2000 <=? r) && (r <=? 0x200A))
    || (r =? 0x2028) || (r =? 0x2029) || (r =? 0x202F) || (r =? 0x205F)
    || (r =? 0x3000).

(** [func noSpace(r rune) rune] *)
Definition noSpace (r : Z) : Z := if IsSpace r then -1 else r.

(** [strings.Map(mapping, s)]: each rune of [s] replaced by its image, and
    dropped when the image is negative. *)
Definition strings_Map (mapping : Z -> Z) (s : list byte) : list byte :=
  flat_map (fun c => let r := mapping c in
                     if r <? 0 then [] else EncodeRune r) (runes s).

(** [strings.IndexFunc(s, f) >= 0]: some rune of [s] satisfies [f]. *)
Definition has_rune (f : Z -> bool) (s : list byte) : bool :=
  existsb f (runes s).

(** [bufio.NewReader(os.Stdin).ReadString(delim)] on the bytes standard
    input will deliver: the text up to and with the first [delim], or an
    error ([None]) when the input ends before one. *)
Fixpoint ReadString (delim : byte) (input : list byte) : option (list byte) :=
  match input with
  | [] => None
  | b :: rest =>
      if decide (b = delim) then Some [b]
      else match ReadString delim rest with
           | Some s => Some (b :: s)
           | None => None
           end
  end.

(** ** The command: [list], [add], [show], [main] *)

(** The command-line flags, after [flag.Parse()]. *)
Record Flags := {
  flagAdd : bool; flagList : bool; flagHotp : bool;
  flag7 : bool; flag8 : bool; flagClip : bool
}.

(** The process beyond the keychain: the world, what [fmt.Fprintf] wrote
    to standard error, and what was handed to the clipboard. Permission
    bits of files are not part of the world. *)
Record Proc := {
  pw : World;
  perr : list (list byte);
  pclip : list (list byte)
}.

Definition set_pw (w : World) (p : Proc) : Proc :=
  {| pw := w; perr := perr p; pclip := pclip p |}.

Definition eprint (s : list byte) (p : Proc) : Proc :=
  {| pw := pw p; perr := perr p ++ [s]; pclip := pclip p |}.

Definition clip_WriteAll (s : list byte) (p : Proc) : Proc :=
  {| pw := pw p; perr := perr p; pclip := pclip p ++ [s] |}.

(** The ways a run stops before [main] returns. *)
Inductive stop :=
  | StopFatal (e : fatal)   (* a [log.Fatal] of [readKeychain] or [code] *)
  | StopPanic               (* a run-time panic *)
  | StopUsage               (* [usage()]: exit status 2 *)
  | StopName                (* "name must not contain spaces" *)
  | Stop7and8               (* "cannot use -7 and -8 together" *)
  | StopReadingKey          (* "error reading key: %v" *)
  | StopInvalidKey          (* "invalid key: %v" *)
  | StopOpening.            (* "opening keychain: %v", in [add] *)

(** How a run ends, and the process it leaves. *)
Inductive ended :=
  | Done (p : Proc)
  | Stopped (s : stop) (p : Proc).

(** [func usage()] *)
Definition usage (p : Proc) : ended :=
  Stopped StopUsage
    (eprint (bytes_of "	2fa [-clip] keyname
")
       (eprint (bytes_of "	2fa -list
")
          (eprint (bytes_of "	2fa -add [-7] [-8] [-hotp] keyname
")
             (eprint (bytes_of "usage:
") p)))).

(** The second loop of [list]: [fmt.Println(name)] for each name. *)
Definition print_names (names : list (list byte)) (w : World) : World :=
  foldl (fun w name => print (name ++ [newline]) w) w names.

(** [func (c *Keychain) list()], the map ranged over in the order
    [entries]. *)
Definition list_ranged (entries : list (list byte * Key)) (w : World) : World :=
  print_names (sort_Strings (fst <$> entries)) w.

(** [func (c *Keychain) list()] *)
Definition Keychain_list (c : Keychain) (w : World) : World :=
  list_ranged (map_to_list (keys c)) w.

(** [func (c *Keychain) showAll()], the map ranged over in the order
    [entries]. *)
Definition showAll_ranged (c : Keychain) (entries : list (list byte * Key))
    (w : World) : result World :=
  showAll_rows c (max_digits entries 0) (sort_Strings (fst <$> entries)) w.

(** [func (c *Keychain) show(name string)]. Every [log.Fatalf] of [code]
    comes before its first effect, so a run stopped there leaves the
    process as it was. *)
Definition Keychain_show (c : Keychain) (fl : Flags) (name : list byte)
    (p : Proc) : ended :=
  match code c name (pw p) with
  | Ok (s, w') =>
      let p1 := set_pw w' p in
      let p2 := if flagClip fl then clip_WriteAll s p1 else p1 in
      Done (set_pw (print (s ++ [newline]) (pw p2)) p2)
  | Fatal e => Stopped (StopFatal e) p
  | Panic => Stopped StopPanic p
  end.

Section Command.

Variable ToUpper : list byte -> list byte.
Variable DecodeString : list byte -> option (list byte).

(** The line [add] builds for [name] from the text read:
    [fmt.Sprintf("%s %d %s", name, size, text)], the counter of a
    counter-based key, and the line terminator. *)
Definition add_line (hotp_key : bool) (size : Z) (name text : list byte)
    : list byte :=
  let line := name ++ [space] ++ decimal size ++ [space] ++ text in
  let line := if hotp_key then line ++ [space] ++ repeat x30 20 else line in
  line ++ [newline].

(** [text += strings.Repeat("=", -len(text)&7)] *)
Definition pad8 (text : list byte) : list byte :=
  text ++ repeat x3d (Z.to_nat (Z.land (- Z.of_nat (length text)) 7)).

(** [func (c *Keychain) add(name string)], with the flags and the bytes
    standard input will deliver. [os.OpenFile] with
    [O_CREATE|O_RDWR|O_APPEND] makes the file when it is missing, and
    [f.Write] appends. *)
Definition Keychain_add (c : Keychain) (fl : Flags) (name : list byte)
    (input : list byte) (p : Proc) : ended :=
  if flag7 fl && flag8 fl then Stopped Stop7and8 p
  else
    let size := if flag7 fl then 7 else if flag8 fl then 8 else 6 in
    let p1 := eprint (bytes_of "2fa key for " ++ name ++ bytes_of ": ") p in
    match ReadString newline input with
    | None => Stopped StopReadingKey p1
    | Some text =>
        let text := pad8 (strings_Map noSpace text) in
        match decodeKey ToUpper DecodeString text with
        | None => Stopped StopInvalidKey p1
        | Some _ =>
            let line := add_line (flagHotp fl) size name text in
            match fs (pw p1) !! file c with
            | Some NoAccess => Stopped StopOpening p1
            | Some (File content) =>
                Done (set_pw (set_fs (<[file c := File (content ++ line)]>
                                        (fs (pw p1))) (pw p1)) p1)
            | None =>
                Done (set_pw (set_fs (<[file c := File line]>
                                        (fs (pw p1))) (pw p1)) p1)
            end
        end
    end.

(** [func main()], after [flag.Parse()]: the flags, the arguments left
    ([flag.Args()]), the path of the keychain
    ([filepath.Join(os.Getenv("HOME"), ".2fa")]) and the bytes standard
    input will deliver. *)
Definition main (fl : Flags) (args : list (list byte)) (path : string)
    (input : list byte) (p : Proc) : ended :=
  match readKeychain ToUpper DecodeString path (pw p) with
  | Fatal e => Stopped (StopFatal e) p
  | Panic => Stopped StopPanic p
  | Ok (k, w1) =>
      let p1 := set_pw w1 p in
      if flagList fl then
        if negb (length args =? 0)%nat then usage p1
        else Done (set_pw (Keychain_list k w1) p1)
      else if (length args =? 0)%nat && negb (flagAdd fl) then
        if flagClip fl then usage p1
        else match showAll k w1 with
             | Ok w2 => Done (set_pw w2 p1)
             | Fatal e => Stopped (StopFatal e) p1
             | Panic => Stopped StopPanic p1
             end
      else if negb (length args =? 1)%nat then usage p1
      else
        let name := nth 0 args [] in
        if has_rune IsSpace name then Stopped StopName p1
        else if flagAdd fl then
          if flagClip fl then usage p1
          else Keychain_add k fl name input p1
        else Keychain_show k fl name p1
  end.

(** [m] runs of [2fa name], one after the other, up to the codes they
    print. *)
Fixpoint run_codes (m : nat) (path : string) (name : list byte) (w : World)
    : result (list (list byte) * World) :=
  match m with
  | O => Ok ([], w)
  | S m' =>
      '(s, w1) ← run_code ToUpper DecodeString path name w;
      '(ss, w2) ← run_codes m' path name w1;
      Ok (s :: ss, w2)
  end.

End Command.

(** An empty process around a world. *)
Definition proc_of (w : World) : Proc := {| pw := w; perr := []; pclip := [] |}.

Definition no_flags : Flags :=
  {| flagAdd := false; flagList := false; flagHotp := false;
     flag7 := false; flag8 := false; flagClip := false |}.

Definition add_hotp_flags : Flags :=
  {| flagAdd := true; flagList := false; flagHotp := true;
     flag7 := false; flag8 := false; flagClip := false |}.

(** The process a run leaves, however it ends. *)
Definition proc_after (e : ended) : Proc :=
  match e with
  | Done p => p
  | Stopped _ p => p
  end.

Definition list_flags : Flags :=
  {| flagAdd := false; flagList := true; flagHotp := false;
     flag7 := false; flag8 := false; flagClip := false |}.


(** A secret as typed at the prompt of [add], and the process [add] leaves
    when it is typed for the name [new] with [-hotp], the keychain being
    [example_file]. *)
Definition typed_secret : list byte :=
  bytes_of "aaaa ucim
".

Definition example_added : Proc :=
  proc_after
    (Keychain_add upper_ascii base32_decode example_keychain add_hotp_flags
       (bytes_of "new") typed_secret (proc_of example_loaded_world)).

(** * Properties *)

(** ** The code generator *)

Lemma byte_to_Z_range (b : byte) : 0 <= byte_to_Z b < 256.
Proof.
  unfold byte_to_Z. pose proof (Byte.to_N_bounded b). lia.
Qed.

Lemma byte_to_of_Z (x : Z) : byte_to_Z (byte_of_Z x) = x mod 256.
Proof.
  unfold byte_to_Z, byte_of_Z.
  assert (Hr : 0 <= x mod 256 < 256) by (apply Z.mod_pos_bound; lia).
  destruct (Byte.of_N (Z.to_N (x mod 256))) as [b|] eqn:E.
  - apply Byte.to_of_N in E. rewrite E. lia.
  - pose proof (Byte.to_of_N_option_map (Z.to_N (x mod 256))) as H.
    rewrite E in H. simpl in H.
    destruct (N.leb_spec (Z.to_N (x mod 256)) 255); [discriminate | lia].
Qed.

Lemma byte_to_Z_inj (a b : byte) : byte_to_Z a = byte_to_Z b -> a = b.
Proof.
  unfold byte_to_Z. intros H. apply N2Z.inj in H.
  pose proof (Byte.of_to_N a) as Ha. rewrite H, Byte.of_to_N in Ha.
  congruence.
Qed.



(** The truncated value fits 31 bits. *)
Lemma hotp_truncated_range (key : list byte) (counter : Z) :
  0 <= hotp_truncated key counter < 2 ^ 31.
Proof.
  unfold hotp_truncated.
  change 0x7FFFFFFF with (Z.ones 31).
  rewrite Z.land_ones by lia.
  apply Z.mod_pos_bound. lia.
Qed.

(** The loop multiplies [d] by ten once for each [i] below
    [min digits 8]. *)
Lemma digits_loop_spec (fuel : nat) (digits i d : Z) :
  0 <= i <= 8 -> (Z.to_nat (8 - i) <= fuel)%nat ->
  0 < d -> d * 10 ^ (8 - i) < 2 ^ 32 ->
  digits_loop fuel digits i d = d * 10 ^ (Z.max i (Z.min digits 8) - i).
Proof.
  revert i d. induction fuel as [|fuel IH]; intros i d Hi Hf Hd Hb.
  - assert (i = 8) by lia. subst i. simpl.
    replace (Z.max 8 (Z.min digits 8) - 8) with 0 by lia. lia.
  - simpl. destruct (Z.ltb_spec i digits) as [H1|H1];
      destruct (Z.ltb_spec i 8) as [H2|H2]; simpl.
    + assert (Hp : 10 ^ (8 - i) = 10 * 10 ^ (8 - (i + 1))).
      { rewrite <- Z.pow_succ_r by lia. f_equal. lia. }
      assert (Hpos : 0 < 10 ^ (8 - (i + 1))) by (apply Z.pow_pos_nonneg; lia).
      assert (Hu : u32 (d * 10) = d * 10).
      { unfold u32. apply Z.mod_small. nia. }
      rewrite Hu, IH by (try lia; nia).
      replace (Z.max i (Z.min digits 8) - i)
        with (Z.succ (Z.max (i + 1) (Z.min digits 8) - (i + 1))) by lia.
      rewrite Z.pow_succ_r by lia. ring.
    + replace (Z.max i (Z.min digits 8) - i) with 0 by lia. lia.
    + replace (Z.max i (Z.min digits 8) - i) with 0 by lia. lia.
    + replace (Z.max i (Z.min digits 8) - i) with 0 by lia. lia.
Qed.

Lemma digits_loop_pow (digits : Z) :
  digits_loop 8 digits 0 1 = 10 ^ Z.min (Z.max digits 0) 8.
Proof.
  rewrite digits_loop_spec by (simpl; lia).
  rewrite Z.mul_1_l. f_equal. lia.
Qed.

(** C2: on the secret "12345678901234567890" and six digits, [hotp] gives
    755224 at counter 0 and 287082 at counter 1 (RFC 4226, appendix D). *)
Theorem hotp_rfc4226_vectors :
  hotp (bytes_of "12345678901234567890") 0 6 = 755224 /\
  hotp (bytes_of "12345678901234567890") 1 6 = 287082.
Proof. split; vm_compute; reflexivity. Qed.

(** [hotp] is the truncated value modulo the power of ten the loop
    leaves in [d]. *)
Lemma hotp_mod (key : list byte) (counter digits : Z) :
  hotp key counter digits
  = hotp_truncated key counter mod 10 ^ Z.min (Z.max digits 0) 8.
Proof. unfold hotp. cbv zeta. now rewrite digits_loop_pow. Qed.

Lemma hotp_range (key : list byte) (counter digits : Z) :
  0 <= hotp key counter digits < 10 ^ 8.
Proof.
  rewrite hotp_mod.
  assert (Hp : 0 < 10 ^ Z.min (Z.max digits 0) 8)
    by (apply Z.pow_pos_nonneg; lia).
  assert (Hle : 10 ^ Z.min (Z.max digits 0) 8 <= 10 ^ 8)
    by (apply Z.pow_le_mono_r; lia).
  pose proof (Z.mod_pos_bound (hotp_truncated key counter) _ Hp). lia.
Qed.

(** C5: [hotp] reduces the truncated value modulo ten to the power
    [min (max digits 0) 8]; any [digits] of 8 or more gives the result for
    8; and the result lies in [0, 10^8). *)
Theorem hotp_digits_clamped (key : list byte) (counter digits : Z) :
  hotp key counter digits
    = hotp_truncated key counter mod 10 ^ Z.min (Z.max digits 0) 8
  /\ hotp key counter (Z.max digits 8) = hotp key counter 8
  /\ 0 <= hotp key counter digits < 10 ^ 8.
Proof.
  split; [apply hotp_mod|]. split; [|apply hotp_range].
  rewrite !hotp_mod. do 2 f_equal. lia.
Qed.

(** Reading an [int64] back as a [uint64] gives the integer modulo 2^64. *)
Lemma u64_i64 (x : Z) : u64 (i64 x) = x mod 2 ^ 64.
Proof.
  unfold u64, i64.
  rewrite Zminus_mod_idemp_l.
  f_equal. lia.
Qed.

Lemma totp_counter (t : Time) :
  0 <= unix_sec t -> 0 <= nsec t < 10 ^ 9 ->
  unix_sec t * 10 ^ 9 + nsec t < 2 ^ 64 ->
  u64 (UnixNano t) / 30000000000 = unix_sec t / 30.
Proof.
  intros Hs Hn Hb. unfold UnixNano. rewrite u64_i64.
  rewrite Z.mod_small by lia.
  change 30000000000 with (10 ^ 9 * 30).
  rewrite <- Z.div_div by lia.
  f_equal.
  rewrite Z.div_add_l by lia.
  rewrite Z.div_small by lia. lia.
Qed.

(** C4, as the code has it: for a time at or after the Unix epoch and less
    than 2^64 nanoseconds after it, [totp] is [hotp] at the number of whole
    30-second steps since the epoch. *)
Theorem totp_is_hotp_of_step (key : list byte) (t : Time) (digits : Z) :
  0 <= unix_sec t -> 0 <= nsec t < 10 ^ 9 ->
  unix_sec t * 10 ^ 9 + nsec t < 2 ^ 64 ->
  totp key t digits = hotp key (unix_sec t / 30) digits.
Proof.
  intros Hs Hn Hb. unfold totp. now rewrite totp_counter.
Qed.

(** C4 as amended, at 59 s after the epoch. *)
Lemma totp_is_hotp_of_step_witness :
  totp (bytes_of "12345678901234567890") {| unix_sec := 59; nsec := 0 |} 8
  = hotp (bytes_of "12345678901234567890") (59 / 30) 8.
Proof.
  apply (totp_is_hotp_of_step (bytes_of "12345678901234567890")
           {| unix_sec := 59; nsec := 0 |} 8); simpl; lia.
Defined.

(** C4, as stated, fails for a time after the year 2554: its nanosecond
    count exceeds 64 bits, [UnixNano] wraps around, and [totp] uses counter
    0 where the 30-second step is 614891469. *)
Lemma totp_wraps_after_2554 :
  let t := {| unix_sec := 18446744074; nsec := 0 |} in
  let key := bytes_of "12345678901234567890" in
  0 <= unix_sec t /\ 0 <= nsec t < 10 ^ 9 /\
  totp key t 6 = 755224 /\
  hotp key (unix_sec t / 30) 6 = 433509 /\
  totp key t 6 <> hotp key (unix_sec t / 30) 6.
Proof.
  cbv zeta. repeat split; try (simpl; lia); try (vm_compute; reflexivity).
  vm_compute. discriminate.
Qed.

(** ** Decimal text: [fmt] and [strconv] *)

Lemma is_digit_spec (c : byte) :
  is_digit c = true <-> 0x30 <= byte_to_Z c <= 0x39.
Proof. unfold is_digit. rewrite andb_true_iff, !Z.leb_le. tauto. Qed.

Lemma digit_byte_value (d : Z) :
  0 <= d <= 9 -> byte_to_Z (digit_byte d) = 0x30 + d.
Proof.
  intros H. unfold digit_byte. rewrite byte_to_of_Z. apply Z.mod_small. lia.
Qed.

Lemma digit_byte_is_digit (d : Z) : 0 <= d <= 9 -> is_digit (digit_byte d) = true.
Proof. intros H. apply is_digit_spec. rewrite digit_byte_value; lia. Qed.

Lemma digits_value_app (s t : list byte) (acc : Z) :
  digits_value (s ++ t) acc = digits_value t (digits_value s acc).
Proof. unfold digits_value. apply fold_left_app. Qed.

Lemma digits_value_acc (s : list byte) (acc : Z) :
  digits_value s acc = acc * 10 ^ Z.of_nat (length s) + digits_value s 0.
Proof.
  revert acc. induction s as [|c s IH]; intros acc.
  - simpl. lia.
  - change (digits_value (c :: s) acc)
      with (digits_value s (acc * 10 + (byte_to_Z c - 0x30))).
    change (digits_value (c :: s) 0)
      with (digits_value s (0 * 10 + (byte_to_Z c - 0x30))).
    rewrite IH, (IH (0 * 10 + _)).
    rewrite length_cons, Nat2Z.inj_succ, Z.pow_succ_r by lia. ring.
Qed.

Lemma digits_value_nonneg (s : list byte) :
  Forall (fun c => is_digit c = true) s -> 0 <= digits_value s 0.
Proof.
  induction s as [|c s IH] using rev_ind; intros H; [simpl; lia|].
  apply Forall_app in H as [Hs Hc]. inversion Hc as [|? ? Hd _]; subst.
  apply is_digit_spec in Hd.
  rewrite digits_value_app. simpl. specialize (IH Hs). lia.
Qed.

(** The digits [fmt] writes for [u] denote [u], and there are no more of
    them than the size of [u] asks for. *)
Lemma fmt_digits_spec (fuel : nat) (u : Z) (acc : list byte) :
  (1 <= fuel)%nat -> 0 <= u < 2 ^ Z.of_nat fuel ->
  exists ds, fmt_digits fuel u acc = ds ++ acc
    /\ Forall (fun c => is_digit c = true) ds
    /\ digits_value ds 0 = u
    /\ (1 <= length ds)%nat
    /\ forall k, (1 <= k)%nat -> u < 10 ^ Z.of_nat k -> (length ds <= k)%nat.
Proof.
  revert u acc. induction fuel as [|fuel IH]; intros u acc Hf Hu; [lia|].
  simpl. destruct (Z.leb_spec 10 u) as [H10|H10].
    + assert (Hq : 0 <= u / 10 < 2 ^ Z.of_nat fuel).
      { rewrite Nat2Z.inj_succ, Z.pow_succ_r in Hu by lia.
        split; [apply Z.div_pos; lia|].
        apply Z.div_lt_upper_bound; lia. }
      assert (Hf' : (1 <= fuel)%nat).
      { destruct fuel; [simpl in Hu; lia | lia]. }
      destruct (IH (u / 10) (digit_byte (u mod 10) :: acc) Hf' Hq)
        as (ds & E & Hd & Hv & Hl & Hk).
      assert (Hm : 0 <= u mod 10 <= 9) by (pose proof (Z.mod_pos_bound u 10); lia).
      exists (ds ++ [digit_byte (u mod 10)]). repeat split.
      * rewrite E, <- app_assoc. reflexivity.
      * apply Forall_app. split; [assumption|].
        constructor; [now apply digit_byte_is_digit | constructor].
      * rewrite digits_value_app, Hv. simpl.
        rewrite digit_byte_value by lia.
        pose proof (Z.div_mod u 10). lia.
      * rewrite length_app. simpl. lia.
      * intros k Hk1 Hlt. rewrite length_app. simpl.
        destruct k as [|[|k]]; [lia | simpl in Hlt; lia |].
        enough (length ds <= S k)%nat by lia.
        apply Hk; [lia|].
        rewrite Nat2Z.inj_succ, Z.pow_succ_r in Hlt by lia.
        apply Z.div_lt_upper_bound; lia.
    + exists [digit_byte u]. repeat split.
      * constructor; [apply digit_byte_is_digit; lia | constructor].
      * simpl. rewrite digit_byte_value by lia. lia.
      * simpl. lia.
      * intros k Hk _. simpl. lia.
Qed.

Lemma decimal_spec (u : Z) :
  0 <= u ->
  Forall (fun c => is_digit c = true) (decimal u)
  /\ digits_value (decimal u) 0 = u
  /\ (1 <= length (decimal u))%nat
  /\ forall k, (1 <= k)%nat -> u < 10 ^ Z.of_nat k -> (length (decimal u) <= k)%nat.
Proof.
  intros Hu. unfold decimal.
  assert (Hb : 0 <= u < 2 ^ Z.of_nat (S (Z.to_nat (Z.log2 u)))).
  { split; [assumption|].
    rewrite Nat2Z.inj_succ, Z2Nat.id by apply Z.log2_nonneg.
    destruct (Z.eq_dec u 0) as [->|Hn]; [simpl; lia|].
    apply Z.log2_spec. lia. }
  destruct (fmt_digits_spec (S (Z.to_nat (Z.log2 u))) u [] ltac:(lia) Hb)
    as (ds & E & H).
  rewrite app_nil_r in E. rewrite E. exact H.
Qed.

(** A counter rendered with [%0*d] and width 20 is twenty decimal digits
    that denote it. *)
Lemma Sprintf_0d_counter (n : Z) :
  0 <= n < 2 ^ 64 ->
  length (Sprintf_0d counterLen n) = 20%nat
  /\ Forall (fun c => is_digit c = true) (Sprintf_0d counterLen n)
  /\ digits_value (Sprintf_0d counterLen n) 0 = n.
Proof.
  intros Hn. unfold Sprintf_0d, counterLen.
  destruct (Z.ltb_spec n 0) as [?|_]; [lia|].
  change (20 <? 0) with false. cbv iota.
  rewrite Z.abs_eq by lia.
  destruct (decimal_spec n) as (Hd & Hv & H1 & Hk); [lia|].
  assert (Hl : (length (decimal n) <= 20)%nat).
  { apply Hk; [lia|]. change (10 ^ Z.of_nat 20) with 100000000000000000000. lia. }
  simpl app. repeat split.
  - rewrite length_app, repeat_length. change (Z.to_nat 20) with 20%nat. lia.
  - apply Forall_app. split; [|assumption].
    apply List.Forall_forall. intros c Hc. apply repeat_spec in Hc. now subst.
  - rewrite digits_value_app.
    assert (Hz : forall m, digits_value (repeat x30 m) 0 = 0).
    { induction m as [|m IHm]; [reflexivity|].
      change (digits_value (repeat x30 (S m)) 0)
        with (digits_value (repeat x30 m) 0). exact IHm. }
    now rewrite Hz.
Qed.

(** Text written with [%0*d] denotes the number written, so that distinct
    numbers give distinct texts. *)
Lemma Sprintf_0d_value (wid n : Z) :
  0 <= wid -> 0 <= n -> digits_value (Sprintf_0d wid n) 0 = n.
Proof.
  intros Hw Hn. unfold Sprintf_0d.
  destruct (Z.ltb_spec n 0) as [?|_]; [lia|].
  destruct (Z.ltb_spec wid 0) as [?|_]; [lia|].
  rewrite Z.abs_eq by lia. simpl app.
  destruct (decimal_spec n Hn) as (_ & Hv & _).
  rewrite digits_value_app.
  assert (Hz : forall m, digits_value (repeat x30 m) 0 = 0).
  { induction m as [|m IHm]; [reflexivity|].
    change (digits_value (repeat x30 (S m)) 0)
      with (digits_value (repeat x30 m) 0). exact IHm. }
  now rewrite Hz.
Qed.

Lemma Sprintf_0d_inj (wid n m : Z) :
  0 <= wid -> 0 <= n -> 0 <= m -> Sprintf_0d wid n = Sprintf_0d wid m -> n = m.
Proof.
  intros Hw Hn Hm E.
  rewrite <- (Sprintf_0d_value wid n), <- (Sprintf_0d_value wid m) by assumption.
  now rewrite E.
Qed.

(** [ParseUint]'s loop reads a string of digits whose value fits 64 bits. *)
Lemma parse_digits_value (s : list byte) (n : Z) :
  Forall (fun c => is_digit c = true) s -> 0 <= n ->
  digits_value s n <= maxUint64 ->
  parse_digits s n = Some (digits_value s n).
Proof.
  revert n. induction s as [|c s IH]; intros n Hd Hn Hb; [reflexivity|].
  inversion Hd as [|? ? Hc Hs]; subst.
  change (digits_value (c :: s) n)
    with (digits_value s (n * 10 + (byte_to_Z c - 0x30))) in *.
  simpl. rewrite Hc.
  pose proof (proj1 (is_digit_spec c) Hc) as Hr.
  rewrite digits_value_acc in Hb.
  pose proof (digits_value_nonneg s Hs) as Hv.
  assert (Hp : 0 < 10 ^ Z.of_nat (length s)) by (apply Z.pow_pos_nonneg; lia).
  assert (Hn1 : n * 10 + (byte_to_Z c - 48) <= maxUint64) by nia.
  unfold maxUint64 in *.
  destruct (Z.leb_spec ((2 ^ 64 - 1) / 10 + 1) n) as [Hc1|Hc1].
  { change ((2 ^ 64 - 1) / 10 + 1) with 1844674407370955162 in Hc1. lia. }
  assert (E1 : u64 (n * 10) = n * 10) by (unfold u64; apply Z.mod_small; lia).
  rewrite E1.
  assert (E2 : u64 (n * 10 + (byte_to_Z c - 48)) = n * 10 + (byte_to_Z c - 48))
    by (unfold u64; apply Z.mod_small; lia).
  rewrite E2.
  destruct (Z.ltb_spec (n * 10 + (byte_to_Z c - 48)) (n * 10)); [lia|].
  destruct (Z.ltb_spec (2 ^ 64 - 1) (n * 10 + (byte_to_Z c - 48))); [lia|].
  simpl. apply IH; [assumption | lia |].
  rewrite digits_value_acc. lia.
Qed.

(** Reading back a counter written by [code]. *)
Lemma ParseUint_Sprintf_0d (n : Z) :
  0 <= n < 2 ^ 64 -> ParseUint (Sprintf_0d counterLen n) = Some n.
Proof.
  intros Hn. destruct (Sprintf_0d_counter n Hn) as (Hl & Hd & Hv).
  unfold ParseUint. destruct (Sprintf_0d counterLen n) as [|c s] eqn:E;
    [discriminate|].
  rewrite parse_digits_value; [now rewrite Hv | assumption | lia |].
  rewrite Hv. unfold maxUint64. lia.
Qed.

(** What [ParseUint] accepts is a non-empty string of digits, and the
    result is its value, below 2^64. *)
Lemma parse_digits_Some (s : list byte) (n v : Z) :
  0 <= n <= maxUint64 ->
  parse_digits s n = Some v ->
  Forall (fun c => is_digit c = true) s /\ v = digits_value s n
  /\ 0 <= v <= maxUint64.
Proof.
  revert n. induction s as [|c s IH]; intros n Hn H.
  - simpl in H. injection H as <-. repeat split; [constructor | lia | lia].
  - simpl in H. destruct (is_digit c) eqn:Hc; [|discriminate].
    pose proof (proj1 (is_digit_spec c) Hc) as Hr.
    unfold maxUint64 in *.
    destruct (Z.leb_spec ((2 ^ 64 - 1) / 10 + 1) n) as [Hc1|Hc1]; [discriminate|].
    change ((2 ^ 64 - 1) / 10 + 1) with 1844674407370955162 in Hc1.
    assert (E1 : u64 (n * 10) = n * 10) by (unfold u64; apply Z.mod_small; lia).
    rewrite E1 in H.
    destruct (Z.ltb_spec (u64 (n * 10 + (byte_to_Z c - 48))) (n * 10)) as [?|H1];
      [discriminate|].
    destruct (Z.ltb_spec (2 ^ 64 - 1) (u64 (n * 10 + (byte_to_Z c - 48)))) as [?|H2];
      [discriminate|].
    simpl in H.
    assert (E2 : u64 (n * 10 + (byte_to_Z c - 48)) = n * 10 + (byte_to_Z c - 48)).
    { unfold u64 in *. change (2 ^ 64) with 18446744073709551616 in *.
      Z.div_mod_to_equations. lia. }
    rewrite E2 in *.
    assert (Hn' : 0 <= n * 10 + (byte_to_Z c - 48) <= 2 ^ 64 - 1) by lia.
    destruct (IH _ Hn' H) as (Hd & Hv & Hb).
    repeat split; [now constructor | exact Hv | lia | lia].
Qed.

Lemma ParseUint_Some (s : list byte) (v : Z) :
  ParseUint s = Some v ->
  Forall (fun c => is_digit c = true) s /\ v = digits_value s 0
  /\ 0 <= v < 2 ^ 64.
Proof.
  intros H. unfold ParseUint in H. destruct s as [|c s]; [discriminate|].
  destruct (parse_digits_Some _ 0 v ltac:(unfold maxUint64; lia) H) as (Hd & Hv & Hb).
  unfold maxUint64 in Hb. repeat split; [assumption | assumption | lia | lia].
Qed.

(** ** Lines and fields *)

Lemma Split_nonempty (sep : byte) (s : list byte) : Split sep s <> [].
Proof.
  destruct s as [|b s]; simpl; [discriminate|].
  destruct (decide (b = sep)); [discriminate|].
  destruct (Split sep s); discriminate.
Qed.

(** Joining the fields gives the string back. *)
Lemma Join_Split (sep : byte) (s : list byte) : Join sep (Split sep s) = s.
Proof.
  induction s as [|b s IH]; [reflexivity|].
  simpl. destruct (decide (b = sep)) as [->|Hb].
  - destruct (Split sep s) as [|f fs] eqn:E; [now apply Split_nonempty in E|].
    simpl in *. now rewrite IH.
  - destruct (Split sep s) as [|f fs] eqn:E; [now apply Split_nonempty in E|].
    destruct fs; simpl in *; now rewrite <- IH.
Qed.

(** No field holds a separator. *)
Lemma Split_no_sep (sep : byte) (s : list byte) :
  Forall (fun f => sep ∉ f) (Split sep s).
Proof.
  induction s as [|b s IH]; simpl.
  - repeat constructor. apply not_elem_of_nil.
  - destruct (decide (b = sep)) as [->|Hb].
    + constructor; [apply not_elem_of_nil | assumption].
    + destruct (Split sep s) as [|f fs]; [repeat constructor; set_solver|].
      inversion IH; subst. constructor; [set_solver | assumption].
Qed.

Lemma Split_no_sep_one (sep : byte) (g : list byte) :
  sep ∉ g -> Split sep g = [g].
Proof.
  induction g as [|b g IHg]; intros Hg; [reflexivity|].
  simpl. destruct (decide (b = sep)) as [->|Hb]; [set_solver|].
  rewrite IHg by set_solver. reflexivity.
Qed.

Lemma Split_app_sep (sep : byte) (f rest : list byte) :
  sep ∉ f -> Split sep (f ++ sep :: rest) = f :: Split sep rest.
Proof.
  induction f as [|b f IHf]; intros Hf.
  - simpl. destruct (decide (sep = sep)); [reflexivity | contradiction].
  - simpl. destruct (decide (b = sep)) as [->|Hb]; [set_solver|].
    rewrite IHf by set_solver. reflexivity.
Qed.

(** Splitting a join of separator-free fields gives the fields back. *)
Lemma Split_Join (sep : byte) (fs : list (list byte)) :
  fs <> [] -> Forall (fun f => sep ∉ f) fs -> Split sep (Join sep fs) = fs.
Proof.
  induction fs as [|f fs IH]; intros Hne Hf; [contradiction|].
  inversion Hf as [|? ? Hsep Hfs]; subst.
  destruct fs as [|f' fs]; [simpl; now apply Split_no_sep_one|].
  change (Join sep (f :: f' :: fs)) with (f ++ sep :: Join sep (f' :: fs)).
  rewrite Split_app_sep by assumption.
  f_equal. apply IH; [discriminate | assumption].
Qed.

Lemma Split_nil_iff (sep : byte) (s : list byte) : Split sep s = [[]] <-> s = [].
Proof.
  split; [|now intros ->].
  intros H. rewrite <- (Join_Split sep s), H. reflexivity.
Qed.

Lemma SplitAfter_nonempty (sep : byte) (s : list byte) : SplitAfter sep s <> [].
Proof.
  destruct s as [|b s]; simpl; [discriminate|].
  destruct (decide (b = sep)); [discriminate|].
  destruct (SplitAfter sep s); discriminate.
Qed.

(** The lines, one after the other, are the data. *)
Lemma concat_SplitAfter (sep : byte) (s : list byte) :
  concat (SplitAfter sep s) = s.
Proof.
  induction s as [|b s IH]; [reflexivity|].
  simpl. destruct (decide (b = sep)) as [->|Hb].
  - simpl. now rewrite IH.
  - destruct (SplitAfter sep s) as [|f fs] eqn:E;
      [now apply SplitAfter_nonempty in E|].
    simpl in *. now rewrite IH.
Qed.

Lemma SplitAfter_wf (sep : byte) (s : list byte) : lines_wf sep (SplitAfter sep s).
Proof.
  induction s as [|b s IH]; simpl; [apply not_elem_of_nil|].
  destruct (decide (b = sep)) as [->|Hb].
  - destruct (SplitAfter sep s) as [|f fs] eqn:E;
      [now apply SplitAfter_nonempty in E|].
    split; [|exact IH]. exists []. split; [reflexivity | apply not_elem_of_nil].
  - destruct (SplitAfter sep s) as [|f fs] eqn:E;
      [now apply SplitAfter_nonempty in E|].
    destruct fs as [|f' fs].
    + simpl in *. set_solver.
    + destruct IH as [(body & -> & Hbody) IH]. split; [|exact IH].
      exists (b :: body). split; [reflexivity | set_solver].
Qed.

Lemma SplitAfter_no_sep_one (sep : byte) (g : list byte) :
  sep ∉ g -> SplitAfter sep g = [g].
Proof.
  induction g as [|b g IHg]; intros Hg; [reflexivity|].
  simpl. destruct (decide (b = sep)) as [->|Hb]; [set_solver|].
  rewrite IHg by set_solver. reflexivity.
Qed.

Lemma SplitAfter_app_sep (sep : byte) (f rest : list byte) :
  sep ∉ f -> SplitAfter sep (f ++ sep :: rest) = (f ++ [sep]) :: SplitAfter sep rest.
Proof.
  induction f as [|b f IHf]; intros Hf.
  - simpl. destruct (decide (sep = sep)); [reflexivity | contradiction].
  - simpl. destruct (decide (b = sep)) as [->|Hb]; [set_solver|].
    rewrite IHf by set_solver. reflexivity.
Qed.

(** Lines of that shape are what [SplitAfter] gives on their
    concatenation. *)
Lemma SplitAfter_concat (sep : byte) (lines : list (list byte)) :
  lines_wf sep lines -> SplitAfter sep (concat lines) = lines.
Proof.
  induction lines as [|line rest IH]; intros Hwf; [contradiction|].
  destruct rest as [|line' rest].
  - simpl in *. rewrite app_nil_r. now apply SplitAfter_no_sep_one.
  - destruct Hwf as [(body & -> & Hbody) Hwf]. specialize (IH Hwf).
    change (concat ((body ++ [sep]) :: line' :: rest))
      with ((body ++ [sep]) ++ concat (line' :: rest)).
    rewrite <- app_assoc.
    change ([sep] ++ concat (line' :: rest)) with (sep :: concat (line' :: rest)).
    rewrite SplitAfter_app_sep by assumption. now rewrite IH.
Qed.

(** A line is its trimmed text followed by its line terminator, if any. *)
Lemma TrimSuffix_ends_with (c : byte) (s : list byte) :
  s = TrimSuffix c s ++ (if ends_with c s then [c] else []).
Proof.
  induction s as [|b s IH]; [reflexivity|].
  destruct s as [|b' s].
  - unfold ends_with. simpl. destruct (decide (b = c)) as [->|Hb].
    + rewrite bool_decide_eq_true_2 by reflexivity. reflexivity.
    + rewrite bool_decide_eq_false_2 by congruence. reflexivity.
  - change (TrimSuffix c (b :: b' :: s)) with (b :: TrimSuffix c (b' :: s)).
    assert (He : ends_with c (b :: b' :: s) = ends_with c (b' :: s)) by reflexivity.
    rewrite He. simpl. f_equal. exact IH.
Qed.

Lemma TrimSuffix_snoc (c : byte) (s : list byte) : TrimSuffix c (s ++ [c]) = s.
Proof.
  induction s as [|b s IH]; simpl.
  - destruct (decide (c = c)); [reflexivity | contradiction].
  - rewrite IH. destruct (s ++ [c]) eqn:E; [|reflexivity].
    destruct s; discriminate.
Qed.

Lemma ends_with_snoc (c b : byte) (s : list byte) :
  ends_with c (s ++ [b]) = bool_decide (b = c).
Proof.
  unfold ends_with. rewrite last_snoc.
  apply bool_decide_ext. split; congruence.
Qed.

Lemma TrimSuffix_id (c : byte) (s : list byte) :
  ends_with c s = false -> TrimSuffix c s = s.
Proof.
  intros H. pose proof (TrimSuffix_ends_with c s) as E. rewrite H in E.
  rewrite app_nil_r in E. now symmetry.
Qed.

(** ** The loop of [readKeychain] *)

Section KeychainProperties.

Variable ToUpper : list byte -> list byte.
Variable DecodeString : list byte -> option (list byte).

Abbreviation decodeKey := (decodeKey ToUpper DecodeString).
Abbreviation read_line := (read_line ToUpper DecodeString).
Abbreviation read_lines := (read_lines ToUpper DecodeString).
Abbreviation readKeychain := (readKeychain ToUpper DecodeString).
Abbreviation run_code := (run_code ToUpper DecodeString).
Abbreviation valid_record := (valid_record ToUpper DecodeString).
Abbreviation malformed_from := (malformed_from ToUpper DecodeString).
Abbreviation index_from := (index_from ToUpper DecodeString).

Lemma blank_line_spec (line : list byte) :
  blank_line line = true <-> fields line = [[]].
Proof.
  unfold blank_line, fields. rewrite bool_decide_eq_true.
  symmetry. apply Split_nil_iff.
Qed.

(** What a turn of the loop does, line by line. *)
Lemma read_line_spec (off : Z) (line : list byte) :
  match read_line off line with
  | Blank => blank_line line = true
  | Entry name k =>
      valid_record line = true
      /\ name = nth 0 (fields line) []
      /\ decodeKey (nth 2 (fields line) []) = Some (raw k)
      /\ (exists c, nth 1 (fields line) [] = [c]
                    /\ digits k = byte_to_Z c - 0x30 /\ 6 <= digits k <= 8)
      /\ ((length (fields line) = 3%nat /\ offset k = 0)
          \/ (length (fields line) = 4%nat
              /\ length (nth 3 (fields line) []) = 20%nat
              /\ is_Some (ParseUint (nth 3 (fields line) []))
              /\ offset k = off - 20 - (if ends_with newline line then 1 else 0)))
  | Malformed => blank_line line = false /\ valid_record line = false
  | LinePanic => False
  end.
Proof.
  destruct (blank_line line) eqn:Hblank.
  { pose proof (proj1 (blank_line_spec line) Hblank) as Hf.
    unfold read_line. fold (fields line). rewrite Hf. reflexivity. }
  assert (Hne : fields line <> [[]]).
  { intros Hf. apply blank_line_spec in Hf. congruence. }
  assert (Hline : line <> []).
  { intros ->. apply Hne. reflexivity. }
  unfold read_line, valid_record. fold (fields line).
  pose proof (Split_nonempty space (TrimSuffix newline line)) as Hsplit.
  fold (fields line) in Hsplit.
  destruct (fields line) as [|f0 [|f1 [|f2 [|f3 [|f4 fs]]]]] eqn:Hfields;
    [contradiction| | | | |].
  - (* one field *)
    destruct f0; [contradiction|]. simpl. auto.
  - (* two fields *)
    simpl. auto.
  - (* three fields *)
    cbn [length nth Nat.eqb Nat.leb andb orb].
    destruct f1 as [|c [|c' f1]]; cbn [length nth Nat.eqb andb]; auto.
    destruct (Z.leb_spec 0x36 (byte_to_Z c)) as [H6|H6]; cbn [andb]; auto.
    destruct (Z.leb_spec (byte_to_Z c) 0x38) as [H8|H8]; cbn [andb]; auto.
    destruct (decodeKey f2) as [r|] eqn:Hdec; cbn [andb]; auto.
    rewrite bool_decide_eq_true_2 by eauto.
    repeat split; try reflexivity.
    + exists c. cbn [digits]. rewrite Z.mod_small by lia.
      repeat split; lia.
    + left. split; reflexivity.
  - (* four fields *)
    cbn [length nth Nat.eqb Nat.leb andb orb].
    destruct f1 as [|c [|c' f1]]; cbn [length nth Nat.eqb andb]; auto.
    destruct (Z.leb_spec 0x36 (byte_to_Z c)) as [H6|H6]; cbn [andb]; auto.
    destruct (Z.leb_spec (byte_to_Z c) 0x38) as [H8|H8]; cbn [andb]; auto.
    destruct (decodeKey f2) as [r|] eqn:Hdec; cbn [andb]; auto.
    rewrite (bool_decide_eq_true_2 (is_Some (Some r))) by eauto.
    unfold counterLen.
    destruct (Nat.eqb_spec (length f3) 20) as [H20|H20].
    2:{ destruct (Z.eqb_spec (Z.of_nat (length f3)) 20); [lia|]. auto. }
    destruct (Z.eqb_spec (Z.of_nat (length f3)) 20); [|lia].
    cbn [andb].
    destruct (ParseUint f3) as [v|] eqn:Hparse.
    2:{ rewrite bool_decide_eq_false_2 by (intros [? ?]; discriminate). auto. }
    rewrite bool_decide_eq_true_2 by eauto.
    destruct line as [|b line]; [contradiction|].
    repeat split; try reflexivity.
    + exists c. cbn [digits]. rewrite Z.mod_small by lia.
      repeat split; lia.
    + right. repeat split; [assumption | eauto |].
      cbn [offset]. destruct (ends_with newline (b :: line)); lia.
  - (* five fields or more *)
    cbn [length nth Nat.eqb Nat.leb andb orb].
    destruct f1 as [|c [|c' f1]]; cbn [length nth Nat.eqb andb]; auto.
    destruct (Z.leb_spec 0x36 (byte_to_Z c)) as [H6|H6]; cbn [andb]; auto.
    destruct (Z.leb_spec (byte_to_Z c) 0x38) as [H8|H8]; cbn [andb]; auto.
    destruct (decodeKey f2) as [r|] eqn:Hdec; cbn [andb]; auto.
Qed.

(** A line enters the index exactly when it is a valid record. *)
Lemma read_line_Entry_iff (off : Z) (line : list byte) :
  (exists name k, read_line off line = Entry name k) <-> valid_record line = true.
Proof.
  pose proof (read_line_spec off line) as H. split.
  - intros (name & k & E). rewrite E in H. tauto.
  - intros Hv. destruct (read_line off line) as [|name k| |]; eauto.
    + apply blank_line_spec in H.
      unfold valid_record in Hv. rewrite H in Hv. discriminate.
    + destruct H; congruence.
    + contradiction.
Qed.

Lemma logged_nil (w : World) : logged [] w = w.
Proof. destruct w. unfold logged. simpl. now rewrite app_nil_r. Qed.

Lemma logged_cons (d : diag) (ds : list diag) (w : World) :
  logged ds (log_Printf d w) = logged (d :: ds) w.
Proof. unfold logged, log_Printf. simpl. now rewrite <- app_assoc. Qed.

(** The loop never stops early: it builds [index_from] and logs
    [malformed_from]. *)
Lemma read_lines_spec (file : string) (lines : list (list byte))
    (lineno off : Z) (ks : gmap (list byte) Key) (w : World) :
  read_lines file lines lineno off ks w
  = Ok (index_from lines off ks, logged (malformed_from file lineno lines) w).
Proof.
  revert lineno off ks w.
  induction lines as [|line rest IH]; intros lineno off ks w.
  - simpl. now rewrite logged_nil.
  - simpl.
    pose proof (read_line_spec (off + Z.of_nat (length line)) line) as H.
    destruct (read_line (off + Z.of_nat (length line)) line) as [|name k| |].
    + rewrite H. simpl. apply IH.
    + destruct H as [-> _]. rewrite orb_true_r. simpl. apply IH.
    + destruct H as [-> ->]. simpl. rewrite IH. now rewrite logged_cons.
    + contradiction.
Qed.

Lemma readKeychain_spec (path : string) (data : list byte) (w : World) :
  fs w !! path = Some (File data) ->
  readKeychain path w
  = Ok ({| file := path; data := data;
           keys := index_from (SplitAfter newline data) 0 ∅ |},
        logged (malformed_from path 1 (SplitAfter newline data)) w).
Proof.
  intros Hfs. unfold readKeychain. rewrite Hfs, read_lines_spec. reflexivity.
Qed.

Lemma end_offset_0 (line : list byte) (rest : list (list byte)) :
  end_offset (line :: rest) 0 = Z.of_nat (length line).
Proof. unfold end_offset. simpl. now rewrite app_nil_r. Qed.

Lemma end_offset_S (line : list byte) (rest : list (list byte)) (i : nat) :
  end_offset (line :: rest) (S i) = Z.of_nat (length line) + end_offset rest i.
Proof.
  unfold end_offset.
  change (take (S (S i)) (line :: rest)) with (line :: take (S i) rest).
  simpl concat. rewrite length_app. lia.
Qed.

(** A name no line enters keeps what it had. *)
Lemma index_from_untouched (lines : list (list byte)) (off : Z)
    (ks : gmap (list byte) Key) (name : list byte) :
  (forall i line k, lines !! i = Some line ->
     read_line (off + end_offset lines i) line <> Entry name k) ->
  index_from lines off ks !! name = ks !! name.
Proof.
  revert off ks. induction lines as [|line rest IH]; intros off ks H; [reflexivity|].
  simpl. rewrite IH.
  - pose proof (H 0%nat line) as H0. rewrite end_offset_0 in H0.
    destruct (read_line (off + Z.of_nat (length line)) line) as [|n k| |];
      try reflexivity.
    destruct (decide (n = name)) as [->|Hn].
    + exfalso. now apply (H0 k).
    + now rewrite lookup_insert_ne.
  - intros i l k Hl. specialize (H (S i) l k Hl).
    rewrite end_offset_S in H. now rewrite <- Z.add_assoc.
Qed.

(** The last line entered under a name is what the index holds. *)
Lemma index_from_last (lines : list (list byte)) (off : Z)
    (ks : gmap (list byte) Key) (name : list byte) (i : nat)
    (line : list byte) (k : Key) :
  lines !! i = Some line ->
  read_line (off + end_offset lines i) line = Entry name k ->
  (forall j line' k', (i < j)%nat -> lines !! j = Some line' ->
     read_line (off + end_offset lines j) line' <> Entry name k') ->
  index_from lines off ks !! name = Some k.
Proof.
  revert off ks i. induction lines as [|l rest IH]; intros off ks i Hi He Hlast;
    [discriminate|].
  destruct i as [|i].
  - injection Hi as ->. rewrite end_offset_0 in He. simpl. rewrite He.
    rewrite index_from_untouched; [apply lookup_insert_eq|].
    intros j l' k' Hl'. specialize (Hlast (S j) l' k' ltac:(lia) Hl').
    rewrite end_offset_S in Hlast. now rewrite <- Z.add_assoc.
  - simpl. apply (IH _ _ i); [exact Hi | |].
    + rewrite end_offset_S in He. now rewrite <- Z.add_assoc.
    + intros j l' k' Hj Hl'. specialize (Hlast (S j) l' k' ltac:(lia) Hl').
      rewrite end_offset_S in Hlast. now rewrite <- Z.add_assoc.
Qed.

(** Whatever the index holds was there before or was entered by a
    line. *)
Lemma index_from_inv (lines : list (list byte)) (off : Z)
    (ks : gmap (list byte) Key) (name : list byte) (k : Key) :
  index_from lines off ks !! name = Some k ->
  ks !! name = Some k
  \/ exists i line, lines !! i = Some line
       /\ read_line (off + end_offset lines i) line = Entry name k.
Proof.
  revert off ks. induction lines as [|l rest IH]; intros off ks H; [now left|].
  simpl in H. apply IH in H as [H | (i & line & Hi & He)].
  - destruct (read_line (off + Z.of_nat (length l)) l) as [|n k0| |] eqn:E;
      try (now left).
    destruct (decide (n = name)) as [->|Hn].
    + rewrite lookup_insert_eq in H. injection H as ->.
      right. exists 0%nat, l. rewrite end_offset_0. auto.
    + rewrite lookup_insert_ne in H by assumption. now left.
  - right. exists (S i), line. rewrite end_offset_S, Z.add_assoc. auto.
Qed.

(** A name some line enters is in the index. *)
Lemma index_from_entered (lines : list (list byte)) (off : Z)
    (ks : gmap (list byte) Key) (name : list byte) (i : nat)
    (line : list byte) (k : Key) :
  lines !! i = Some line ->
  read_line (off + end_offset lines i) line = Entry name k ->
  is_Some (index_from lines off ks !! name).
Proof.
  revert off ks i. induction lines as [|l rest IH]; intros off ks i Hi He;
    [discriminate|].
  destruct i as [|i].
  - injection Hi as ->. rewrite end_offset_0 in He. simpl. rewrite He.
    destruct (index_from rest (off + Z.of_nat (length line)) (<[name:=k]> ks) !! name)
      eqn:E; [eauto|].
    exfalso.
    assert (Hmono : forall ls o (m : gmap (list byte) Key),
               is_Some (m !! name) -> is_Some (index_from ls o m !! name)).
    { clear. induction ls as [|l ls IHl]; intros o m Hm; [exact Hm|].
      simpl. apply IHl.
      destruct (read_line (o + Z.of_nat (length l)) l) as [|n k0| |]; try exact Hm.
      destruct (decide (n = name)) as [->|Hn].
      - rewrite lookup_insert_eq. eauto.
      - now rewrite lookup_insert_ne. }
    destruct (Hmono rest (off + Z.of_nat (length line)) (<[name:=k]> ks)) as [x Hx].
    { rewrite lookup_insert_eq. eauto. }
    congruence.
  - simpl. apply (IH _ _ i); [exact Hi|].
    rewrite end_offset_S in He. now rewrite <- Z.add_assoc.
Qed.

(** The diagnostics name the lines that are neither blank nor valid, by
    their numbers. *)
Lemma elem_of_malformed_from (file : string) (lineno : Z)
    (lines : list (list byte)) (f : string) (n : Z) :
  MalformedKey f n ∈ malformed_from file lineno lines
  <-> f = file /\ exists i line, lines !! i = Some line
        /\ n = lineno + Z.of_nat i
        /\ blank_line line = false /\ valid_record line = false.
Proof.
  revert lineno. induction lines as [|l rest IH]; intros lineno.
  - simpl. split; [intros H; inversion H|].
    intros (_ & i & line & Hi & _). discriminate.
  - simpl. rewrite elem_of_app, IH. split.
    + intros [H | (Hf & i & line & Hi & -> & Hb & Hv)].
      * destruct (blank_line l) eqn:Hb; [inversion H|].
        destruct (valid_record l) eqn:Hv; [inversion H|].
        simpl in H. apply list_elem_of_singleton in H. injection H as -> ->.
        split; [reflexivity|]. exists 0%nat, l. repeat split; auto. lia.
      * split; [assumption|]. exists (S i), line. repeat split; auto. lia.
    + intros (-> & [|i] & line & Hi & -> & Hb & Hv).
      * injection Hi as ->. left. rewrite Hb, Hv. simpl.
        apply list_elem_of_singleton. f_equal. lia.
      * right. split; [reflexivity|]. exists i, line. repeat split; auto. lia.
Qed.

(** C3: loading a readable file never stops early; a line that is not
    blank is entered into the index if and only if it is a valid record
    (three or four fields, a digits field of one character from '6' to
    '8', a secret that decodes after upper-casing, a fourth field of 20
    characters that parse as an unsigned 64-bit integer), and is reported
    with the file name and its 1-based number if and only if it is not. *)
Theorem load_enters_exactly_valid_records (path : string) (data : list byte)
    (w : World) :
  fs w !! path = Some (File data) ->
  let lines := SplitAfter newline data in
  exists c w',
    readKeychain path w = Ok (c, w')
    /\ fs w' = fs w
    /\ stderr w' = stderr w ++ malformed_from path 1 lines
    /\ (forall i line, lines !! i = Some line -> blank_line line = false ->
          ((exists name k, read_line (end_offset lines i) line = Entry name k)
           <-> valid_record line = true)
          /\ (MalformedKey path (Z.of_nat i + 1) ∈ malformed_from path 1 lines
              <-> valid_record line = false))
    /\ (forall name, is_Some (keys c !! name)
          <-> exists i line, lines !! i = Some line
                /\ valid_record line = true /\ nth 0 (fields line) [] = name).
Proof.
  intros Hfs lines. eexists _, _. split; [apply readKeychain_spec; exact Hfs|].
  fold lines. cbn [keys]. repeat split; try reflexivity.
  - apply read_line_Entry_iff.
  - apply read_line_Entry_iff.
  - intros Hin. apply elem_of_malformed_from in Hin
      as (_ & i' & line' & Hi' & Hn & _ & Hv).
    assert (i' = i) by lia. subst i'. congruence.
  - intros Hv. apply elem_of_malformed_from. split; [reflexivity|].
    exists i, line. repeat split; auto. lia.
  - intros [k Hk]. apply index_from_inv in Hk as [Hk | (i & line & Hi & He)];
      [now rewrite lookup_empty in Hk|].
    exists i, line. pose proof (read_line_spec (0 + end_offset lines i) line) as Hs.
    rewrite He in Hs. destruct Hs as (Hv & Hn & _). auto.
  - intros (i & line & Hi & Hv & Hn).
    apply (read_line_Entry_iff (0 + end_offset lines i)) in Hv as (n & k & He).
    pose proof (read_line_spec (0 + end_offset lines i) line) as Hs.
    rewrite He in Hs. destruct Hs as (_ & Hn' & _).
    rewrite <- Hn, <- Hn'. eapply index_from_entered; eauto.
Qed.

(** C6: when two lines of the file are valid records with the same
    name, and no later valid record has that name, the index maps the name
    to the record of the later line; loading succeeds, neither line is
    reported, and the file is left as it was. *)
Theorem load_last_record_wins (path : string) (data : list byte) (w : World)
    (i j : nat) (li lj : list byte) (name : list byte) (ki kj : Key) :
  fs w !! path = Some (File data) ->
  let lines := SplitAfter newline data in
  (i < j)%nat ->
  lines !! i = Some li -> lines !! j = Some lj ->
  read_line (end_offset lines i) li = Entry name ki ->
  read_line (end_offset lines j) lj = Entry name kj ->
  (forall l line, (j < l)%nat -> lines !! l = Some line ->
     valid_record line = true -> nth 0 (fields line) [] <> name) ->
  exists c w',
    readKeychain path w = Ok (c, w')
    /\ keys c !! name = Some kj
    /\ fs w' = fs w
    /\ fs w' !! path = Some (File data)
    /\ exists ds, stderr w' = stderr w ++ ds
         /\ (MalformedKey path (Z.of_nat i + 1) ∉ ds)
         /\ (MalformedKey path (Z.of_nat j + 1) ∉ ds).
Proof.
  intros Hfs lines Hij Hi Hj Hei Hej Hlast.
  eexists _, _. split; [apply readKeychain_spec; exact Hfs|].
  fold lines. cbn [keys]. repeat split; [| exact Hfs |].
  - apply (index_from_last lines 0 ∅ name j lj kj); [exact Hj | exact Hej |].
    intros l line k' Hl Hline He.
    pose proof (read_line_spec (0 + end_offset lines l) line) as Hs.
    rewrite He in Hs. destruct Hs as (Hv & Hn & _).
    now apply (Hlast l line Hl Hline Hv).
  - exists (malformed_from path 1 lines). split; [reflexivity|].
    assert (Hnot : forall n l k, lines !! n = Some l ->
              read_line (end_offset lines n) l = Entry name k ->
              MalformedKey path (Z.of_nat n + 1) ∉ malformed_from path 1 lines).
    { intros n l k Hn He Hin.
      apply elem_of_malformed_from in Hin as (_ & n' & l' & Hn' & Hnn & _ & Hv).
      assert (n' = n) by lia. subst n'.
      assert (l' = l) by congruence. subst l'.
      assert (valid_record l = true) by (apply (read_line_Entry_iff (end_offset lines n)); eauto).
      congruence. }
    split; eauto.
Qed.

(** A line of four fields is the three first fields, each followed by a
    space, then the fourth field, then the line terminator if any. *)
Lemma four_fields_shape (line f0 f1 f2 f3 : list byte) :
  fields line = [f0; f1; f2; f3] ->
  line = (f0 ++ space :: f1 ++ space :: f2 ++ [space]) ++ f3
           ++ (if ends_with newline line then [newline] else []).
Proof.
  intros Hf. rewrite (TrimSuffix_ends_with newline line) at 1.
  rewrite app_assoc. f_equal.
  rewrite <- (Join_Split space (TrimSuffix newline line)).
  unfold fields in Hf. rewrite Hf. simpl.
  repeat (rewrite <- ?app_assoc; simpl). reflexivity.
Qed.

Lemma end_offset_ge (lines : list (list byte)) (i : nat) (line : list byte) :
  lines !! i = Some line ->
  end_offset lines i
  = Z.of_nat (length (concat (take i lines))) + Z.of_nat (length line).
Proof.
  intros Hi. unfold end_offset.
  rewrite (take_S_r _ _ _ Hi), concat_app, length_app. simpl.
  rewrite app_nil_r. lia.
Qed.

(** The counter of a four-field record starts after the three first
    fields and their spaces. *)
Lemma read_line_counter_offset (off : Z) (line name : list byte) (k : Key) :
  read_line off line = Entry name k ->
  length (fields line) = 4%nat ->
  offset k = off - Z.of_nat (length line)
             + Z.of_nat (length (nth 0 (fields line) []))
             + Z.of_nat (length (nth 2 (fields line) [])) + 4.
Proof.
  intros He H4. pose proof (read_line_spec off line) as Hs. rewrite He in Hs.
  destruct Hs as (_ & _ & _ & (c & Hc & _) & [[H3 _] | (_ & H20 & _ & ->)]);
    [congruence|].
  destruct (fields line) as [|f0 [|f1 [|f2 [|f3 [|f4 fs]]]]] eqn:Hf;
    try discriminate.
  simpl in Hc, H20. subst f1.
  pose proof (four_fields_shape line _ _ _ _ Hf) as Hshape.
  apply (f_equal (@length byte)) in Hshape.
  rewrite !length_app in Hshape. simpl in Hshape.
  rewrite !length_app in Hshape. simpl in Hshape.
  cbn [nth].
  destruct (ends_with newline line); simpl in Hshape; lia.
Qed.

(** C10: a record accepted from a four-field line has a strictly
    positive counter offset, and one accepted from a three-field line has
    offset 0; so for every record of the loaded index, [offset <> 0] holds
    exactly when its line has a counter field. *)
Theorem offset_nonzero_iff_counter_field (path : string) (data : list byte)
    (w : World) :
  fs w !! path = Some (File data) ->
  let lines := SplitAfter newline data in
  (forall i line name k,
     lines !! i = Some line ->
     read_line (end_offset lines i) line = Entry name k ->
     (length (fields line) = 4%nat /\ 0 < offset k)
     \/ (length (fields line) = 3%nat /\ offset k = 0))
  /\ exists c w',
       readKeychain path w = Ok (c, w')
       /\ forall name k, keys c !! name = Some k ->
            exists i line,
              lines !! i = Some line
              /\ read_line (end_offset lines i) line = Entry name k
              /\ (offset k <> 0 <-> length (fields line) = 4%nat)
              /\ (offset k = 0 <-> length (fields line) = 3%nat).
Proof.
  intros Hfs lines.
  assert (Hline : forall i line name k,
     lines !! i = Some line ->
     read_line (end_offset lines i) line = Entry name k ->
     (length (fields line) = 4%nat /\ 0 < offset k)
     \/ (length (fields line) = 3%nat /\ offset k = 0)).
  { intros i line name k Hi He.
    pose proof (read_line_spec (end_offset lines i) line) as Hs. rewrite He in Hs.
    destruct Hs as (_ & _ & _ & _ & [[H3 H0] | (H4 & _)]); [now right|].
    left. split; [assumption|].
    rewrite (read_line_counter_offset _ _ _ _ He H4).
    rewrite (end_offset_ge _ _ _ Hi). lia. }
  split; [exact Hline|].
  eexists _, _. split; [apply readKeychain_spec; exact Hfs|].
  fold lines. cbn [keys]. intros name k Hk.
  apply index_from_inv in Hk as [Hk | (i & line & Hi & He)];
    [now rewrite lookup_empty in Hk|].
  rewrite Z.add_0_l in He.
  exists i, line. split; [exact Hi|]. split; [exact He|].
  destruct (Hline i line name k Hi He) as [[H4 Hpos] | [H3 H0]].
  - split; split; intros; try lia; congruence.
  - split; split; intros; try lia; congruence.
Qed.

(** *** Rewriting a counter in place *)

(** The loop body on a line of four fields that pass the checks. *)
Lemma read_line_four (off : Z) (line f0 f2 f3 r : list byte) (c : byte) (v : Z) :
  fields line = [f0; [c]; f2; f3] ->
  0x36 <= byte_to_Z c <= 0x38 ->
  decodeKey f2 = Some r ->
  length f3 = 20%nat ->
  ParseUint f3 = Some v ->
  read_line off line
  = Entry f0 {| raw := r; digits := (byte_to_Z c - 0x30) mod 256;
                offset := if ends_with newline line
                          then off - counterLen - 1 else off - counterLen |}.
Proof.
  intros Hf Hc Hdec H20 Hparse.
  assert (Hline : line <> []) by (intros ->; discriminate).
  unfold read_line. fold (fields line). rewrite Hf.
  cbn [length nth Nat.eqb Nat.leb andb].
  destruct (Z.leb_spec 0x36 (byte_to_Z c)); [|lia].
  destruct (Z.leb_spec (byte_to_Z c) 0x38); [|lia].
  cbn [andb]. rewrite Hdec, H20, Hparse.
  change (Z.of_nat 20 =? counterLen) with true. cbn [andb].
  destruct line; [contradiction | reflexivity].
Qed.

Lemma digits_no_byte (s : list byte) (b : byte) :
  is_Some (ParseUint s) -> is_digit b = false -> b ∉ s.
Proof.
  intros [v Hv] Hb Hin. apply ParseUint_Some in Hv as (Hd & _).
  rewrite Forall_forall in Hd. specialize (Hd b Hin). congruence.
Qed.

(** A line that enters a counter-based record ends in its counter field
    and its line terminator, and any other counter text of 20 characters
    that parses may take the place of the field: the loop body does the
    same on the new line. *)
Lemma counter_line_shape (off : Z) (line name : list byte) (k : Key) :
  read_line off line = Entry name k -> offset k <> 0 ->
  exists pfx cnt nl,
    line = pfx ++ cnt ++ nl
    /\ length cnt = 20%nat /\ is_Some (ParseUint cnt)
    /\ (nl = [] \/ nl = [newline])
    /\ offset k = off - 20 - Z.of_nat (length nl)
    /\ forall cnt', length cnt' = 20%nat -> is_Some (ParseUint cnt') ->
         forall off', read_line off' (pfx ++ cnt' ++ nl) = read_line off' line.
Proof.
  intros He Hoff. pose proof (read_line_spec off line) as Hs. rewrite He in Hs.
  destruct Hs as (_ & Hname & Hdec & (c & Hc & Hdig & Hrange)
                  & [[_ H0] | (H4 & H20 & Hparse & Hoffset)]); [contradiction|].
  destruct (fields line) as [|f0 [|f1 [|f2 [|f3 [|f4 fs]]]]] eqn:Hf;
    try discriminate.
  cbn [nth] in *. subst f1.
  pose proof (four_fields_shape line _ _ _ _ Hf) as Hshape.
  remember (f0 ++ space :: [c] ++ space :: f2 ++ [space]) as pfx eqn:Hpfx.
  remember (if ends_with newline line then [newline] else []) as nl eqn:Hnleq.
  assert (Hnl : nl = [] /\ ends_with newline line = false
                \/ nl = [newline] /\ ends_with newline line = true).
  { rewrite Hnleq. destruct (ends_with newline line); auto. }
  exists pfx, f3, nl. split; [exact Hshape|]. split; [exact H20|].
  split; [exact Hparse|].
  split; [destruct Hnl as [[? _]|[? _]]; auto|]. split.
  { rewrite Hoffset. destruct Hnl as [[-> ->]|[-> ->]]; simpl; lia. }
  intros cnt' H20' Hparse' off'.
  assert (Hc36 : 0x36 <= byte_to_Z c <= 0x38) by lia.
  destruct Hparse as [v Hv]. destruct Hparse' as [v' Hv'].
  rewrite (read_line_four off' line f0 f2 f3 (raw k) c v Hf Hc36 Hdec H20 Hv).
  assert (Hsp : space ∉ cnt') by (apply digits_no_byte; eauto).
  assert (Hnw : newline ∉ cnt') by (apply digits_no_byte; eauto).
  assert (Hends : ends_with newline (pfx ++ cnt' ++ nl) = ends_with newline line).
  { destruct Hnl as [[-> ->]|[-> ->]].
    - rewrite app_nil_r. unfold ends_with.
      destruct cnt' as [|b cnt' _] using rev_ind; [discriminate|].
      rewrite app_assoc, last_snoc.
      apply bool_decide_eq_false_2. intros [= ->]. set_solver.
    - rewrite app_assoc, ends_with_snoc. now apply bool_decide_eq_true_2. }
  assert (Htrim : TrimSuffix newline (pfx ++ cnt' ++ nl) = pfx ++ cnt').
  { destruct Hnl as [[Hn He']|[Hn He']].
    - rewrite He' in Hends. rewrite (TrimSuffix_id _ _ Hends).
      rewrite Hn. now rewrite app_nil_r.
    - rewrite Hn, app_assoc. apply TrimSuffix_snoc. }
  assert (Hf' : fields (pfx ++ cnt' ++ nl) = [f0; [c]; f2; cnt']).
  { unfold fields. rewrite Htrim.
    assert (Hj : pfx ++ cnt' = Join space [f0; [c]; f2; cnt']).
    { rewrite Hpfx. simpl. repeat (rewrite <- ?app_assoc; simpl). reflexivity. }
    rewrite Hj. apply Split_Join; [discriminate|].
    pose proof (Split_no_sep space (TrimSuffix newline line)) as Hno.
    fold (fields line) in Hno. rewrite Hf in Hno.
    inversion Hno as [|? ? H0 Hno1]; subst.
    inversion Hno1 as [|? ? H1 Hno2]; subst.
    inversion Hno2 as [|? ? H2 _]; subst.
    repeat constructor; assumption. }
  rewrite (read_line_four off' _ f0 f2 cnt' (raw k) c v' Hf' Hc36 Hdec H20' Hv').
  now rewrite Hends.
Qed.

(** Replacing the counter text of a line keeps the lines well cut. *)
Lemma lines_wf_replace (sep : byte) (lines : list (list byte)) (j : nat)
    (pfx cnt cnt' nl : list byte) :
  lines_wf sep lines ->
  lines !! j = Some (pfx ++ cnt ++ nl) ->
  cnt <> [] -> sep ∉ cnt -> sep ∉ cnt' ->
  nl = [] \/ nl = [sep] ->
  lines_wf sep (<[j := pfx ++ cnt' ++ nl]> lines).
Proof.
  intros Hwf Hj Hne Hcnt Hcnt' Hnl. revert j Hwf Hj.
  induction lines as [|l rest IH]; intros j Hwf Hj; [discriminate|].
  destruct j as [|j].
  - injection Hj as ->. cbn [insert list_insert].
    destruct rest as [|l' rest].
    + simpl in *. destruct Hnl as [-> | ->]; [|set_solver].
      rewrite app_nil_r in *. set_solver.
    + destruct Hwf as [(body & Hbody & Hsep) Hwf]. split; [|exact Hwf].
      destruct Hnl as [-> | ->].
      * exfalso. rewrite app_nil_r in Hbody.
        destruct cnt as [|d cnt _] using rev_ind; [contradiction|].
        rewrite app_assoc in Hbody. apply app_inj_tail in Hbody as [_ ->].
        set_solver.
      * rewrite app_assoc in Hbody. apply app_inj_tail in Hbody as [<- _].
        exists (pfx ++ cnt'). rewrite <- app_assoc. split; [reflexivity|].
        set_solver.
  - destruct rest as [|l' rest]; [discriminate|].
    destruct Hwf as [Hl Hwf]. specialize (IH j Hwf Hj).
    cbn [insert list_insert] in *.
    destruct j; (split; [exact Hl | exact IH]).
Qed.

Lemma concat_insert (lines : list (list byte)) (j : nat) (line line' : list byte) :
  lines !! j = Some line ->
  concat lines = concat (take j lines) ++ line ++ concat (drop (S j) lines)
  /\ concat (<[j := line']> lines)
     = concat (take j lines) ++ line' ++ concat (drop (S j) lines).
Proof.
  intros Hj. split.
  - rewrite <- (take_drop_middle lines j line Hj) at 1.
    now rewrite concat_app.
  - rewrite insert_take_drop by (now apply lookup_lt_Some in Hj).
    now rewrite concat_app.
Qed.

(** The loop body depends on a line only through what it returns. *)
Lemma blank_or_valid (off : Z) (line : list byte) :
  blank_line line || valid_record line
  = match read_line off line with Malformed => false | _ => true end.
Proof.
  pose proof (read_line_spec off line) as Hs.
  destruct (read_line off line) as [|n k| |].
  - now rewrite Hs.
  - destruct Hs as [-> _]. apply orb_true_r.
  - now destruct Hs as [-> ->].
  - contradiction.
Qed.

Lemma index_from_insert_same (lines : list (list byte)) (j : nat)
    (line line' : list byte) (off : Z) (ks : gmap (list byte) Key) :
  lines !! j = Some line -> length line' = length line ->
  (forall off', read_line off' line' = read_line off' line) ->
  index_from (<[j := line']> lines) off ks = index_from lines off ks.
Proof.
  intros Hj Hlen Hsame. revert j off ks Hj.
  induction lines as [|l rest IH]; intros j off ks Hj; [discriminate|].
  destruct j as [|j].
  - injection Hj as ->. cbn [insert list_insert]. simpl.
    now rewrite Hlen, Hsame.
  - cbn [insert list_insert]. simpl. now rewrite (IH j).
Qed.

Lemma malformed_from_insert_same (file : string) (lines : list (list byte))
    (j : nat) (line line' : list byte) (lineno : Z) :
  lines !! j = Some line ->
  (forall off', read_line off' line' = read_line off' line) ->
  malformed_from file lineno (<[j := line']> lines)
  = malformed_from file lineno lines.
Proof.
  intros Hj Hsame. revert j lineno Hj.
  induction lines as [|l rest IH]; intros j lineno Hj; [discriminate|].
  destruct j as [|j].
  - injection Hj as ->. cbn [insert list_insert]. simpl.
    now rewrite (blank_or_valid 0 line'), (blank_or_valid 0 line), Hsame.
  - cbn [insert list_insert]. simpl. now rewrite (IH j).
Qed.

(** The counter field of a loaded counter-based record lies within the
    data, holds a counter that parses, and may be overwritten in place by
    any counter text of 20 characters that parses: the overwritten data
    loads to the same index, with the same diagnostics. *)
Lemma rewrite_counter_reload (data : list byte) (name : list byte) (k : Key)
    (cnt' : list byte) :
  index_from (SplitAfter newline data) 0 ∅ !! name = Some k ->
  offset k <> 0 ->
  length cnt' = 20%nat -> is_Some (ParseUint cnt') ->
  let o := Z.to_nat (offset k) in
  let data' := take o data ++ cnt' ++ drop (o + 20) data in
  0 < offset k /\ offset k + 20 <= Z.of_nat (length data)
  /\ length (take 20 (drop o data)) = 20%nat
  /\ is_Some (ParseUint (take 20 (drop o data)))
  /\ index_from (SplitAfter newline data') 0 ∅
     = index_from (SplitAfter newline data) 0 ∅
  /\ forall file lineno,
       malformed_from file lineno (SplitAfter newline data')
       = malformed_from file lineno (SplitAfter newline data).
Proof.
  intros Hk Hoff H20' Hparse' o data'.
  set (lines := SplitAfter newline data) in *.
  apply index_from_inv in Hk as [Hk | (i & line & Hi & He)];
    [now rewrite lookup_empty in Hk|].
  rewrite Z.add_0_l in He.
  destruct (counter_line_shape _ _ _ _ He Hoff)
    as (pfx & cnt & nl & Hline & H20 & Hparse & Hnl & Hoffset & Hsame).
  destruct (concat_insert lines i line (pfx ++ cnt' ++ nl) Hi) as [Hdata Hdata'].
  unfold lines in Hdata at 1. rewrite concat_SplitAfter in Hdata.
  set (A := concat (take i lines)) in *.
  set (B := concat (drop (S i) lines)) in *.
  assert (Ho : o = length (A ++ pfx)).
  { unfold o. rewrite Hoffset, (end_offset_ge _ _ _ Hi). fold A.
    rewrite Hline, !length_app, H20.
    lia. }
  assert (Hsplit1 : data = (A ++ pfx) ++ cnt ++ nl ++ B).
  { rewrite Hdata, Hline. now rewrite <- !app_assoc. }
  assert (Hsplit2 : data = ((A ++ pfx) ++ cnt) ++ nl ++ B).
  { rewrite Hsplit1. now rewrite <- !app_assoc. }
  assert (Htake : take o data = A ++ pfx).
  { rewrite Ho, Hsplit1. apply take_app_length. }
  assert (Hdrop : drop o data = cnt ++ nl ++ B).
  { rewrite Ho, Hsplit1. apply drop_app_length. }
  assert (Hdrop2 : drop (o + 20) data = nl ++ B).
  { replace (o + 20)%nat with (length ((A ++ pfx) ++ cnt))
      by (rewrite (length_app _ cnt), H20, Ho; reflexivity).
    rewrite Hsplit2. apply drop_app_length. }
  assert (Hcnt : take 20 (drop o data) = cnt).
  { rewrite Hdrop, <- H20. apply take_app_length. }
  assert (Hpos : 0 < offset k).
  { pose proof (read_line_spec (end_offset lines i) line) as Hs. rewrite He in Hs.
    destruct Hs as (_ & _ & _ & _ & [[_ H0] | (H4 & _)]); [contradiction|].
    pose proof (read_line_counter_offset _ _ _ _ He H4) as Hco.
    rewrite (end_offset_ge _ _ _ Hi) in Hco. lia. }
  split; [exact Hpos|]. split.
  { rewrite Hsplit1, (length_app (A ++ pfx)), (length_app cnt), H20.
    unfold o in Ho. lia. }
  rewrite Hcnt. split; [exact H20|]. split; [exact Hparse|].
  assert (Hdata'' : data' = concat (<[i := pfx ++ cnt' ++ nl]> lines)).
  { unfold data'. rewrite Htake, Hdrop2, Hdata'. fold A B.
    now rewrite <- !app_assoc. }
  assert (Hlines' : SplitAfter newline data' = <[i := pfx ++ cnt' ++ nl]> lines).
  { rewrite Hdata''. apply SplitAfter_concat.
    rewrite Hline in Hi.
    apply (lines_wf_replace newline lines i pfx cnt cnt' nl);
      [apply SplitAfter_wf | exact Hi | | | | exact Hnl].
    - intros ->. discriminate.
    - now apply digits_no_byte.
    - now apply digits_no_byte. }
  rewrite Hlines'. split.
  - apply (index_from_insert_same lines i line); [exact Hi | | now apply Hsame].
    rewrite Hline, !length_app. congruence.
  - intros file lineno.
    apply (malformed_from_insert_same file lines i line); [exact Hi | now apply Hsame].
Qed.

(** *** [code] on a loaded keychain *)

(** Overwriting 20 bytes inside the data: the length stays, the bytes
    read back, and the bytes around stay. *)
Lemma patch_spec (data field : list byte) (o : nat) :
  (o + 20 <= length data)%nat -> length field = 20%nat ->
  let data' := take o data ++ field ++ drop (o + 20) data in
  length data' = length data
  /\ take 20 (drop o data') = field
  /\ forall i, (i < o \/ o + 20 <= i)%nat -> data' !! i = data !! i.
Proof.
  intros Ho Hf data'. unfold data'.
  assert (Hto : length (take o data) = o) by (rewrite length_take; lia).
  split; [|split].
  - rewrite !length_app, Hto, Hf, length_drop. lia.
  - rewrite <- Hto at 1. rewrite drop_app_length.
    rewrite <- Hf. apply take_app_length.
  - intros i [Hi | Hi].
    + rewrite lookup_app_l by lia. apply lookup_take_lt. lia.
    + rewrite lookup_app_r by lia. rewrite lookup_app_r by lia.
      rewrite lookup_drop. rewrite Hto, Hf. f_equal. lia.
Qed.

Lemma WriteAt_inside (content b : list byte) (off : Z) :
  0 <= off -> (Z.to_nat off <= length content)%nat ->
  WriteAt content b off
  = Some (take (Z.to_nat off) content ++ b
            ++ drop (Z.to_nat off + length b) content).
Proof.
  intros H0 Hle. unfold WriteAt.
  destruct (Z.ltb_spec off 0); [lia|].
  replace (Z.to_nat off - length content)%nat with 0%nat by lia.
  reflexivity.
Qed.

Lemma slice_inside (s : list byte) (lo : Z) :
  0 <= lo -> lo + counterLen <= Z.of_nat (length s) ->
  slice s lo (lo + counterLen) = Ok (take 20 (drop (Z.to_nat lo) s)).
Proof.
  intros H0 Hhi. unfold slice, counterLen in *.
  destruct (Z.leb_spec 0 lo); [|lia].
  destruct (Z.leb_spec lo (lo + 20)); [|lia].
  destruct (Z.leb_spec (lo + 20) (Z.of_nat (length s))); [|lia].
  simpl. replace (Z.to_nat (lo + 20 - lo)) with 20%nat by lia. reflexivity.
Qed.

(** On a keychain loaded from [content], while the file holds [disk] of
    the same length, [code] on a counter-based record reads the counter
    [n] of the record in [content], answers with the code of [n + 1], and
    overwrites the counter field of [disk] with the text of [n + 1]. *)
Lemma code_loaded (path : string) (content disk : list byte) (name : list byte)
    (k : Key) (w : World) :
  fs w !! path = Some (File disk) ->
  length disk = length content ->
  index_from (SplitAfter newline content) 0 ∅ !! name = Some k ->
  offset k <> 0 ->
  let o := Z.to_nat (offset k) in
  exists n,
    ParseUint (take 20 (drop o content)) = Some n
    /\ 0 <= n < 2 ^ 64
    /\ (o + 20 <= length content)%nat
    /\ code {| file := path; data := content;
               keys := index_from (SplitAfter newline content) 0 ∅ |} name w
       = Ok (Sprintf_0d (digits k) (hotp (raw k) (u64 (n + 1)) (digits k)),
             set_fs (<[path := File (take o disk
                                      ++ Sprintf_0d counterLen (u64 (n + 1))
                                      ++ drop (o + 20) disk)]> (fs w)) w).
Proof.
  intros Hfs Hdisk Hk Hoff o.
  destruct (rewrite_counter_reload content name k (repeat x30 20) Hk Hoff)
    as (Hpos & Hin & _ & [n Hn] & _); [reflexivity | vm_compute; eauto |].
  exists n. split; [exact Hn|].
  pose proof (ParseUint_Some _ _ Hn) as (_ & _ & Hrange).
  split; [exact Hrange|]. split; [unfold o; lia|].
  unfold code. cbn [keys data file]. rewrite Hk.
  destruct (Z.eqb_spec (offset k) 0); [contradiction|]. cbn [negb].
  rewrite slice_inside by (unfold counterLen; lia).
  unfold mbind, result_bind. rewrite Hn, Hfs.
  assert (Hu : 0 <= u64 (n + 1) < 2 ^ 64) by (apply Z.mod_pos_bound; lia).
  destruct (Sprintf_0d_counter _ Hu) as (Hlen & _).
  rewrite WriteAt_inside by lia. rewrite Hlen. reflexivity.
Qed.

(** The counter field of a loaded counter-based record lies within the
    data, after its first byte. *)
Lemma loaded_offset_range (content : list byte) (name : list byte) (k : Key) :
  index_from (SplitAfter newline content) 0 ∅ !! name = Some k ->
  offset k <> 0 ->
  0 < offset k /\ offset k + counterLen <= Z.of_nat (length content).
Proof.
  intros Hk Hoff.
  destruct (rewrite_counter_reload content name k (repeat x30 20) Hk Hoff)
    as (Hpos & Hin & _); [reflexivity | vm_compute; eauto |].
  unfold counterLen. lia.
Qed.

(** Every record of a loaded index asks for 6, 7 or 8 digits. *)
Lemma loaded_digits (content : list byte) (name : list byte) (k : Key) :
  index_from (SplitAfter newline content) 0 ∅ !! name = Some k ->
  6 <= digits k <= 8.
Proof.
  intros Hk. apply index_from_inv in Hk as [Hk | (i & line & Hi & He)];
    [now rewrite lookup_empty in Hk|].
  pose proof (read_line_spec (0 + end_offset (SplitAfter newline content) i) line) as Hs.
  rewrite He in Hs. destruct Hs as (_ & _ & _ & (c & _ & _ & Hr) & _). exact Hr.
Qed.

(** A keychain with a key was loaded from a file, and is what
    [readKeychain_spec] says. *)
Lemma readKeychain_inv (path : string) (w0 w : World) (c : Keychain)
    (name : list byte) (k : Key) :
  readKeychain path w0 = Ok (c, w) -> keys c !! name = Some k ->
  exists content,
    fs w0 !! path = Some (File content)
    /\ c = {| file := path; data := content;
              keys := index_from (SplitAfter newline content) 0 ∅ |}
    /\ w = logged (malformed_from path 1 (SplitAfter newline content)) w0.
Proof.
  intros Hread Hk. destruct (fs w0 !! path) as [[content|]|] eqn:Hfs.
  - rewrite (readKeychain_spec _ _ _ Hfs) in Hread.
    injection Hread as <- <-. eauto.
  - unfold readKeychain in Hread. rewrite Hfs in Hread. discriminate.
  - unfold readKeychain in Hread. rewrite Hfs in Hread.
    injection Hread as <- <-. cbn [keys] in Hk.
    now rewrite lookup_empty in Hk.
Qed.

(** C8: on a keychain just loaded, [code] on a counter-based record
    overwrites the 20 bytes at the record's counter offset with 20 decimal
    digits and nothing else: the file keeps its length, every byte outside
    the field stays, and loading the file again gives the same index, with
    every record at the offset it had. *)
Theorem code_rewrites_counter_in_place (path : string) (w0 w : World)
    (c : Keychain) (name : list byte) (k : Key) :
  readKeychain path w0 = Ok (c, w) ->
  keys c !! name = Some k ->
  offset k <> 0 ->
  let o := Z.to_nat (offset k) in
  exists content field s w',
    fs w0 !! path = Some (File content)
    /\ code c name w = Ok (s, w')
    /\ length field = 20%nat
    /\ Forall (fun b => is_digit b = true) field
    /\ 0 < offset k /\ (o + 20 <= length content)%nat
    /\ fs w' = <[path := File (take o content ++ field ++ drop (o + 20) content)]> (fs w0)
    /\ length (take o content ++ field ++ drop (o + 20) content) = length content
    /\ (forall i, (i < o \/ o + 20 <= i)%nat ->
          (take o content ++ field ++ drop (o + 20) content) !! i = content !! i)
    /\ exists w'',
         readKeychain path w'
         = Ok ({| file := path;
                  data := take o content ++ field ++ drop (o + 20) content;
                  keys := keys c |}, w'').
Proof.
  intros Hread Hk Hoff o.
  destruct (readKeychain_inv _ _ _ _ _ _ Hread Hk) as (content & Hfs & -> & ->).
  cbn [keys] in Hk.
  destruct (code_loaded path content content name k
              (logged (malformed_from path 1 (SplitAfter newline content)) w0)
              Hfs eq_refl Hk Hoff) as (n & Hn & Hrange & Hin & Hcode).
  fold o in Hin, Hcode.
  assert (Hu : 0 <= u64 (n + 1) < 2 ^ 64) by (apply Z.mod_pos_bound; lia).
  destruct (Sprintf_0d_counter _ Hu) as (Hlen & Hdig & Hval).
  destruct (patch_spec content (Sprintf_0d counterLen (u64 (n + 1))) o Hin Hlen)
    as (Hplen & _ & Hpout).
  destruct (rewrite_counter_reload content name k
              (Sprintf_0d counterLen (u64 (n + 1))) Hk Hoff Hlen)
    as (Hpos & _ & _ & _ & Hidx & _).
  { rewrite ParseUint_Sprintf_0d by exact Hu. eauto. }
  fold o in Hidx.
  eexists content, _, _, _. split; [exact Hfs|]. split; [exact Hcode|].
  split; [exact Hlen|]. split; [exact Hdig|]. split; [exact Hpos|].
  split; [exact Hin|]. split; [reflexivity|]. split; [exact Hplen|].
  split; [exact Hpout|].
  eexists. rewrite (readKeychain_spec path
    (take o content ++ Sprintf_0d counterLen (u64 (n + 1)) ++ drop (o + 20) content)).
  - cbn [keys]. rewrite Hidx. reflexivity.
  - cbn [fs set_fs]. apply lookup_insert_eq.
Qed.

(** C9: when the stored counter parses to 18446744073709551615, the
    increment wraps around to 0: [code] answers with the code of counter
    0 and writes twenty zeros at the counter offset; it does not fail. *)
Theorem code_wraps_counter_at_max (c : Keychain) (name : list byte) (k : Key)
    (w : World) (field content : list byte) :
  keys c !! name = Some k ->
  offset k <> 0 ->
  slice (data c) (offset k) (offset k + counterLen) = Ok field ->
  ParseUint field = Some 18446744073709551615 ->
  fs w !! file c = Some (File content) ->
  u64 (18446744073709551615 + 1) = 0
  /\ exists content',
       WriteAt content (bytes_of "00000000000000000000") (offset k) = Some content'
       /\ code c name w
          = Ok (Sprintf_0d (digits k) (hotp (raw k) 0 (digits k)),
                set_fs (<[file c := File content']> (fs w)) w).
Proof.
  intros Hk Hoff Hslice Hparse Hfs. split; [reflexivity|].
  assert (H0 : 0 <= offset k).
  { unfold slice in Hslice. destruct (Z.leb_spec 0 (offset k)); [assumption|].
    discriminate. }
  unfold code. rewrite Hk.
  destruct (Z.eqb_spec (offset k) 0); [contradiction|]. cbn [negb].
  rewrite Hslice. unfold mbind, result_bind. rewrite Hparse, Hfs.
  change (u64 (18446744073709551615 + 1)) with 0.
  change (Sprintf_0d counterLen 0) with (bytes_of "00000000000000000000").
  unfold WriteAt. destruct (Z.ltb_spec (offset k) 0); [lia|].
  eexists. split; reflexivity.
Qed.

(** C1, as the code has it: two runs of [2fa name] in succession, each
    loading the keychain and calling [code] once, on a counter-based
    record whose stored counter is twenty zeros, give the code of counter
    1 and then the code of counter 2 - two texts that differ exactly when
    the two [hotp] values do - and leave "00000000000000000002" in the
    counter field of a file of unchanged length. Two calls of [code] on
    one loaded keychain read the retained data both times: both give the
    code of counter 1 and leave "00000000000000000001". *)
Theorem two_runs_advance_counter (path : string) (w0 w : World)
    (c : Keychain) (name : list byte) (k : Key) :
  readKeychain path w0 = Ok (c, w) ->
  keys c !! name = Some k ->
  offset k <> 0 ->
  slice (data c) (offset k) (offset k + counterLen)
    = Ok (bytes_of "00000000000000000000") ->
  let code1 := Sprintf_0d (digits k) (hotp (raw k) 1 (digits k)) in
  let code2 := Sprintf_0d (digits k) (hotp (raw k) 2 (digits k)) in
  (exists w1 w2 content2,
     run_code path name w0 = Ok (code1, w1)
     /\ run_code path name w1 = Ok (code2, w2)
     /\ fs w2 !! path = Some (File content2)
     /\ slice content2 (offset k) (offset k + counterLen)
        = Ok (bytes_of "00000000000000000002")
     /\ length content2 = length (data c))
  /\ (code1 <> code2 <-> hotp (raw k) 1 (digits k) <> hotp (raw k) 2 (digits k))
  /\ (exists w1 w2 content1,
        code c name w = Ok (code1, w1)
        /\ code c name w1 = Ok (code1, w2)
        /\ fs w2 !! path = Some (File content1)
        /\ slice content1 (offset k) (offset k + counterLen)
           = Ok (bytes_of "00000000000000000001")
        /\ length content1 = length (data c)).
Proof.
  intros Hread Hk Hoff Hslice code1 code2.
  destruct (readKeychain_inv _ _ _ _ _ _ Hread Hk) as (content & Hfs & -> & ->).
  cbn [keys data] in *.
  set (o := Z.to_nat (offset k)).
  set (lg := logged (malformed_from path 1 (SplitAfter newline content)) w0).
  pose proof (loaded_digits _ _ _ Hk) as Hdig.
  pose proof (loaded_offset_range _ _ _ Hk Hoff) as [Hpos Hend].
  rewrite slice_inside in Hslice by lia.
  injection Hslice as Hslice. fold o in Hslice.
  (* the first call reads counter 0 *)
  destruct (code_loaded path content content name k lg Hfs eq_refl Hk Hoff)
    as (n & Hn & _ & Hin & Hcode1).
  fold o in Hn, Hin, Hcode1.
  assert (Hn0 : n = 0).
  { rewrite Hslice in Hn. vm_compute in Hn. congruence. }
  subst n. change (u64 (0 + 1)) with 1 in Hcode1.
  set (s1 := Sprintf_0d counterLen 1) in *.
  set (content1 := take o content ++ s1 ++ drop (o + 20) content) in *.
  destruct (patch_spec content s1 o Hin eq_refl) as (Hlen1 & Hback1 & _).
  fold content1 in Hlen1, Hback1.
  destruct (rewrite_counter_reload content name k s1 Hk Hoff eq_refl)
    as (_ & _ & _ & _ & Hidx1 & Hmal1); [vm_compute; eauto|].
  fold o content1 in Hidx1, Hmal1.
  set (w1 := set_fs (<[path := File content1]> (fs lg)) lg) in *.
  assert (Hfs1 : fs w1 !! path = Some (File content1)) by apply lookup_insert_eq.
  assert (Hk1 : index_from (SplitAfter newline content1) 0 ∅ !! name = Some k)
    by (now rewrite Hidx1).
  split; [|split].
  - (* two runs *)
    set (lg1 := logged (malformed_from path 1 (SplitAfter newline content1)) w1).
    destruct (code_loaded path content1 content1 name k lg1 Hfs1 eq_refl Hk1 Hoff)
      as (n & Hn' & _ & Hin1 & Hcode2).
    fold o in Hn', Hin1, Hcode2. rewrite Hback1 in Hn'.
    assert (Hn1 : n = 1) by (vm_compute in Hn'; congruence).
    subst n. change (u64 (1 + 1)) with 2 in Hcode2.
    set (s2 := Sprintf_0d counterLen 2) in *.
    destruct (patch_spec content1 s2 o Hin1 eq_refl) as (Hlen2 & Hback2 & _).
    eexists w1, _, _. split; [|split; [|split; [|split]]].
    + unfold run_code. rewrite (readKeychain_spec _ _ _ Hfs).
      unfold mbind, result_bind. exact Hcode1.
    + unfold run_code. rewrite (readKeychain_spec _ _ _ Hfs1).
      unfold mbind, result_bind. exact Hcode2.
    + apply lookup_insert_eq.
    + rewrite slice_inside; [| lia |].
      * fold o. now rewrite Hback2.
      * rewrite Hlen2. unfold counterLen. lia.
    + now rewrite Hlen2.
  - (* the two texts *)
    assert (H1 : 0 <= hotp (raw k) 1 (digits k))
      by apply (hotp_range (raw k) 1 (digits k)).
    assert (H2 : 0 <= hotp (raw k) 2 (digits k))
      by apply (hotp_range (raw k) 2 (digits k)).
    split.
    + intros Hne E. apply Hne. unfold code1, code2. now rewrite E.
    + intros Hne E. apply Hne.
      apply (Sprintf_0d_inj (digits k)); [lia | assumption | assumption | exact E].
  - (* two calls on one keychain *)
    destruct (code_loaded path content content1 name k w1 Hfs1 Hlen1 Hk Hoff)
      as (n & Hn' & _ & _ & Hcode2).
    fold o in Hn', Hcode2.
    assert (Hn0 : n = 0).
    { rewrite Hslice in Hn'. vm_compute in Hn'. congruence. }
    subst n. change (u64 (0 + 1)) with 1 in Hcode2. fold s1 in Hcode2.
    assert (Hin1 : (o + 20 <= length content1)%nat) by (rewrite Hlen1; exact Hin).
    destruct (patch_spec content1 s1 o Hin1 eq_refl) as (Hlen2 & Hback2 & _).
    eexists w1, _, _. split; [exact Hcode1|]. split; [exact Hcode2|].
    split; [apply lookup_insert_eq|]. split.
    + rewrite slice_inside; [| lia |].
      * fold o. now rewrite Hback2.
      * rewrite Hlen2, Hlen1. unfold counterLen. unfold o in Hin. lia.
    + now rewrite Hlen2.
Qed.

(** *** [showAll] *)

Lemma bytes_ltb_asym (s t : list byte) :
  bytes_ltb s t = true -> bytes_ltb t s = false.
Proof.
  revert t. induction s as [|a s IH]; intros [|b t] H; simpl in *;
    try reflexivity; try discriminate.
  destruct (Z.ltb_spec (byte_to_Z a) (byte_to_Z b));
    destruct (Z.ltb_spec (byte_to_Z b) (byte_to_Z a));
    try lia; try reflexivity; try discriminate.
  now apply IH.
Qed.

Lemma bytes_ltb_trans (s t u : list byte) :
  bytes_ltb s t = true -> bytes_ltb t u = true -> bytes_ltb s u = true.
Proof.
  revert t u. induction s as [|a s IH]; intros [|b t] [|c u] H1 H2; simpl in *;
    try reflexivity; try discriminate.
  destruct (Z.ltb_spec (byte_to_Z a) (byte_to_Z b));
    destruct (Z.ltb_spec (byte_to_Z b) (byte_to_Z a));
    destruct (Z.ltb_spec (byte_to_Z b) (byte_to_Z c));
    destruct (Z.ltb_spec (byte_to_Z c) (byte_to_Z b));
    destruct (Z.ltb_spec (byte_to_Z a) (byte_to_Z c));
    destruct (Z.ltb_spec (byte_to_Z c) (byte_to_Z a));
    try lia; try reflexivity; try discriminate.
  now apply (IH t u).
Qed.

(** Two strings are ordered one way or the other, and equal when both. *)
Lemma bytes_ltb_total (s t : list byte) :
  bytes_ltb s t = false -> bytes_ltb t s = false -> s = t.
Proof.
  revert t. induction s as [|a s IH]; intros [|b t] H1 H2; simpl in *;
    try reflexivity; try discriminate.
  destruct (Z.ltb_spec (byte_to_Z a) (byte_to_Z b));
    destruct (Z.ltb_spec (byte_to_Z b) (byte_to_Z a));
    try lia; try discriminate.
  f_equal; [apply byte_to_Z_inj; lia | now apply IH].
Qed.

Lemma bytes_le_total : Total bytes_le.
Proof.
  intros s t. unfold bytes_le.
  destruct (bytes_ltb t s) eqn:E; [right; now apply bytes_ltb_asym | now left].
Qed.

Lemma bytes_le_trans : Transitive bytes_le.
Proof.
  intros s t u Hst Htu. unfold bytes_le in *.
  destruct (bytes_ltb u s) eqn:E; [|reflexivity]. exfalso.
  destruct (bytes_ltb t s) eqn:E1; [discriminate|].
  destruct (bytes_ltb u t) eqn:E2; [discriminate|].
  destruct (bytes_ltb s t) eqn:E3.
  - rewrite (bytes_ltb_trans u s t E E3) in E2. discriminate.
  - rewrite (bytes_ltb_total s t E3 E1) in E. congruence.
Qed.

(** [sort.Strings] puts the names in lexicographic order, each name
    once. *)
Lemma sort_Strings_spec (names : list (list byte)) :
  StronglySorted bytes_le (sort_Strings names) /\ sort_Strings names ≡ₚ names.
Proof.
  split; [|apply merge_sort_Permutation].
  apply (@StronglySorted_merge_sort _ bytes_le _ bytes_le_trans bytes_le_total).
Qed.

(** The first loop leaves in [max] the largest [digits] of the entries,
    or what it started from. *)
Lemma max_digits_spec (entries : list (list byte * Key)) (m0 : Z) :
  m0 <= max_digits entries m0
  /\ (forall e, e ∈ entries -> digits e.2 <= max_digits entries m0)
  /\ (max_digits entries m0 = m0
      \/ exists e, e ∈ entries /\ digits e.2 = max_digits entries m0).
Proof.
  revert m0. induction entries as [|e es IH]; intros m0.
  - simpl. repeat split; [lia | | now left]. intros e He. inversion He.
  - change (max_digits (e :: es) m0)
      with (max_digits es (if m0 <? digits e.2 then digits e.2 else m0)).
    set (m1 := if m0 <? digits e.2 then digits e.2 else m0).
    assert (Hm1 : m0 <= m1 /\ digits e.2 <= m1 /\ (m1 = m0 \/ m1 = digits e.2)).
    { unfold m1. destruct (Z.ltb_spec m0 (digits e.2)); lia. }
    destruct (IH m1) as (H1 & H2 & H3). repeat split.
    + lia.
    + intros e' He'. apply elem_of_cons in He' as [-> | He']; [lia | now apply H2].
    + destruct H3 as [H3 | (e' & He' & H3)].
      * destruct Hm1 as (_ & _ & [Hm | Hm]); [left; lia|].
        right. exists e. split; [apply list_elem_of_here | lia].
      * right. exists e'. split; [now apply list_elem_of_further | exact H3].
Qed.

Lemma count_time_based_cons (c : Keychain) (name : list byte)
    (names : list (list byte)) :
  count_time_based c (name :: names)
  = ((if time_based c name then 1 else 0) + count_time_based c names)%nat.
Proof.
  unfold count_time_based. rewrite filter_cons.
  destruct (decide (time_based c name = true)) as [E|E].
  - rewrite E. reflexivity.
  - destruct (time_based c name); [contradiction | reflexivity].
Qed.

Lemma lookup_cons_S {A : Type} (x : A) (l : list A) (i : nat) :
  (x :: l) !! S i = l !! i.
Proof. reflexivity. Qed.

(** The second loop prints one row per name, reads the clock once for
    each time-based record, and touches nothing else. *)
Lemma showAll_rows_spec (c : Keychain) (max : Z) (names : list (list byte))
    (w : World) :
  (forall name, name ∈ names ->
     exists k, keys c !! name = Some k /\ 0 <= digits k) ->
  exists w' rows,
    showAll_rows c max names w = Ok w'
    /\ fs w' = fs w /\ stderr w' = stderr w /\ clock w' = clock w
    /\ ticks w' = (ticks w + count_time_based c names)%nat
    /\ stdout w' = stdout w ++ rows
    /\ length rows = length names
    /\ forall i name, names !! i = Some name ->
         rows !! i
         = Some (Sprintf_row max
                   (code_column c
                      (clock w (ticks w + count_time_based c (take i names))%nat)
                      name)
                   name).
Proof.
  revert w. induction names as [|name rest IH]; intros w Hkeys.
  - exists w, []. simpl. rewrite app_nil_r.
    repeat split; try reflexivity; try (intros; discriminate).
    unfold count_time_based. simpl. lia.
  - destruct (Hkeys name) as (k & Hk & Hd); [apply list_elem_of_here|].
    assert (Hrest : forall n, n ∈ rest ->
              exists k, keys c !! n = Some k /\ 0 <= digits k).
    { intros n Hn. apply Hkeys. now apply list_elem_of_further. }
    cbn [showAll_rows]. rewrite Hk. unfold default, from_option, id.
    unfold Repeat. destruct (Z.ltb_spec (digits k) 0); [lia|].
    unfold mbind, result_bind.
    assert (Hcol : forall t, code_column c t name
              = if offset k =? 0
                then Sprintf_0d (digits k) (totp (raw k) t (digits k))
                else repeat x2d (Z.to_nat (digits k))).
    { intros t. unfold code_column, time_based. rewrite Hk. reflexivity. }
    assert (Htb : time_based c name = (offset k =? 0)).
    { unfold time_based. now rewrite Hk. }
    destruct (offset k =? 0) eqn:Hoff.
    + (* a time-based record *)
      unfold code. rewrite Hk, Hoff. cbn [negb time_Now].
      match goal with
      | |- context [showAll_rows c max rest ?w1] =>
          destruct (IH w1 Hrest)
            as (w' & rows & Hrun & Hfs & Herr & Hclk & Htk & Hout & Hlen & Hrows)
      end.
      cbn [fs stderr clock ticks stdout print] in *.
      exists w', (Sprintf_row max (code_column c (clock w (ticks w)) name) name :: rows).
      rewrite ?Hcol, ?Hoff. split; [exact Hrun|].
      repeat split; try assumption.
      * rewrite count_time_based_cons, Htb, Htk. lia.
      * rewrite Hout, <- app_assoc. reflexivity.
      * simpl. now rewrite Hlen.
      * intros [|i] n Hi.
        -- injection Hi as <-. cbn [take count_time_based filter length lookup].
           simpl. rewrite Nat.add_0_r, ?Hcol, ?Hoff. reflexivity.
        -- rewrite lookup_cons_S in Hi |- *. rewrite (Hrows i n Hi).
           cbn [take]. rewrite count_time_based_cons, Htb.
           do 4 f_equal. lia.
    + (* a counter-based record *)
      match goal with
      | |- context [showAll_rows c max rest ?w1] =>
          destruct (IH w1 Hrest)
            as (w' & rows & Hrun & Hfs & Herr & Hclk & Htk & Hout & Hlen & Hrows)
      end.
      cbn [fs stderr clock ticks stdout print] in *.
      exists w', (Sprintf_row max (code_column c (clock w (ticks w)) name) name :: rows).
      rewrite ?Hcol, ?Hoff. split; [exact Hrun|].
      repeat split; try assumption.
      * rewrite count_time_based_cons, Htb, Htk. lia.
      * rewrite Hout, <- app_assoc. reflexivity.
      * simpl. now rewrite Hlen.
      * intros [|i] n Hi.
        -- injection Hi as <-. simpl. rewrite ?Hcol, ?Hoff. reflexivity.
        -- rewrite lookup_cons_S in Hi |- *. rewrite (Hrows i n Hi).
           cbn [take]. rewrite count_time_based_cons, Htb.
           reflexivity.
Qed.

Lemma readKeychain_digits (path : string) (w0 w : World) (c : Keychain)
    (name : list byte) (k : Key) :
  readKeychain path w0 = Ok (c, w) -> keys c !! name = Some k ->
  6 <= digits k <= 8.
Proof.
  intros Hread Hk.
  destruct (readKeychain_inv _ _ _ _ _ _ Hread Hk) as (content & _ & -> & _).
  now apply (loaded_digits content name).
Qed.

(** C7: on a loaded keychain, [showAll] prints one row per name, the
    names in lexicographic order; the row of a time-based record holds its
    code at the time the clock is read for it, the row of a counter-based
    record holds [digits] dashes; the code column is padded on the right
    with spaces to the largest [digits] of the keychain and followed by a
    tab and the name; and the file system is left as it was, so that no
    stored counter changes. *)
Theorem showAll_rows_and_no_write (path : string) (w0 w : World) (c : Keychain) :
  readKeychain path w0 = Ok (c, w) ->
  let names := sort_Strings (fst <$> map_to_list (keys c)) in
  let max := max_digits (map_to_list (keys c)) 0 in
  exists w' rows,
    showAll c w = Ok w'
    /\ fs w' = fs w
    /\ stdout w' = stdout w ++ rows
    /\ length rows = length names
    /\ StronglySorted bytes_le names
    /\ NoDup names
    /\ (forall name, name ∈ names <-> is_Some (keys c !! name))
    /\ (forall name k, keys c !! name = Some k -> digits k <= max)
    /\ (max = 0 \/ exists name k, keys c !! name = Some k /\ digits k = max)
    /\ forall i name, names !! i = Some name ->
         exists k code,
           keys c !! name = Some k
           /\ rows !! i
              = Some (code ++ repeat space (Z.to_nat max - length code)
                        ++ [x09] ++ name ++ [newline])
           /\ (offset k = 0 ->
               code = Sprintf_0d (digits k)
                        (totp (raw k)
                           (clock w (ticks w + count_time_based c (take i names))%nat)
                           (digits k)))
           /\ (offset k <> 0 ->
               code = repeat x2d (Z.to_nat (digits k))
               /\ Z.of_nat (length code) = digits k).
Proof.
  intros Hread names max.
  destruct (sort_Strings_spec (fst <$> map_to_list (keys c))) as [Hsorted Hperm].
  fold names in Hsorted, Hperm.
  assert (Hmem : forall name, name ∈ names <-> is_Some (keys c !! name)).
  { intros name. rewrite Hperm, list_elem_of_fmap. split.
    - intros ([n k] & -> & Hin). apply elem_of_map_to_list in Hin. eauto.
    - intros [k Hk]. exists (name, k). split; [reflexivity|].
      now apply elem_of_map_to_list. }
  assert (Hkeys : forall name, name ∈ names ->
            exists k, keys c !! name = Some k /\ 0 <= digits k).
  { intros name Hin. apply Hmem in Hin as [k Hk]. exists k. split; [exact Hk|].
    pose proof (readKeychain_digits _ _ _ _ _ _ Hread Hk). lia. }
  destruct (showAll_rows_spec c max names w Hkeys)
    as (w' & rows & Hrun & Hfs & _ & _ & _ & Hout & Hlen & Hrows).
  destruct (max_digits_spec (map_to_list (keys c)) 0) as (_ & Hmax & Hwit).
  fold max in Hmax, Hwit.
  exists w', rows. split; [exact Hrun|]. split; [exact Hfs|].
  split; [exact Hout|]. split; [exact Hlen|]. split; [exact Hsorted|].
  split; [|split; [exact Hmem|split; [|split]]].
  - rewrite Hperm. apply NoDup_fst_map_to_list.
  - intros name k Hk. apply (Hmax (name, k)). now apply elem_of_map_to_list.
  - destruct Hwit as [H0 | ([n k] & Hin & Hd)]; [now left|].
    right. exists n, k. split; [now apply elem_of_map_to_list | exact Hd].
  - intros i name Hi.
    assert (Hin : name ∈ names) by (apply list_elem_of_lookup; eauto).
    destruct (Hkeys name Hin) as (k & Hk & Hd).
    exists k, (code_column c (clock w (ticks w + count_time_based c (take i names))%nat) name).
    split; [exact Hk|]. split; [exact (Hrows i name Hi)|].
    unfold code_column, time_based. rewrite Hk. cbn [default from_option id].
    unfold default, from_option, id. split.
    + intros ->. reflexivity.
    + intros Hne. destruct (Z.eqb_spec (offset k) 0); [contradiction|].
      split; [reflexivity|]. rewrite repeat_length. lia.
Qed.

End KeychainProperties.

(** * The statements at work on examples *)

(** [readKeychain] on the example world: the later record for github
    wins, and line 3 is reported. *)
Lemma example_loads :
  readKeychain upper_ascii base32_decode ".2fa" example_world
  = Ok (example_keychain, example_loaded_world).
Proof. vm_compute. reflexivity. Qed.

(** C3 on the example file. *)
Lemma load_enters_exactly_valid_records_witness :
  exists c w',
    readKeychain upper_ascii base32_decode ".2fa" example_world = Ok (c, w')
    /\ fs w' = fs example_world
    /\ stderr w' = [MalformedKey ".2fa" 3]
    /\ (is_Some (keys c !! bytes_of "github") <->
        exists i line,
          SplitAfter newline example_file !! i = Some line
          /\ valid_record upper_ascii base32_decode line = true
          /\ nth 0 (fields line) [] = bytes_of "github").
Proof.
  destruct (load_enters_exactly_valid_records upper_ascii base32_decode
              ".2fa" example_file example_world)
    as (c & w' & Hread & Hfs & Herr & _ & Hdom).
  - vm_compute. reflexivity.
  - exists c, w'. split; [exact Hread|]. split; [exact Hfs|].
    split; [rewrite Herr; vm_compute; reflexivity|]. apply Hdom.
Defined.

(** C6 on the example file: github is on lines 1 and 5. *)
Lemma load_last_record_wins_witness :
  exists c w',
    readKeychain upper_ascii base32_decode ".2fa" example_world = Ok (c, w')
    /\ keys c !! bytes_of "github" = Some example_github
    /\ fs w' = fs example_world.
Proof.
  destruct (load_last_record_wins upper_ascii base32_decode
              ".2fa" example_file example_world 0 4
              (bytes_of "github 6 nzxxiidbebvwk6jb
")
              (bytes_of "github 8 GEZDGNBVGY3TQOJQGEZDGNBVGY3TQOJQ
")
              (bytes_of "github")
              {| raw := bytes_of "not a key!"; digits := 6; offset := 0 |}
              example_github)
    as (c & w' & Hread & Hk & Hfs & _).
  - vm_compute. reflexivity.
  - lia.
  - vm_compute. reflexivity.
  - vm_compute. reflexivity.
  - vm_compute. reflexivity.
  - vm_compute. reflexivity.
  - intros l line Hl Hline Hvalid.
    destruct l as [|[|[|[|[|[|l]]]]]]; try lia.
    + vm_compute in Hline. injection Hline as <-.
      vm_compute in Hvalid. discriminate.
    + vm_compute in Hline. discriminate.
  - exists c, w'. auto.
Defined.

(** C10 on the example file. *)
Lemma offset_nonzero_iff_counter_field_witness :
  exists c w',
    readKeychain upper_ascii base32_decode ".2fa" example_world = Ok (c, w')
    /\ forall name k, keys c !! name = Some k ->
         exists i line,
           SplitAfter newline example_file !! i = Some line
           /\ read_line upper_ascii base32_decode
                (end_offset (SplitAfter newline example_file) i) line
              = Entry name k
           /\ (offset k <> 0 <-> length (fields line) = 4%nat)
           /\ (offset k = 0 <-> length (fields line) = 3%nat).
Proof.
  destruct (offset_nonzero_iff_counter_field upper_ascii base32_decode
              ".2fa" example_file example_world) as (_ & H).
  - vm_compute. reflexivity.
  - exact H.
Defined.

(** C8 on the example file: the counter of hot is rewritten at byte 41. *)
Lemma code_rewrites_counter_in_place_witness :
  exists s w',
    code example_keychain (bytes_of "hot") example_loaded_world = Ok (s, w')
    /\ exists content',
         fs w' = <[".2fa"%string := File content']> (fs example_world)
         /\ length content' = length example_file.
Proof.
  destruct (code_rewrites_counter_in_place upper_ascii base32_decode
              ".2fa" example_world example_loaded_world example_keychain
              (bytes_of "hot") example_hot)
    as (content & field & s & w' & Hfs & Hcode & _ & _ & _ & _ & Hfs' & Hlen & _).
  - vm_compute. reflexivity.
  - vm_compute. reflexivity.
  - vm_compute. discriminate.
  - assert (content = example_file) as ->.
    { vm_compute in Hfs. injection Hfs as <-. reflexivity. }
    exists s, w'. split; [exact Hcode|]. eexists. split; [exact Hfs' | exact Hlen].
Defined.

(** C9 on a file whose counter reads 18446744073709551615. *)
Lemma code_wraps_counter_at_max_witness :
  code maxed_keychain (bytes_of "hot") maxed_world
  = Ok (Sprintf_0d 6 (hotp [x00; x00; x0a; x09; x0c] 0 6),
        with_file (bytes_of "hot 6 AAAAUCIM 00000000000000000000
") maxed_world).
Proof.
  destruct (code_wraps_counter_at_max maxed_keychain (bytes_of "hot")
              {| raw := [x00; x00; x0a; x09; x0c]; digits := 6; offset := 15 |}
              maxed_world (bytes_of "18446744073709551615") maxed_file)
    as (_ & content' & Hwrite & Hcode).
  - vm_compute. reflexivity.
  - vm_compute. discriminate.
  - vm_compute. reflexivity.
  - vm_compute. reflexivity.
  - vm_compute. reflexivity.
  - rewrite Hcode. vm_compute in Hwrite. injection Hwrite as <-.
    vm_compute. reflexivity.
Defined.

(** C1 as amended, on the example file. *)
Lemma two_runs_advance_counter_witness :
  exists w1 w2 content2,
    run_code upper_ascii base32_decode ".2fa" (bytes_of "hot") example_world
    = Ok (Sprintf_0d 6 (hotp (raw example_hot) 1 6), w1)
    /\ run_code upper_ascii base32_decode ".2fa" (bytes_of "hot") w1
       = Ok (Sprintf_0d 6 (hotp (raw example_hot) 2 6), w2)
    /\ fs w2 !! ".2fa"%string = Some (File content2)
    /\ slice content2 41 (41 + counterLen) = Ok (bytes_of "00000000000000000002")
    /\ length content2 = length example_file.
Proof.
  destruct (two_runs_advance_counter upper_ascii base32_decode
              ".2fa" example_world example_loaded_world example_keychain
              (bytes_of "hot") example_hot) as (Hruns & _).
  - vm_compute. reflexivity.
  - vm_compute. reflexivity.
  - vm_compute. discriminate.
  - vm_compute. reflexivity.
  - exact Hruns.
Defined.

(** C7 on the example file: github sorts before hot, its code is the TOTP
    of RFC 6238 at 59 s, and hot shows six dashes padded to eight columns. *)
Lemma showAll_rows_and_no_write_witness :
  exists w',
    showAll example_keychain example_loaded_world = Ok w'
    /\ fs w' = fs example_loaded_world
    /\ map string_of_list_byte (stdout w')
       = ["94287082	github
"; "------  	hot
"]%string.
Proof.
  destruct (showAll_rows_and_no_write upper_ascii base32_decode
              ".2fa" example_world example_loaded_world example_keychain)
    as (w' & rows & Hrun & Hfs & _).
  - vm_compute. reflexivity.
  - exists w'. split; [exact Hrun|]. split; [exact Hfs|].
    assert (E : showAll example_keychain example_loaded_world
                = Ok (print (bytes_of "------  	hot
")
                       (print (bytes_of "94287082	github
")
                          (snd (time_Now example_loaded_world)))))
      by (vm_compute; reflexivity).
    rewrite E in Hrun. injection Hrun as <-. vm_compute. reflexivity.
Defined.

(** C1, as stated, fails on the file [fresh_file]: its secret gives the
    same [hotp] value, 950996, at counters 1 and 2. Two runs in succession
    print the same code twice (and leave counter 2 in the file); two calls
    of [code] on one loaded keychain print the same code twice as well, and
    leave counter 1 in the file, not 2. *)
Lemma two_codes_coincide :
  (* the record is counter-based and its counter field is twenty zeros *)
  (exists c w k,
     readKeychain upper_ascii base32_decode ".2fa" fresh_world = Ok (c, w)
     /\ keys c !! bytes_of "hot" = Some k /\ offset k <> 0
     /\ slice (data c) (offset k) (offset k + counterLen)
        = Ok (bytes_of "00000000000000000000")
     (* two calls on the loaded keychain *)
     /\ code c (bytes_of "hot") w
        = Ok (bytes_of "950996", with_file fresh_file_1 fresh_world)
     /\ code c (bytes_of "hot") (with_file fresh_file_1 fresh_world)
        = Ok (bytes_of "950996", with_file fresh_file_1 fresh_world))
  (* two runs, the keychain loaded anew for each *)
  /\ run_code upper_ascii base32_decode ".2fa" (bytes_of "hot") fresh_world
     = Ok (bytes_of "950996", with_file fresh_file_1 fresh_world)
  /\ run_code upper_ascii base32_decode ".2fa" (bytes_of "hot")
       (with_file fresh_file_1 fresh_world)
     = Ok (bytes_of "950996", with_file fresh_file_2 fresh_world)
  /\ hotp [x00; x00; x0a; x09; x0c] 1 6 = hotp [x00; x00; x0a; x09; x0c] 2 6.
Proof.
  split; [|split; [|split]].
  - eexists _, _, _. split; [vm_compute; reflexivity|].
    split; [vm_compute; reflexivity|]. split; [vm_compute; discriminate|].
    split; [vm_compute; reflexivity|]. split; vm_compute; reflexivity.
  - vm_compute. reflexivity.
  - vm_compute. reflexivity.
  - vm_compute. reflexivity.
Qed.

(** * Further properties of the code *)

(** ** The code generator *)


(** X2: two times in the same 30-second step since the epoch give the same
    code (for times from the epoch to 2^64 nanoseconds after it). *)
Theorem totp_same_step (key : list byte) (t1 t2 : Time) (digits : Z) :
  0 <= unix_sec t1 -> 0 <= nsec t1 < 10 ^ 9 ->
  unix_sec t1 * 10 ^ 9 + nsec t1 < 2 ^ 64 ->
  0 <= unix_sec t2 -> 0 <= nsec t2 < 10 ^ 9 ->
  unix_sec t2 * 10 ^ 9 + nsec t2 < 2 ^ 64 ->
  unix_sec t1 / 30 = unix_sec t2 / 30 ->
  totp key t1 digits = totp key t2 digits.
Proof.
  intros. unfold totp. rewrite !totp_counter by assumption. congruence.
Qed.

(** X2 at 30 s and 59.999999999 s after the epoch. *)
Lemma totp_same_step_witness :
  totp (bytes_of "12345678901234567890") {| unix_sec := 30; nsec := 0 |} 6
  = totp (bytes_of "12345678901234567890")
      {| unix_sec := 59; nsec := 999999999 |} 6.
Proof.
  apply (totp_same_step (bytes_of "12345678901234567890")
           {| unix_sec := 30; nsec := 0 |}
           {| unix_sec := 59; nsec := 999999999 |} 6);
    simpl; try lia; reflexivity.
Defined.

(** X3: for a time before the epoch (down to -2^63 nanoseconds), the
    conversion [uint64(t.UnixNano())] wraps around: [totp] is [hotp] at
    [(2^64 + nanoseconds) / 30e9], a counter near 614891469, and not at a
    negative step. *)
Theorem totp_before_epoch (key : list byte) (t : Time) (digits : Z) :
  0 <= nsec t < 10 ^ 9 ->
  - 2 ^ 63 <= unix_sec t * 10 ^ 9 + nsec t < 0 ->
  totp key t digits
  = hotp key ((2 ^ 64 + (unix_sec t * 10 ^ 9 + nsec t)) / 30000000000) digits
  /\ 307445734 <= (2 ^ 64 + (unix_sec t * 10 ^ 9 + nsec t)) / 30000000000
     <= 614891469.
Proof.
  intros Hn Hb. unfold totp, UnixNano. rewrite u64_i64.
  generalize dependent (unix_sec t * 10 ^ 9 + nsec t). intros ns Hb.
  change (2 ^ 64) with 18446744073709551616 in *.
  change (2 ^ 63) with 9223372036854775808 in *.
  assert (E : ns mod 18446744073709551616 = 18446744073709551616 + ns).
  { symmetry. apply Z.mod_unique with (q := -1); lia. }
  rewrite E. split; [reflexivity|].
  split.
  - apply Z.div_le_lower_bound; lia.
  - apply Z.lt_succ_r. apply Z.div_lt_upper_bound; lia.
Qed.

(** X3 one second before the epoch. *)
Lemma totp_before_epoch_witness :
  totp (bytes_of "12345678901234567890") {| unix_sec := -1; nsec := 0 |} 6
  = hotp (bytes_of "12345678901234567890")
      ((2 ^ 64 + (-1 * 10 ^ 9 + 0)) / 30000000000) 6.
Proof.
  apply (totp_before_epoch (bytes_of "12345678901234567890")
           {| unix_sec := -1; nsec := 0 |} 6); simpl; lia.
Defined.

(** ** Decimal text *)


(** ** The keychain store *)

Section KeychainExtras.

Variable ToUpper : list byte -> list byte.
Variable DecodeString : list byte -> option (list byte).

Abbreviation readKeychain' := (readKeychain ToUpper DecodeString).
Abbreviation run_code' := (run_code ToUpper DecodeString).
Abbreviation index_from' := (index_from ToUpper DecodeString).
Abbreviation malformed_from' := (malformed_from ToUpper DecodeString).

(** X4: [readKeychain] never panics and never writes: it ends with
    [log.Fatal] exactly when the file is there and cannot be read, and
    otherwise returns a keychain for the path, having only added lines to
    the log. *)
Theorem readKeychain_only_logs (path : string) (w : World) :
  match readKeychain' path w with
  | Ok (c, w') =>
      file c = path
      /\ fs w !! path <> Some NoAccess
      /\ fs w' = fs w /\ clock w' = clock w /\ ticks w' = ticks w
      /\ stdout w' = stdout w
      /\ exists ds, stderr w' = stderr w ++ ds
  | Fatal e => e = ReadError /\ fs w !! path = Some NoAccess
  | Panic => False
  end.
Proof.
  destruct (fs w !! path) as [[content|]|] eqn:Hfs.
  - rewrite (readKeychain_spec _ _ _ _ _ Hfs). cbn [file].
    repeat split; try reflexivity; try discriminate. eexists. reflexivity.
  - unfold readKeychain. rewrite Hfs. auto.
  - unfold readKeychain. rewrite Hfs. cbn [file].
    repeat split; try reflexivity; try discriminate.
    exists []. now rewrite app_nil_r.
Qed.


(** X6: a run on a counter-based key whose stored counter is [n] prints
    the code of counter [n + 1] (modulo 2^64) and stores that counter: the
    next load of the file finds the same index, with every record at its
    offset, and the counter [n + 1] in the field. *)
Theorem run_advances_stored_counter (path : string) (w0 w : World)
    (c : Keychain) (name : list byte) (k : Key) :
  readKeychain' path w0 = Ok (c, w) ->
  keys c !! name = Some k ->
  offset k <> 0 ->
  exists n field w1 c1 w1' field1,
    slice (data c) (offset k) (offset k + counterLen) = Ok field
    /\ ParseUint field = Some n
    /\ run_code' path name w0
       = Ok (Sprintf_0d (digits k) (hotp (raw k) (u64 (n + 1)) (digits k)), w1)
    /\ readKeychain' path w1 = Ok (c1, w1')
    /\ keys c1 = keys c
    /\ slice (data c1) (offset k) (offset k + counterLen) = Ok field1
    /\ ParseUint field1 = Some (u64 (n + 1)).
Proof.
  intros Hread Hk Hoff.
  destruct (readKeychain_inv _ _ _ _ _ _ _ _ Hread Hk) as (content & Hfs & -> & ->).
  cbn [keys data] in *.
  set (o := Z.to_nat (offset k)).
  set (lg := logged (malformed_from' path 1 (SplitAfter newline content)) w0).
  pose proof (loaded_offset_range _ _ _ _ _ Hk Hoff) as [Hpos Hend].
  destruct (code_loaded ToUpper DecodeString path content content name k lg
              Hfs eq_refl Hk Hoff) as (n & Hn & Hrange & Hin & Hcode).
  fold o in Hn, Hin, Hcode.
  assert (Hu : 0 <= u64 (n + 1) < 2 ^ 64) by (apply Z.mod_pos_bound; lia).
  destruct (Sprintf_0d_counter _ Hu) as (Hlen & _ & _).
  set (s1 := Sprintf_0d counterLen (u64 (n + 1))) in *.
  set (content1 := take o content ++ s1 ++ drop (o + 20) content) in *.
  destruct (patch_spec content s1 o Hin Hlen) as (Hlen1 & Hback1 & _).
  fold content1 in Hlen1, Hback1.
  destruct (rewrite_counter_reload ToUpper DecodeString content name k s1
              Hk Hoff Hlen) as (_ & _ & _ & _ & Hidx1 & _).
  { unfold s1. rewrite ParseUint_Sprintf_0d by exact Hu. eauto. }
  fold o content1 in Hidx1.
  eexists n, _, _, _, _, _.
  split; [apply slice_inside; lia|]. fold o.
  split; [exact Hn|]. split.
  { unfold run_code. rewrite (readKeychain_spec _ _ _ _ _ Hfs).
    unfold mbind, result_bind. exact Hcode. }
  split.
  { apply readKeychain_spec. cbn [fs set_fs]. apply lookup_insert_eq. }
  cbn [keys data]. split; [exact Hidx1|]. split.
  - rewrite slice_inside by (rewrite ?Hlen1; lia). fold o. reflexivity.
  - rewrite Hback1. unfold s1. now apply ParseUint_Sprintf_0d.
Qed.

End KeychainExtras.


(** X6 on the file whose counter reads 18446744073709551615. *)
Lemma run_advances_stored_counter_witness :
  exists n w1 c1 w1',
    run_code upper_ascii base32_decode ".2fa" (bytes_of "hot") maxed_world
    = Ok (Sprintf_0d 6 (hotp [x00; x00; x0a; x09; x0c] (u64 (n + 1)) 6), w1)
    /\ readKeychain upper_ascii base32_decode ".2fa" w1 = Ok (c1, w1')
    /\ keys c1 = keys maxed_keychain.
Proof.
  destruct (run_advances_stored_counter upper_ascii base32_decode ".2fa"
              maxed_world maxed_world maxed_keychain (bytes_of "hot")
              {| raw := [x00; x00; x0a; x09; x0c]; digits := 6; offset := 15 |})
    as (n & field & w1 & c1 & w1' & field1 & _ & _ & Hrun & Hload & Hkeys & _).
  - vm_compute. reflexivity.
  - vm_compute. reflexivity.
  - vm_compute. discriminate.
  - exists n, w1, c1, w1'. auto.
Defined.

(** ** The order in which a map is ranged over *)

Lemma max_digits_Permutation (entries entries' : list (list byte * Key)) :
  entries ≡ₚ entries' ->
  forall m, max_digits entries m = max_digits entries' m.
Proof.
  induction 1 as [|e l l' _ IH|e e' l|l l' l'' _ IH1 _ IH2]; intros m.
  - reflexivity.
  - change (max_digits (e :: l) m)
      with (max_digits l (if m <? digits e.2 then digits e.2 else m)).
    change (max_digits (e :: l') m)
      with (max_digits l' (if m <? digits e.2 then digits e.2 else m)).
    apply IH.
  - change (max_digits (e' :: e :: l) m)
      with (max_digits l
              (if (if m <? digits e'.2 then digits e'.2 else m) <? digits e.2
               then digits e.2
               else (if m <? digits e'.2 then digits e'.2 else m))).
    change (max_digits (e :: e' :: l) m)
      with (max_digits l
              (if (if m <? digits e.2 then digits e.2 else m) <? digits e'.2
               then digits e'.2
               else (if m <? digits e.2 then digits e.2 else m))).
    f_equal.
    destruct (Z.ltb_spec m (digits e'.2)); destruct (Z.ltb_spec m (digits e.2));
      repeat match goal with
             | |- context [?a <? ?b] => destruct (Z.ltb_spec a b)
             end; lia.
  - now rewrite IH1, IH2.
Qed.

(** Sorting does not depend on the order of what is sorted. *)
Lemma sort_Strings_Permutation (names names' : list (list byte)) :
  names ≡ₚ names' -> sort_Strings names = sort_Strings names'.
Proof.
  intros Hperm.
  destruct (sort_Strings_spec names) as [Hs Hp].
  destruct (sort_Strings_spec names') as [Hs' Hp'].
  apply (StronglySorted_unique_strong bytes_le); try assumption.
  - intros x y _ _ Hxy Hyx. unfold bytes_le in *. now apply bytes_ltb_total.
  - now rewrite Hp, Hp', Hperm.
Qed.

(** X7: Go ranges over a map in an order that changes from run to run;
    [showAll] does the same whatever that order is, since the largest
    [digits] and the sorted names do not depend on it. *)
Theorem showAll_any_range_order (c : Keychain)
    (entries : list (list byte * Key)) (w : World) :
  entries ≡ₚ map_to_list (keys c) ->
  showAll_ranged c entries w = showAll c w.
Proof.
  intros Hperm. unfold showAll_ranged, showAll.
  rewrite (max_digits_Permutation _ _ Hperm).
  rewrite (sort_Strings_Permutation (fst <$> entries) (fst <$> map_to_list (keys c)))
    by (now rewrite Hperm).
  reflexivity.
Qed.

(** X7 on the example keychain, ranged over with hot first. *)
Lemma showAll_any_range_order_witness :
  showAll_ranged example_keychain
    [(bytes_of "hot", example_hot); (bytes_of "github", example_github)]
    example_loaded_world
  = showAll example_keychain example_loaded_world.
Proof.
  apply (showAll_any_range_order example_keychain
           [(bytes_of "hot", example_hot); (bytes_of "github", example_github)]).
  apply NoDup_Permutation.
  - repeat constructor; vm_compute; set_solver.
  - apply NoDup_map_to_list.
  - intros [n k]. rewrite elem_of_map_to_list.
    split.
    + intros H. repeat (apply elem_of_cons in H as [H|H]);
        try (injection H as -> ->; vm_compute; reflexivity).
      inversion H.
    + intros H. unfold example_keychain in H. cbn [keys] in H.
      apply lookup_insert_Some in H as [[<- <-]|[_ H]]; [set_solver|].
      apply lookup_insert_Some in H as [[<- <-]|[_ H]]; [set_solver|].
      now rewrite lookup_empty in H.
Defined.

(** ** [list] *)

Lemma print_names_spec (names : list (list byte)) (w : World) :
  stdout (print_names names w)
  = stdout w ++ map (fun name => name ++ [newline]) names
  /\ fs (print_names names w) = fs w
  /\ stderr (print_names names w) = stderr w
  /\ clock (print_names names w) = clock w
  /\ ticks (print_names names w) = ticks w.
Proof.
  revert w. induction names as [|name rest IH]; intros w.
  - simpl. now rewrite app_nil_r.
  - unfold print_names in *. cbn [foldl].
    destruct (IH (print (name ++ [newline]) w)) as (H1 & H2 & H3 & H4 & H5).
    rewrite H1, H2, H3, H4, H5. cbn [stdout fs stderr clock ticks print map].
    rewrite <- app_assoc. repeat split.
Qed.

(** X8: [list] prints the names of the index, each once and on a line of
    its own, in lexicographic order, whatever the order the map is ranged
    over; it changes nothing else. *)
Theorem list_prints_sorted_names (c : Keychain) (w : World) :
  exists names,
    stdout (Keychain_list c w)
    = stdout w ++ map (fun name => name ++ [newline]) names
    /\ StronglySorted bytes_le names
    /\ NoDup names
    /\ (forall name, name ∈ names <-> is_Some (keys c !! name))
    /\ fs (Keychain_list c w) = fs w
    /\ stderr (Keychain_list c w) = stderr w
    /\ forall entries, entries ≡ₚ map_to_list (keys c) ->
         list_ranged entries w = Keychain_list c w.
Proof.
  exists (sort_Strings (fst <$> map_to_list (keys c))).
  destruct (sort_Strings_spec (fst <$> map_to_list (keys c))) as [Hsorted Hperm].
  destruct (print_names_spec (sort_Strings (fst <$> map_to_list (keys c))) w)
    as (Hout & Hfs & Herr & _).
  split; [exact Hout|]. split; [exact Hsorted|]. split.
  { rewrite Hperm. apply NoDup_fst_map_to_list. }
  split.
  { intros name. rewrite Hperm, list_elem_of_fmap. split.
    - intros ([n k] & -> & Hin). apply elem_of_map_to_list in Hin. eauto.
    - intros [k Hk]. exists (name, k). split; [reflexivity|].
      now apply elem_of_map_to_list. }
  split; [exact Hfs|]. split; [exact Herr|].
  intros entries He. unfold Keychain_list, list_ranged.
  now rewrite (sort_Strings_Permutation (fst <$> entries)
                 (fst <$> map_to_list (keys c))) by (now rewrite He).
Qed.

(** ** Runes *)

Lemma lor_lt_pow2 (a b n : Z) :
  0 <= n -> 0 <= a < 2 ^ n -> 0 <= b < 2 ^ n -> 0 <= Z.lor a b < 2 ^ n.
Proof.
  intros Hn Ha Hb.
  assert (H0 : 0 <= Z.lor a b) by (apply Z.lor_nonneg; lia).
  split; [exact H0|].
  destruct (Z.eq_dec (Z.lor a b) 0) as [->|Hne]; [apply Z.pow_pos_nonneg; lia|].
  apply Z.log2_lt_pow2; [lia|].
  rewrite Z.log2_lor by lia.
  destruct (Z.eq_dec a 0) as [->|Ha0]; destruct (Z.eq_dec b 0) as [->|Hb0].
  - simpl in Hne. contradiction.
  - rewrite Z.max_r by (simpl; apply Z.log2_nonneg). apply Z.log2_lt_pow2; lia.
  - rewrite Z.max_l by (simpl; apply Z.log2_nonneg). apply Z.log2_lt_pow2; lia.
  - apply Z.max_lub_lt; apply Z.log2_lt_pow2; lia.
Qed.

Lemma land_mask_range (x : Z) (k : Z) :
  0 <= k -> 0 <= Z.land x (Z.ones k) < 2 ^ k.
Proof.
  intros Hk. rewrite Z.land_ones by lia. apply Z.mod_pos_bound.
  apply Z.pow_pos_nonneg; lia.
Qed.

Lemma cont_bits_range (b : byte) : 0 <= cont_bits b < 64.
Proof. unfold cont_bits. apply (land_mask_range _ 6). lia. Qed.

Lemma shiftl_range (a k n : Z) :
  0 <= k -> 0 <= n -> 0 <= a < 2 ^ n -> 0 <= Z.shiftl a k < 2 ^ (n + k).
Proof.
  intros Hk Hn Ha. rewrite Z.shiftl_mul_pow2 by lia.
  rewrite Z.pow_add_r by lia.
  assert (0 < 2 ^ k) by (apply Z.pow_pos_nonneg; lia). nia.
Qed.

Lemma shiftl_lt_21 (a j k : Z) :
  0 <= j -> 0 <= k -> j + k <= 21 -> 0 <= a < 2 ^ j ->
  0 <= Z.shiftl a k < 2 ^ 21.
Proof.
  intros Hj Hk Hjk Ha.
  destruct (shiftl_range a k j Hk Hj Ha) as [H0 H1]. split; [exact H0|].
  apply Z.lt_le_trans with (2 ^ (j + k)); [exact H1|].
  apply Z.pow_le_mono_r; lia.
Qed.

Lemma cont_bits_lt_21 (b : byte) (k : Z) :
  0 <= k <= 15 -> 0 <= Z.shiftl (cont_bits b) k < 2 ^ 21.
Proof.
  intros Hk. apply (shiftl_lt_21 _ 6 k); try lia. apply cont_bits_range.
Qed.

(** A byte whose bit 7 is set is no ASCII character. *)
Lemma high_bit_byte (v : Z) : Z.testbit v 7 = true -> 0x80 <= byte_to_Z (byte_of_Z v).
Proof.
  intros Hbit. rewrite byte_to_of_Z.
  assert (Hu : 0 <= v mod 256 < 256) by (apply Z.mod_pos_bound; lia).
  assert (Hb : Z.testbit (v mod 256) 7 = true).
  { change 256 with (2 ^ 8). rewrite Z.mod_pow2_bits_low by lia. exact Hbit. }
  apply Z.testbit_true in Hb; [|lia].
  change (2 ^ 7) with 128 in Hb.
  destruct (Z.lt_ge_cases (v mod 256) 128) as [Hlt|]; [|lia].
  rewrite Z.div_small in Hb by lia. discriminate.
Qed.

(** What [DecodeRune] gives on a string that is not empty: a width within
    the string, a rune below 2^21, and either an ASCII byte decoded as
    itself or a sequence of bytes none of which is ASCII. *)
Lemma DecodeRune_spec (p0 : byte) (tl : list byte) :
  let r := (DecodeRune (p0 :: tl)).1 in
  let size := (DecodeRune (p0 :: tl)).2 in
  (1 <= size <= length (p0 :: tl))%nat
  /\ 0 <= r < 2 ^ 21
  /\ ((byte_to_Z p0 < 0x80 /\ r = byte_to_Z p0 /\ size = 1%nat)
      \/ (0x80 <= byte_to_Z p0
          /\ Forall (fun b => 0x80 <= byte_to_Z b) (take size (p0 :: tl)))).
Proof.
  pose proof (byte_to_Z_range p0) as Hp0.
  assert (Hone : 0x80 <= byte_to_Z p0 ->
            (1 <= 1 <= length (p0 :: tl))%nat
            /\ 0 <= RuneError < 2 ^ 21
            /\ ((byte_to_Z p0 < 0x80 /\ RuneError = byte_to_Z p0 /\ 1%nat = 1%nat)
                \/ (0x80 <= byte_to_Z p0
                    /\ Forall (fun b => 0x80 <= byte_to_Z b) (take 1 (p0 :: tl))))).
  { intros H. split; [simpl; lia|]. split; [unfold RuneError; lia|].
    right. split; [exact H|]. simpl. repeat constructor. exact H. }
  cbv zeta. unfold DecodeRune.
  destruct (Z.ltb_spec (byte_to_Z p0) 0x80) as [Hascii|Hhigh].
  { cbn [fst snd]. split; [simpl; lia|]. split; [lia|]. left. auto. }
  destruct ((byte_to_Z p0 <? 0xC2) || (0xF4 <? byte_to_Z p0)) eqn:Hlead;
    [cbn [fst snd]; now apply Hone|].
  apply orb_false_iff in Hlead as [Hc2 Hf4].
  apply Z.ltb_ge in Hc2, Hf4.
  set (x := byte_to_Z p0) in *.
  set (sz := if x <? 0xE0 then 2%nat else if x <? 0xF0 then 3%nat else 4%nat).
  set (lo := if x =? 0xE0 then 0xA0 else if x =? 0xF0 then 0x90 else 0x80).
  set (hi := if x =? 0xED then 0x9F else if x =? 0xF4 then 0x8F else 0xBF).
  assert (Hlo : 0x80 <= lo).
  { unfold lo. destruct (x =? 0xE0); [lia|]. destruct (x =? 0xF0); lia. }
  destruct (Nat.ltb_spec (length (p0 :: tl)) sz) as [Hshort|Hlong];
    [cbn [fst snd]; now apply Hone|].
  destruct (in_range lo hi (nth 1 (p0 :: tl) x00)) eqn:Hb1;
    [|cbn [negb fst snd]; now apply Hone].
  cbn [negb].
  assert (H1 : 0x80 <= byte_to_Z (nth 1 (p0 :: tl) x00)).
  { unfold in_range in Hb1. apply andb_true_iff in Hb1 as [Hb1 _].
    apply Z.leb_le in Hb1. lia. }
  assert (Hcb : forall b, 0 <= cont_bits b < 2 ^ 21).
  { intros b. pose proof (cont_bits_lt_21 b 0 ltac:(lia)) as H.
    now rewrite Z.shiftl_0_r in H. }
  destruct (Nat.eqb_spec sz 2) as [Hsz2|Hsz2].
  { cbn [fst snd]. rewrite Hsz2 in *.
    split; [simpl in *; lia|]. split.
    - apply lor_lt_pow2; [lia | | apply Hcb].
      apply (shiftl_lt_21 _ 5 6); try lia. apply (land_mask_range x 5). lia.
    - right. split; [exact Hhigh|].
      destruct tl as [|b1 tl]; [simpl in Hlong; lia|].
      simpl in *. repeat constructor; assumption. }
  destruct (in_range 0x80 0xBF (nth 2 (p0 :: tl) x00)) eqn:Hb2;
    [|cbn [negb fst snd]; now apply Hone].
  cbn [negb].
  assert (H2 : 0x80 <= byte_to_Z (nth 2 (p0 :: tl) x00)).
  { unfold in_range in Hb2. apply andb_true_iff in Hb2 as [Hb2 _].
    now apply Z.leb_le in Hb2. }
  destruct (Nat.eqb_spec sz 3) as [Hsz3|Hsz3].
  { cbn [fst snd]. rewrite Hsz3 in *.
    split; [simpl in *; lia|]. split.
    - apply lor_lt_pow2; [lia | | apply Hcb].
      apply lor_lt_pow2; [lia | | apply cont_bits_lt_21; lia].
      apply (shiftl_lt_21 _ 4 12); try lia. apply (land_mask_range x 4). lia.
    - right. split; [exact Hhigh|].
      destruct tl as [|b1 [|b2 tl]]; try (simpl in Hlong; lia).
      simpl in *. repeat constructor; assumption. }
  assert (Hsz4 : sz = 4%nat).
  { unfold sz in *. destruct (x <? 0xE0); [contradiction|].
    destruct (x <? 0xF0); [contradiction | reflexivity]. }
  destruct (in_range 0x80 0xBF (nth 3 (p0 :: tl) x00)) eqn:Hb3;
    [|cbn [negb fst snd]; now apply Hone].
  cbn [negb fst snd].
  assert (H3 : 0x80 <= byte_to_Z (nth 3 (p0 :: tl) x00)).
  { unfold in_range in Hb3. apply andb_true_iff in Hb3 as [Hb3 _].
    now apply Z.leb_le in Hb3. }
  rewrite Hsz4 in *.
  split; [simpl in *; lia|]. split.
  - apply lor_lt_pow2; [lia | | apply Hcb].
    apply lor_lt_pow2; [lia | | apply cont_bits_lt_21; lia].
    apply lor_lt_pow2; [lia | | apply cont_bits_lt_21; lia].
    apply (shiftl_lt_21 _ 3 18); try lia. apply (land_mask_range x 3). lia.
  - right. split; [exact Hhigh|].
    destruct tl as [|b1 [|b2 [|b3 tl]]]; try (simpl in Hlong; lia).
    simpl in *. repeat constructor; assumption.
Qed.

Lemma runes_from_range (fuel : nat) (s : list byte) (r : Z) :
  In r (runes_from fuel s) -> 0 <= r < 2 ^ 21.
Proof.
  revert s. induction fuel as [|fuel IH]; intros s Hin; [contradiction|].
  destruct s as [|p0 tl]; [contradiction|].
  cbn [runes_from] in Hin.
  pose proof (DecodeRune_spec p0 tl) as (_ & Hr & _).
  destruct (DecodeRune (p0 :: tl)) as [r0 size]. cbn [fst snd] in *.
  destruct Hin as [<- | Hin]; [exact Hr | eauto].
Qed.

(** An ASCII byte of a string is one of its runes: no sequence of several
    bytes swallows it. *)
Lemma ascii_byte_in_runes (s : list byte) (b : byte) :
  In b s -> byte_to_Z b < 0x80 -> In (byte_to_Z b) (runes s).
Proof.
  unfold runes. remember (length s) as fuel eqn:Hfuel.
  assert (Hle : (length s <= fuel)%nat) by lia. clear Hfuel.
  revert s Hle. induction fuel as [|fuel IH]; intros s Hle Hin Hb.
  - destruct s; [contradiction | simpl in Hle; lia].
  - destruct s as [|p0 tl]; [contradiction|].
    cbn [runes_from].
    pose proof (DecodeRune_spec p0 tl) as (Hsize & _ & Hcase).
    destruct (DecodeRune (p0 :: tl)) as [r0 size]. cbn [fst snd] in *.
    assert (Hrest : In b (skipn size (p0 :: tl)) -> In (byte_to_Z b) (r0 :: runes_from fuel (skipn size (p0 :: tl)))).
    { intros H. right. apply IH; [|exact H | exact Hb].
      rewrite length_skipn. simpl in *. lia. }
    destruct Hcase as [(Hascii & -> & ->) | (Hhigh & Hall)].
    + destruct Hin as [-> | Hin]; [now left|]. apply Hrest. exact Hin.
    + apply Hrest.
      rewrite <- (firstn_skipn size (p0 :: tl)) in Hin.
      apply in_app_or in Hin as [Hin | Hin]; [|exact Hin].
      rewrite List.Forall_forall in Hall. specialize (Hall b Hin). lia.
Qed.

(** The runes of ASCII text are its bytes. *)
Lemma runes_ascii (s : list byte) :
  Forall (fun b => byte_to_Z b < 0x80) s -> runes s = map byte_to_Z s.
Proof.
  unfold runes. remember (length s) as fuel eqn:Hfuel.
  assert (Hle : (length s <= fuel)%nat) by lia. clear Hfuel.
  revert s Hle. induction fuel as [|fuel IH]; intros s Hle Hall.
  - destruct s; [reflexivity | simpl in Hle; lia].
  - destruct s as [|p0 tl]; [reflexivity|].
    inversion Hall as [|? ? Hp0 Htl]; subst.
    cbn [runes_from]. unfold DecodeRune.
    destruct (Z.ltb_spec (byte_to_Z p0) 0x80); [|lia].
    cbn [skipn map]. f_equal. apply IH; [simpl in Hle; lia | exact Htl].
Qed.

Lemma lor_high_bit (c y : Z) :
  Z.testbit c 7 = true -> 0x80 <= byte_to_Z (byte_of_Z (Z.lor c y)).
Proof.
  intros Hc. apply high_bit_byte. rewrite Z.lor_spec, Hc. reflexivity.
Qed.

(** The encoding of a rune is the rune itself when it is ASCII, and holds
    no ASCII byte otherwise. *)
Lemma EncodeRune_bytes (r : Z) :
  0 <= r < 2 ^ 21 ->
  (r <= 0x7F /\ EncodeRune r = [byte_of_Z r])
  \/ (0x80 <= r /\ Forall (fun b => 0x80 <= byte_to_Z b) (EncodeRune r)).
Proof.
  intros Hr. unfold EncodeRune.
  assert (Hu : u32 r = r).
  { unfold u32. apply Z.mod_small. split; [lia|].
    apply Z.lt_le_trans with (2 ^ 21); [lia|]. apply Z.pow_le_mono_r; lia. }
  rewrite Hu.
  destruct (Z.leb_spec r 0x7F); [left; auto|]. right. split; [lia|].
  destruct (r <=? 0x7FF).
  { repeat constructor; apply lor_high_bit; reflexivity. }
  match goal with
  | |- context [if u32 ?r' <=? 0xFFFF then _ else _] =>
      destruct (u32 r' <=? 0xFFFF)
  end; repeat constructor; apply lor_high_bit; reflexivity.
Qed.

Lemma Map_noSpace_byte (s : list byte) (b : byte) :
  In b (strings_Map noSpace s) ->
  byte_to_Z b <> 0x20 /\ byte_to_Z b <> 0x09 /\ byte_to_Z b <> 0x0A
  /\ byte_to_Z b <> 0x0B /\ byte_to_Z b <> 0x0C /\ byte_to_Z b <> 0x0D.
Proof.
  unfold strings_Map. intros Hin.
  apply in_flat_map in Hin as (c & Hc & Hb).
  unfold runes in Hc. apply runes_from_range in Hc.
  unfold noSpace in Hb.
  destruct (IsSpace c) eqn:Hsp; [contradiction|].
  destruct (Z.ltb_spec c 0); [lia|].
  destruct (EncodeRune_bytes c Hc) as [[Hascii E] | [_ Hall]].
  - rewrite E in Hb. destruct Hb as [<- | []].
    rewrite byte_to_of_Z, Z.mod_small by lia.
    unfold IsSpace in Hsp.
    assert (Hu : u32 c = c) by (unfold u32; apply Z.mod_small; lia).
    rewrite Hu in Hsp. destruct (Z.leb_spec c 0xFF); [|lia].
    repeat (apply orb_false_iff in Hsp as [Hsp ?]).
    repeat match goal with
           | H : (_ =? _) = false |- _ => apply Z.eqb_neq in H
           end.
    repeat split; assumption.
  - rewrite List.Forall_forall in Hall. specialize (Hall b Hb). lia.
Qed.

(** X9: the text [add] keeps of what was typed, [strings.Map(noSpace, text)],
    holds no ASCII white space: no space, tab, line feed, vertical tab, form
    feed or carriage return, whatever bytes were typed. *)
Theorem Map_noSpace_no_ascii_space (s : list byte) :
  Forall (fun b =>
            byte_to_Z b <> 0x20 /\ byte_to_Z b <> 0x09 /\ byte_to_Z b <> 0x0A
            /\ byte_to_Z b <> 0x0B /\ byte_to_Z b <> 0x0C /\ byte_to_Z b <> 0x0D)
    (strings_Map noSpace s).
Proof.
  apply List.Forall_forall. intros b Hb. exact (Map_noSpace_byte s b Hb).
Qed.

(** X10: on ASCII text, [strings.Map(noSpace, text)] removes the white
    space and keeps every other byte, in order. *)
Theorem Map_noSpace_ascii (s : list byte) :
  Forall (fun b => byte_to_Z b < 0x80) s ->
  strings_Map noSpace s
  = List.filter (fun b => negb (IsSpace (byte_to_Z b))) s.
Proof.
  intros Hall. unfold strings_Map. rewrite (runes_ascii s Hall).
  induction Hall as [|b s Hb _ IH]; [reflexivity|].
  cbn [map flat_map List.filter]. rewrite IH.
  unfold noSpace. destruct (IsSpace (byte_to_Z b)); cbn [negb].
  - reflexivity.
  - pose proof (byte_to_Z_range b) as Hr.
    destruct (Z.ltb_spec (byte_to_Z b) 0); [lia|].
    unfold EncodeRune.
    assert (Hu : u32 (byte_to_Z b) = byte_to_Z b)
      by (unfold u32; apply Z.mod_small; lia).
    rewrite Hu. destruct (Z.leb_spec (byte_to_Z b) 0x7F); [|lia].
    cbn [app]. f_equal. f_equal. apply byte_to_Z_inj.
    rewrite byte_to_of_Z. apply Z.mod_small. lia.
Qed.

(** X10 on a secret typed with spaces and a tab. *)
Lemma Map_noSpace_ascii_witness :
  strings_Map noSpace (bytes_of "nzxx iidb	ebvw k6jb
")
  = bytes_of "nzxxiidbebvwk6jb".
Proof.
  rewrite (Map_noSpace_ascii (bytes_of "nzxx iidb	ebvw k6jb
")).
  - reflexivity.
  - repeat constructor.
Defined.

(** ** [add] *)

(** X11: the padding [-len(text)&7] brings the text to a multiple of 8
    characters by adding fewer than 8 [=] signs, and none when the length is
    a multiple of 8 already. *)
Theorem pad8_multiple_of_8 (text : list byte) :
  exists k,
    pad8 text = text ++ repeat x3d k
    /\ (k < 8)%nat
    /\ (length (pad8 text) mod 8 = 0)%nat
    /\ ((length text mod 8 = 0)%nat -> k = 0%nat).
Proof.
  unfold pad8. set (n := length text).
  exists (Z.to_nat (Z.land (- Z.of_nat n) 7)).
  change 7 with (Z.ones 3). rewrite Z.land_ones by lia.
  change (2 ^ 3) with 8.
  pose proof (Z.mod_pos_bound (- Z.of_nat n) 8 ltac:(lia)) as Hk.
  assert (Hsum : (Z.of_nat n + (- Z.of_nat n) mod 8) mod 8 = 0).
  { rewrite Zplus_mod_idemp_r. replace (Z.of_nat n + - Z.of_nat n) with 0 by lia.
    reflexivity. }
  split; [reflexivity|]. split; [lia|]. split.
  - rewrite length_app, repeat_length. fold n.
    apply Nat2Z.inj. rewrite Nat2Z.inj_mod, Nat2Z.inj_add, Z2Nat.id by lia.
    exact Hsum.
  - intros Hn. apply (f_equal Z.of_nat) in Hn. rewrite Nat2Z.inj_mod in Hn.
    change (Z.of_nat 8) with 8 in Hn. change (Z.of_nat 0) with 0 in Hn.
    assert (E : (- Z.of_nat n) mod 8 = 0).
    { apply Z.mod_divide; [lia|]. apply Z.divide_opp_r.
      apply Z.mod_divide; [lia | exact Hn]. }
    rewrite E. reflexivity.
Qed.

Section CommandProperties.

Variable ToUpper : list byte -> list byte.
Variable DecodeString : list byte -> option (list byte).

Abbreviation decodeKey'' := (decodeKey ToUpper DecodeString).
Abbreviation read_line'' := (read_line ToUpper DecodeString).
Abbreviation index_from'' := (index_from ToUpper DecodeString).
Abbreviation readKeychain'' := (readKeychain ToUpper DecodeString).
Abbreviation Keychain_add'' := (Keychain_add ToUpper DecodeString).
Abbreviation main'' := (main ToUpper DecodeString).

(** What a successful [add] did: it read a line, kept its text without
    white space and padded, found that it decodes, and put one line at the
    end of the file. *)
Lemma add_Done_inv (c : Keychain) (fl : Flags) (name input : list byte)
    (p p' : Proc) :
  Keychain_add'' c fl name input p = Done p' ->
  exists typed r old,
    ReadString newline input = Some typed
    /\ decodeKey'' (pad8 (strings_Map noSpace typed)) = Some r
    /\ (flag7 fl && flag8 fl = false)
    /\ (fs (pw p) !! file c = Some (File old)
        \/ fs (pw p) !! file c = None /\ old = [])
    /\ p' = set_pw
              (set_fs (<[file c :=
                           File (old ++ add_line (flagHotp fl)
                                          (if flag7 fl then 7
                                           else if flag8 fl then 8 else 6)
                                          name (pad8 (strings_Map noSpace typed)))]>
                         (fs (pw p))) (pw p))
              (eprint (bytes_of "2fa key for " ++ name ++ bytes_of ": ") p).
Proof.
  unfold Keychain_add. intros H.
  destruct (flag7 fl && flag8 fl) eqn:H78; [discriminate|].
  destruct (ReadString newline input) as [typed|] eqn:Hread; [|discriminate].
  destruct (decodeKey'' (pad8 (strings_Map noSpace typed))) as [r|] eqn:Hdec;
    [|discriminate].
  cbn [pw eprint] in H.
  destruct (fs (pw p) !! file c) as [[old|]|] eqn:Hfs; try discriminate.
  - injection H as <-. exists typed, r, old. auto 10.
  - injection H as <-. exists typed, r, []. auto 10.
Qed.

(** X12: [add] only ever appends: when it returns, the file holds what it
    held (nothing if it was missing) followed by one new line, and the
    prompt went to standard error; when it stops with an error, whichever
    it is, the file system is as it was. *)
Theorem add_only_appends (c : Keychain) (fl : Flags) (name input : list byte)
    (p : Proc) :
  match Keychain_add'' c fl name input p with
  | Done p' =>
      exists old line,
        (fs (pw p) !! file c = Some (File old)
         \/ fs (pw p) !! file c = None /\ old = [])
        /\ fs (pw p') = <[file c := File (old ++ line)]> (fs (pw p))
        /\ last line = Some newline
        /\ perr p' = perr p ++ [bytes_of "2fa key for " ++ name ++ bytes_of ": "]
        /\ stdout (pw p') = stdout (pw p) /\ stderr (pw p') = stderr (pw p)
        /\ pclip p' = pclip p
  | Stopped s p' =>
      fs (pw p') = fs (pw p)
      /\ s <> StopUsage /\ s <> StopName /\ s <> StopPanic
  end.
Proof.
  destruct (Keychain_add'' c fl name input p) as [p'|s p'] eqn:H.
  - apply add_Done_inv in H as (typed & r & old & _ & _ & _ & Hold & ->).
    eexists old, _. split; [exact Hold|]. split; [reflexivity|].
    split; [|repeat split].
    unfold add_line. apply last_snoc.
  - unfold Keychain_add in H.
    destruct (flag7 fl && flag8 fl); [injection H as <- <-; repeat split; discriminate|].
    destruct (ReadString newline input);
      [|injection H as <- <-; repeat split; discriminate].
    destruct (decodeKey'' _);
      [|injection H as <- <-; repeat split; discriminate].
    cbn [pw eprint] in H.
    destruct (fs (pw p) !! file c) as [[old|]|]; try discriminate.
    injection H as <- <-. repeat split; discriminate.
Qed.

(** *** Loading what [add] wrote *)

(** After a text that is empty or ends in a line terminator, the lines of
    what follows start afresh. *)
Lemma SplitAfter_app_complete (sep : byte) (old x : list byte) :
  old = [] \/ last old = Some sep ->
  exists L, SplitAfter sep old = L ++ [[]]
            /\ SplitAfter sep (old ++ x) = L ++ SplitAfter sep x.
Proof.
  induction old as [|b old IH]; intros Hold.
  - exists []. split; reflexivity.
  - destruct Hold as [Hold | Hold]; [discriminate|].
    destruct old as [|b' old].
    + simpl in Hold. injection Hold as ->. exists [[sep]]. simpl.
      destruct (decide (sep = sep)); [|contradiction]. split; reflexivity.
    + assert (Hlast : last (b' :: old) = Some sep) by exact Hold.
      destruct (IH (or_intror Hlast)) as (L & HL & HLx).
      destruct L as [|f L].
      { exfalso. pose proof (concat_SplitAfter sep (b' :: old)) as E.
        rewrite HL in E. discriminate. }
      change ((b :: b' :: old) ++ x) with (b :: ((b' :: old) ++ x)).
      cbn [SplitAfter]. cbn [SplitAfter] in HL, HLx. rewrite HL, HLx.
      destruct (decide (b = sep)) as [->|Hb].
      * exists ([sep] :: f :: L). split; reflexivity.
      * exists ((b :: f) :: L). split; reflexivity.
Qed.

Lemma index_from_app (l1 l2 : list (list byte)) (off : Z)
    (ks : gmap (list byte) Key) :
  index_from'' (l1 ++ l2) off ks
  = index_from'' l2 (off + Z.of_nat (length (concat l1))) (index_from'' l1 off ks).
Proof.
  revert off ks. induction l1 as [|l l1 IH]; intros off ks.
  - simpl. now rewrite Z.add_0_r.
  - simpl. rewrite IH. f_equal. rewrite length_app. lia.
Qed.

(** The loop body on a line of three fields that pass the checks. *)
Lemma read_line_three (off : Z) (line f0 f2 r : list byte) (d : byte) :
  fields line = [f0; [d]; f2] ->
  0x36 <= byte_to_Z d <= 0x38 ->
  decodeKey'' f2 = Some r ->
  read_line'' off line
  = Entry f0 {| raw := r; digits := (byte_to_Z d - 0x30) mod 256; offset := 0 |}.
Proof.
  intros Hf Hd Hdec. unfold read_line. fold (fields line). rewrite Hf.
  cbn [length nth Nat.eqb Nat.leb andb].
  destruct (Z.leb_spec 0x36 (byte_to_Z d)); [|lia].
  destruct (Z.leb_spec (byte_to_Z d) 0x38); [|lia].
  cbn [andb]. rewrite Hdec. reflexivity.
Qed.

(** A name that passes the check of [main] holds no space and no line
    terminator. *)
Lemma name_without_space (name : list byte) :
  has_rune IsSpace name = false -> ~ In space name /\ ~ In newline name.
Proof.
  intros H. unfold has_rune in H.
  assert (Hno : forall b, byte_to_Z b < 0x80 -> IsSpace (byte_to_Z b) = true ->
                          ~ In b name).
  { intros b Hb Hsp Hin.
    assert (Hex : existsb IsSpace (runes name) = true).
    { apply existsb_exists. exists (byte_to_Z b).
      split; [now apply ascii_byte_in_runes | exact Hsp]. }
    congruence. }
  split; apply Hno; reflexivity.
Qed.

Lemma pad8_without_space (s : list byte) :
  ~ In space (pad8 (strings_Map noSpace s))
  /\ ~ In newline (pad8 (strings_Map noSpace s)).
Proof.
  unfold pad8. split; intros Hin; apply in_app_or in Hin as [Hin | Hin].
  - apply Map_noSpace_byte in Hin as (H & _). now apply H.
  - apply repeat_spec in Hin. discriminate.
  - apply Map_noSpace_byte in Hin as (_ & _ & H & _). now apply H.
  - apply repeat_spec in Hin. discriminate.
Qed.

(** What [add] wrote, loaded. *)
Lemma add_load (c : Keychain) (fl : Flags) (name input : list byte)
    (p p' : Proc) (old : list byte) :
  Keychain_add'' c fl name input p = Done p' ->
  has_rune IsSpace name = false ->
  (fs (pw p) !! file c = Some (File old)
   \/ fs (pw p) !! file c = None /\ old = []) ->
  (old = [] \/ last old = Some newline) ->
  exists c' w' k typed,
    readKeychain'' (file c) (pw p') = Ok (c', w')
    /\ keys c' = <[name := k]> (index_from'' (SplitAfter newline old) 0 ∅)
    /\ digits k = (if flag7 fl then 7 else if flag8 fl then 8 else 6)
    /\ ReadString newline input = Some typed
    /\ decodeKey'' (pad8 (strings_Map noSpace typed)) = Some (raw k)
    /\ (flagHotp fl = false -> offset k = 0)
    /\ (flagHotp fl = true ->
        offset k <> 0
        /\ slice (data c') (offset k) (offset k + counterLen)
           = Ok (repeat x30 20)).
Proof.
  intros Hadd Hname Hold Hend.
  apply add_Done_inv in Hadd
    as (typed & r & old' & Hread & Hdec & H78 & Hold' & ->).
  assert (old' = old) as ->.
  { destruct Hold as [H1 | [H1 ->]]; destruct Hold' as [H2 | [H2 ->]];
      congruence. }
  clear Hold'.
  destruct (pad8_without_space typed) as [Htsp Htnl].
  remember (pad8 (strings_Map noSpace typed)) as text eqn:Htext.
  set (size := if flag7 fl then 7 else if flag8 fl then 8 else 6).
  destruct (name_without_space name Hname) as [Hnsp Hnnl].
  (* the digit written for the size *)
  assert (Hsize : exists d, decimal size = [d] /\ 0x36 <= byte_to_Z d <= 0x38
                            /\ (byte_to_Z d - 0x30) mod 256 = size).
  { unfold size. destruct (flag7 fl); [|destruct (flag8 fl)].
    - exists x37. repeat split; vm_compute; congruence.
    - exists x38. repeat split; vm_compute; congruence.
    - exists x36. repeat split; vm_compute; congruence. }
  destruct Hsize as (d & Hdec10 & Hdrange & Hdval).
  assert (Hdsp : ~ In space [d] /\ ~ In newline [d]).
  { split; intros [E | []]; subst d; vm_compute in Hdrange;
      destruct Hdrange; congruence. }
  destruct Hdsp as [Hdsp Hdnl].
  (* the lines of the new file *)
  set (line := add_line (flagHotp fl) size name text).
  destruct (SplitAfter_app_complete newline old line Hend) as (L & HL & HLx).
  assert (Hconcat : length (concat L) = length old).
  { pose proof (concat_SplitAfter newline old) as E.
    rewrite HL, concat_app in E. simpl in E. rewrite app_nil_r in E.
    now rewrite E. }
  assert (Hidx_old : index_from'' (SplitAfter newline old) 0 ∅ = index_from'' L 0 ∅).
  { rewrite HL, index_from_app. reflexivity. }
  (* the new line on its own *)
  assert (Hbody : exists body, line = body ++ [newline] /\ ~ In newline body
            /\ body = if flagHotp fl
                      then Join space [name; [d]; text; repeat x30 20]
                      else Join space [name; [d]; text]).
  { unfold line, add_line. rewrite Hdec10.
    destruct (flagHotp fl); eexists; (split; [reflexivity|]); split.
    - intros Hin. repeat (apply in_app_or in Hin as [Hin | Hin]);
        try (now apply Hnnl); try (now apply Htnl); try (now apply Hdnl);
        try (destruct Hin as [? | []]; discriminate).
      apply repeat_spec in Hin. discriminate.
    - cbn [Join]. repeat (rewrite <- ?app_assoc; cbn [app]). reflexivity.
    - intros Hin. repeat (apply in_app_or in Hin as [Hin | Hin]);
        try (now apply Hnnl); try (now apply Htnl); try (now apply Hdnl);
        try (destruct Hin as [? | []]; discriminate).
    - cbn [Join]. repeat (rewrite <- ?app_assoc; cbn [app]). reflexivity. }
  destruct Hbody as (body & Hline & Hbnl & Hbody).
  assert (Hsplit_line : SplitAfter newline line = [line; []]).
  { rewrite Hline.
    change (body ++ [newline]) with (body ++ newline :: []).
    rewrite SplitAfter_app_sep by (now rewrite list_elem_of_In). reflexivity. }
  assert (Hfields : fields line
                    = if flagHotp fl then [name; [d]; text; repeat x30 20]
                      else [name; [d]; text]).
  { unfold fields. rewrite Hline, TrimSuffix_snoc, Hbody.
    destruct (flagHotp fl); apply Split_Join; try discriminate;
      repeat constructor; rewrite list_elem_of_In; try assumption.
    intros Hin. apply repeat_spec in Hin. discriminate. }
  assert (Hends : ends_with newline line = true).
  { rewrite Hline, ends_with_snoc. now apply bool_decide_eq_true_2. }
  (* the record it enters *)
  set (off := 0 + Z.of_nat (length (concat L)) + Z.of_nat (length line)).
  set (k := {| raw := r; digits := size;
               offset := if flagHotp fl then off - counterLen - 1 else 0 |}).
  assert (Hentry : read_line'' off line = Entry name k).
  { unfold k. destruct (flagHotp fl).
    - rewrite (read_line_four ToUpper DecodeString off line name text
                 (repeat x30 20) r d 0 Hfields Hdrange Hdec eq_refl eq_refl).
      now rewrite Hends, Hdval.
    - rewrite (read_line_three off line name text r d Hfields Hdrange Hdec).
      now rewrite Hdval. }
  assert (Hidx_new : index_from'' (SplitAfter newline (old ++ line)) 0 ∅
                     = <[name := k]> (index_from'' L 0 ∅)).
  { rewrite HLx, Hsplit_line, index_from_app. cbn [index_from].
    fold off. rewrite Hentry. reflexivity. }
  (* the load *)
  assert (Hfs' : fs (set_fs (<[file c := File (old ++ line)]>
                               (fs (pw (eprint (bytes_of "2fa key for " ++ name
                                                  ++ bytes_of ": ") p))))
                       (pw (eprint (bytes_of "2fa key for " ++ name
                                      ++ bytes_of ": ") p)))
                 !! file c = Some (File (old ++ line)))
    by apply lookup_insert_eq.
  eexists _, _, k, typed. split.
  { cbn [pw set_pw]. apply (readKeychain_spec ToUpper DecodeString _ _ _ Hfs'). }
  cbn [keys data]. split; [now rewrite Hidx_new, Hidx_old|].
  split; [reflexivity|]. split; [exact Hread|]. split; [rewrite <- Htext; exact Hdec|].
  split.
  - intros Hh. unfold k. now rewrite Hh.
  - intros Hh. unfold k. cbn [offset]. rewrite Hh in *.
    assert (Hlen_line : length line
              = (length name + length text + 4 + 20 + 1)%nat).
    { rewrite Hline, Hbody. cbn [Join].
      repeat (rewrite length_app || cbn [length]). rewrite repeat_length. lia. }
    assert (Hoffv : off - counterLen - 1
                    = Z.of_nat (length (old ++ (name ++ space :: [d] ++ space :: text ++ [space])))).
    { unfold off, counterLen. rewrite Hconcat, Hlen_line.
      repeat (rewrite length_app || cbn [length app]). lia. }
    rewrite Hoffv.
    assert (Hdata : old ++ line
              = (old ++ (name ++ space :: [d] ++ space :: text ++ [space]))
                  ++ repeat x30 20 ++ [newline]).
    { rewrite Hline, Hbody. cbn [Join].
      repeat (rewrite <- ?app_assoc; cbn [app]). reflexivity. }
    split.
    + repeat (rewrite length_app || cbn [length app]). lia.
    + rewrite slice_inside.
      * rewrite Nat2Z.id, Hdata, drop_app_length.
        change 20%nat with (length (repeat x30 20)) at 1.
        now rewrite take_app_length.
      * lia.
      * rewrite Hdata. repeat (rewrite length_app || cbn [length app]).
        rewrite repeat_length. unfold counterLen. lia.
Qed.

(** *** What [add] reads *)

Lemma ReadString_first_line (delim : byte) (l rest : list byte) :
  ~ In delim l -> ReadString delim (l ++ delim :: rest) = Some (l ++ [delim]).
Proof.
  induction l as [|b l IH]; intros Hl; cbn [app ReadString].
  - destruct (decide (delim = delim)); [reflexivity | contradiction].
  - destruct (decide (b = delim)) as [->|_]; [exfalso; apply Hl; now left|].
    rewrite IH; [reflexivity|]. intros Hin. apply Hl. now right.
Qed.

Lemma ReadString_no_delim (delim : byte) (l : list byte) :
  ~ In delim l -> ReadString delim l = None.
Proof.
  induction l as [|b l IH]; intros Hl; cbn [ReadString]; [reflexivity|].
  destruct (decide (b = delim)) as [->|_]; [exfalso; apply Hl; now left|].
  rewrite IH; [reflexivity|]. intros Hin. apply Hl. now right.
Qed.

(** X20: [add] takes the key from the first line of standard input and
    nothing after it changes what it does; input that ends before a line
    terminator stops it with "error reading key", after the prompt and
    before any file is touched. *)
Theorem add_reads_one_line (c : Keychain) (fl : Flags)
    (name l rest : list byte) (p : Proc) :
  ~ In newline l ->
  Keychain_add'' c fl name (l ++ newline :: rest) p
  = Keychain_add'' c fl name (l ++ [newline]) p
  /\ (flag7 fl && flag8 fl = false ->
      Keychain_add'' c fl name l p
      = Stopped StopReadingKey
          (eprint (bytes_of "2fa key for " ++ name ++ bytes_of ": ") p)).
Proof.
  intros Hl. unfold Keychain_add. split.
  - rewrite (ReadString_first_line newline l rest Hl).
    rewrite (ReadString_first_line newline l [] Hl). reflexivity.
  - intros ->. now rewrite (ReadString_no_delim newline l Hl).
Qed.

(** X13: what [add] wrote loads. When the file was missing, empty or ended
    in a line terminator, and the name passed the check of [main], loading
    the file after a successful [add] gives the index of the file as it
    was, with the new name mapped to a record of the digits asked for and
    the key typed; the record is time-based without [-hotp], and with
    [-hotp] it is counter-based with a counter field of twenty zeros. *)
Theorem add_then_load (c : Keychain) (fl : Flags) (name input : list byte)
    (p p' : Proc) (old : list byte) :
  Keychain_add'' c fl name input p = Done p' ->
  has_rune IsSpace name = false ->
  (fs (pw p) !! file c = Some (File old)
   \/ fs (pw p) !! file c = None /\ old = []) ->
  (old = [] \/ last old = Some newline) ->
  exists c' w' k typed,
    readKeychain'' (file c) (pw p') = Ok (c', w')
    /\ keys c' = <[name := k]> (index_from'' (SplitAfter newline old) 0 ∅)
    /\ digits k = (if flag7 fl then 7 else if flag8 fl then 8 else 6)
    /\ ReadString newline input = Some typed
    /\ decodeKey'' (pad8 (strings_Map noSpace typed)) = Some (raw k)
    /\ (flagHotp fl = false -> offset k = 0)
    /\ (flagHotp fl = true ->
        offset k <> 0
        /\ slice (data c') (offset k) (offset k + counterLen)
           = Ok (repeat x30 20)).
Proof. exact (add_load c fl name input p p' old). Qed.

(** X14: the first code of a key just added. Under the conditions of X13,
    a run for the new name prints, for a counter-based key, the code of
    counter 1 and, for a time-based key, the code of the time the clock
    gives, with the digits asked for and the key typed. *)
Theorem first_code_after_add (c : Keychain) (fl : Flags) (name input : list byte)
    (p p' : Proc) (old : list byte) :
  Keychain_add'' c fl name input p = Done p' ->
  has_rune IsSpace name = false ->
  (fs (pw p) !! file c = Some (File old)
   \/ fs (pw p) !! file c = None /\ old = []) ->
  (old = [] \/ last old = Some newline) ->
  exists typed r w1,
    ReadString newline input = Some typed
    /\ decodeKey'' (pad8 (strings_Map noSpace typed)) = Some r
    /\ let size := if flag7 fl then 7 else if flag8 fl then 8 else 6 in
       run_code ToUpper DecodeString (file c) name (pw p')
       = Ok (Sprintf_0d size
               (if flagHotp fl then hotp r 1 size
                else totp r (clock (pw p) (ticks (pw p))) size),
             w1).
Proof.
  intros Hadd Hname Hold Hend.
  destruct (add_load c fl name input p p' old Hadd Hname Hold Hend)
    as (c' & w' & k & typed & Hread & Hkeys & Hdig & Htyped & Hdec & Htotp & Hhotp).
  assert (Hk : keys c' !! name = Some k) by (rewrite Hkeys; apply lookup_insert_eq).
  destruct (readKeychain_inv ToUpper DecodeString _ _ _ _ _ _ Hread Hk)
    as (content & Hfs & -> & ->).
  cbn [keys data] in *.
  apply add_Done_inv in Hadd as (typed0 & r0 & old0 & _ & _ & _ & _ & ->).
  destruct (flagHotp fl);
    exists typed, (raw k); eexists; (split; [exact Htyped|]);
    (split; [exact Hdec|]); cbv zeta; unfold run_code;
    rewrite (readKeychain_spec ToUpper DecodeString _ _ _ Hfs);
    cbn [mbind result_bind].
  - destruct (Hhotp eq_refl) as [Hoff Hslice].
    destruct (loaded_offset_range ToUpper DecodeString _ _ _ Hk Hoff) as [Hpos Hin].
    rewrite slice_inside in Hslice by lia. injection Hslice as Hfield.
    destruct (code_loaded ToUpper DecodeString (file c) content content name k
                (logged (malformed_from ToUpper DecodeString (file c) 1
                           (SplitAfter newline content)) _)
                Hfs eq_refl Hk Hoff) as (n & Hn & _ & _ & Hcode).
    rewrite Hfield in Hn. vm_compute in Hn. injection Hn as <-.
    change (u64 (0 + 1)) with 1 in Hcode. rewrite Hdig in Hcode. exact Hcode.
  - unfold code. cbn [keys]. rewrite Hk, (Htotp eq_refl).
    cbn [Z.eqb negb time_Now]. rewrite Hdig. reflexivity.
Qed.

(** *** The command line *)

Lemma readKeychain_cases (path : string) (w : World) :
  fs w !! path = Some NoAccess /\ readKeychain'' path w = Fatal ReadError
  \/ exists c w',
       readKeychain'' path w = Ok (c, w')
       /\ file c = path /\ fs w' = fs w /\ stdout w' = stdout w.
Proof.
  destruct (fs w !! path) as [[content|]|] eqn:Hfs.
  - right. rewrite (readKeychain_spec _ _ _ _ _ Hfs). eauto 10.
  - left. unfold readKeychain. rewrite Hfs. auto.
  - right. unfold readKeychain. rewrite Hfs. eauto 10.
Qed.

(** On a keychain just loaded, [showAll] runs to its end and writes
    nothing. *)
Lemma showAll_loaded_ok (path : string) (w0 w : World) (c : Keychain) :
  readKeychain'' path w0 = Ok (c, w) ->
  exists w', showAll c w = Ok w' /\ fs w' = fs w.
Proof.
  intros Hread. unfold showAll.
  destruct (showAll_rows_spec c (max_digits (map_to_list (keys c)) 0)
              (sort_Strings (fst <$> map_to_list (keys c))) w)
    as (w' & rows & Hrun & Hfs & _).
  - intros name Hin.
    destruct (sort_Strings_spec (fst <$> map_to_list (keys c))) as [_ Hperm].
    rewrite Hperm in Hin. apply list_elem_of_fmap in Hin as ([n k] & -> & Hin).
    apply elem_of_map_to_list in Hin. exists k. split; [exact Hin|].
    pose proof (readKeychain_digits ToUpper DecodeString _ _ _ _ _ _ Hread Hin).
    lia.
  - eauto.
Qed.

Lemma print_names_fs (names : list (list byte)) (w : World) :
  fs (print_names names w) = fs w.
Proof.
  revert w. induction names as [|n names IH]; intros w; [reflexivity|].
  unfold print_names in *. cbn [foldl]. now rewrite IH.
Qed.

(** X15: a run with [-list], and a run with neither arguments nor [-add],
    only read: however they end, the file system and the clipboard are as
    they were, nothing is asked on standard input, and they stop early only
    for a keychain that cannot be read or with the usage message. *)
Theorem main_list_and_table_read_only (fl : Flags) (args : list (list byte))
    (path : string) (input : list byte) (p : Proc) :
  flagList fl = true \/ (args = [] /\ flagAdd fl = false) ->
  match main'' fl args path input p with
  | Done p' =>
      fs (pw p') = fs (pw p) /\ perr p' = perr p /\ pclip p' = pclip p
      /\ args = []
  | Stopped s p' =>
      fs (pw p') = fs (pw p) /\ pclip p' = pclip p
      /\ (s = StopFatal ReadError /\ fs (pw p) !! path = Some NoAccess
          \/ s = StopUsage
             /\ (if flagList fl then args <> [] else flagClip fl = true))
  end.
Proof.
  intros Hmode. unfold main.
  destruct (readKeychain_cases path (pw p))
    as [[Hno ->] | (c & w' & Hread & _ & Hfs & _)]; [auto 10|].
  rewrite Hread. cbn [set_pw pw perr pclip].
  destruct (flagList fl) eqn:Hlist.
  - destruct args as [|a args]; cbn [length Nat.eqb negb usage eprint pw pclip].
    + cbn [set_pw pw perr pclip]. unfold Keychain_list, list_ranged.
      rewrite print_names_fs. auto.
    + repeat split; try assumption. right. split; [reflexivity | discriminate].
  - destruct Hmode as [Hmode | [-> Hadd]]; [discriminate|].
    rewrite Hadd. cbn [length Nat.eqb negb andb].
    destruct (flagClip fl) eqn:Hclip.
    + cbn [usage eprint pw pclip]. auto 10.
    + destruct (showAll_loaded_ok _ _ _ _ Hread) as (w2 & -> & Hfs2).
      cbn [set_pw pw perr pclip]. rewrite Hfs2. auto.
Qed.

(** X16: a name with an ASCII white-space character in it is turned down
    before anything is done with it: the run stops, nothing is printed or
    asked, and the file system and the clipboard are as they were. *)
Theorem main_rejects_space_in_name (fl : Flags) (name : list byte)
    (path : string) (input : list byte) (p : Proc) (b : byte) :
  flagList fl = false ->
  In b name -> byte_to_Z b < 0x80 -> IsSpace (byte_to_Z b) = true ->
  match main'' fl [name] path input p with
  | Done _ => False
  | Stopped s p' =>
      (s = StopName /\ fs (pw p) !! path <> Some NoAccess
       \/ s = StopFatal ReadError /\ fs (pw p) !! path = Some NoAccess)
      /\ fs (pw p') = fs (pw p) /\ stdout (pw p') = stdout (pw p)
      /\ perr p' = perr p /\ pclip p' = pclip p
  end.
Proof.
  intros Hlist Hin Hb Hsp. unfold main.
  assert (Hrune : has_rune IsSpace name = true).
  { unfold has_rune. apply existsb_exists. exists (byte_to_Z b).
    split; [now apply ascii_byte_in_runes | exact Hsp]. }
  destruct (fs (pw p) !! path) as [[content|]|] eqn:Hfs.
  - rewrite (readKeychain_spec _ _ _ _ _ Hfs), Hlist.
    cbn [length Nat.eqb negb andb nth]. rewrite Hrune.
    cbn [set_pw pw perr pclip logged fs stdout].
    repeat split. left. split; [reflexivity | discriminate].
  - unfold readKeychain. rewrite Hfs. repeat split. right. auto.
  - unfold readKeychain. rewrite Hfs, Hlist.
    cbn [length Nat.eqb negb andb nth]. rewrite Hrune.
    cbn [set_pw pw perr pclip].
    repeat split. left. split; [reflexivity | discriminate].
Qed.



End CommandProperties.

(** ** Runs in succession *)

Section Runs.

Variable ToUpper : list byte -> list byte.
Variable DecodeString : list byte -> option (list byte).

Abbreviation index_of content :=
  (index_from ToUpper DecodeString (SplitAfter newline content) 0 ∅).

(** One run on a counter-based key, in terms of the file. *)
Lemma run_code_step (path : string) (content name : list byte) (k : Key)
    (n : Z) (w : World) :
  fs w !! path = Some (File content) ->
  index_of content !! name = Some k ->
  offset k <> 0 ->
  ParseUint (take 20 (drop (Z.to_nat (offset k)) content)) = Some n ->
  exists w1 content1,
    run_code ToUpper DecodeString path name w
    = Ok (Sprintf_0d (digits k) (hotp (raw k) (u64 (n + 1)) (digits k)), w1)
    /\ fs w1 !! path = Some (File content1)
    /\ index_of content1 = index_of content
    /\ ParseUint (take 20 (drop (Z.to_nat (offset k)) content1))
       = Some (u64 (n + 1)).
Proof.
  intros Hfs Hk Hoff Hn.
  set (o := Z.to_nat (offset k)) in *.
  set (lg := logged (malformed_from ToUpper DecodeString path 1
                       (SplitAfter newline content)) w).
  destruct (code_loaded ToUpper DecodeString path content content name k lg
              Hfs eq_refl Hk Hoff) as (n' & Hn' & Hrange & Hin & Hcode).
  fold o in Hn', Hin, Hcode.
  assert (n' = n) as -> by congruence.
  assert (Hu : 0 <= u64 (n + 1) < 2 ^ 64) by (apply Z.mod_pos_bound; lia).
  destruct (Sprintf_0d_counter _ Hu) as (Hlen & _ & _).
  set (s1 := Sprintf_0d counterLen (u64 (n + 1))) in *.
  destruct (patch_spec content s1 o Hin Hlen) as (_ & Hback1 & _).
  destruct (rewrite_counter_reload ToUpper DecodeString content name k s1
              Hk Hoff Hlen) as (_ & _ & _ & _ & Hidx1 & _).
  { unfold s1. rewrite ParseUint_Sprintf_0d by exact Hu. eauto. }
  fold o in Hidx1.
  eexists _, _. split.
  { unfold run_code. rewrite (readKeychain_spec _ _ _ _ _ Hfs).
    unfold mbind, result_bind. exact Hcode. }
  split; [cbn [fs set_fs]; apply lookup_insert_eq|].
  split; [exact Hidx1|].
  rewrite Hback1. unfold s1. now apply ParseUint_Sprintf_0d.
Qed.

(** X19: [m] runs in succession on a counter-based key whose stored
    counter is [n] print the codes of the counters [n + 1] to [n + m]
    (modulo 2^64), in this order, and leave the counter [n + m] in the
    file, whose index is as it was. *)
Theorem runs_count_up (m : nat) (path : string) (content name : list byte)
    (k : Key) (n : Z) (w : World) :
  fs w !! path = Some (File content) ->
  index_of content !! name = Some k ->
  offset k <> 0 ->
  ParseUint (take 20 (drop (Z.to_nat (offset k)) content)) = Some n ->
  exists w' content',
    run_codes ToUpper DecodeString m path name w
    = Ok (map (fun i => Sprintf_0d (digits k)
                          (hotp (raw k) (u64 (n + Z.of_nat i)) (digits k)))
            (seq 1 m), w')
    /\ fs w' !! path = Some (File content')
    /\ index_of content' = index_of content
    /\ ParseUint (take 20 (drop (Z.to_nat (offset k)) content'))
       = Some (u64 (n + Z.of_nat m)).
Proof.
  revert content n w. induction m as [|m IH]; intros content n w Hfs Hk Hoff Hn.
  - exists w, content. split; [reflexivity|]. split; [exact Hfs|].
    split; [reflexivity|].
    rewrite Hn. f_equal. apply ParseUint_Some in Hn as (_ & _ & Hr).
    unfold u64. rewrite Z.add_0_r. symmetry. now apply Z.mod_small.
  - destruct (run_code_step path content name k n w Hfs Hk Hoff Hn)
      as (w1 & content1 & Hrun & Hfs1 & Hidx1 & Hn1).
    assert (Hk1 : index_of content1 !! name = Some k) by now rewrite Hidx1.
    destruct (IH content1 (u64 (n + 1)) w1 Hfs1 Hk1 Hoff Hn1)
      as (w' & content' & Hruns & Hfs' & Hidx' & Hn').
    exists w', content'. split.
    { cbn [run_codes]. rewrite Hrun. cbn [mbind result_bind].
      rewrite Hruns. cbn [mbind result_bind].
      cbn [seq map]. change (Z.of_nat 1) with 1.
      rewrite <- (seq_shift m 1), map_map. do 3 f_equal.
      apply map_ext. intros i.
      unfold u64. rewrite Zplus_mod_idemp_l.
      do 3 f_equal. lia. }
    split; [exact Hfs'|]. split; [now rewrite Hidx', Hidx1|].
    rewrite Hn'. f_equal. unfold u64. rewrite Zplus_mod_idemp_l.
    f_equal. lia.
Qed.

End Runs.

(** X19 for three runs on the fresh file. *)
Lemma runs_count_up_witness :
  exists w',
    run_codes upper_ascii base32_decode 3 ".2fa" (bytes_of "hot") fresh_world
    = Ok (map (fun i => Sprintf_0d 6
                          (hotp [x00; x00; x0a; x09; x0c]
                             (u64 (0 + Z.of_nat i)) 6))
            (seq 1 3), w').
Proof.
  destruct (runs_count_up upper_ascii base32_decode 3 ".2fa" fresh_file
              (bytes_of "hot")
              {| raw := [x00; x00; x0a; x09; x0c]; digits := 6; offset := 15 |}
              0 fresh_world)
    as (w' & _ & Hruns & _).
  - reflexivity.
  - vm_compute. reflexivity.
  - discriminate.
  - vm_compute. reflexivity.
  - exists w'. exact Hruns.
Defined.

(** X13 for the name [new], added with [-hotp] to the example keychain. *)
Lemma add_then_load_witness :
  exists c' w' k,
    readKeychain upper_ascii base32_decode ".2fa" (pw example_added)
    = Ok (c', w')
    /\ keys c' !! bytes_of "new" = Some k
    /\ digits k = 6 /\ offset k <> 0.
Proof.
  destruct (add_then_load upper_ascii base32_decode example_keychain
              add_hotp_flags (bytes_of "new") typed_secret
              (proc_of example_loaded_world) example_added example_file)
    as (c' & w' & k & typed & Hread & Hkeys & Hdig & _ & _ & _ & Hh).
  - vm_compute. reflexivity.
  - vm_compute. reflexivity.
  - left. vm_compute. reflexivity.
  - right. vm_compute. reflexivity.
  - exists c', w', k. split; [exact Hread|].
    split; [rewrite Hkeys; apply lookup_insert_eq|].
    split; [exact Hdig | exact (proj1 (Hh eq_refl))].
Defined.

(** X14 for the same key: its first code is the code of counter 1. *)
Lemma first_code_after_add_witness :
  exists r w1,
    run_code upper_ascii base32_decode ".2fa" (bytes_of "new") (pw example_added)
    = Ok (Sprintf_0d 6 (hotp r 1 6), w1).
Proof.
  destruct (first_code_after_add upper_ascii base32_decode example_keychain
              add_hotp_flags (bytes_of "new") typed_secret
              (proc_of example_loaded_world) example_added example_file)
    as (typed & r & w1 & _ & _ & Hrun).
  - vm_compute. reflexivity.
  - vm_compute. reflexivity.
  - left. vm_compute. reflexivity.
  - right. vm_compute. reflexivity.
  - exists r, w1. exact Hrun.
Defined.

(** X15 for [2fa -list] on the example keychain. *)
Lemma main_list_and_table_read_only_witness :
  fs (pw (proc_after (main upper_ascii base32_decode list_flags [] ".2fa" []
                        (proc_of example_world))))
  = fs example_world.
Proof.
  pose proof (main_list_and_table_read_only upper_ascii base32_decode
                list_flags [] ".2fa" [] (proc_of example_world)
                (or_introl eq_refl)) as H.
  destruct (main _ _ _ _ _ _ _) as [p'|s p']; cbn [proc_after]; apply H.
Defined.

(** X16 for the name [a b]. *)
Lemma main_rejects_space_in_name_witness :
  exists p',
    main upper_ascii base32_decode no_flags [bytes_of "a b"] ".2fa" []
      (proc_of example_world)
    = Stopped StopName p'.
Proof.
  assert (Hin : In space (bytes_of "a b")) by (vm_compute; auto).
  pose proof (main_rejects_space_in_name upper_ascii base32_decode no_flags
                (bytes_of "a b") ".2fa" [] (proc_of example_world) space
                eq_refl Hin eq_refl eq_refl) as H.
  destruct (main _ _ _ _ _ _ _) as [p'|s p']; [contradiction|].
  destruct H as [[[-> _] | [_ Hno]] _].
  - eexists. reflexivity.
  - vm_compute in Hno. discriminate.
Defined.



(** X20 for a key typed with more text after its line. *)
Lemma add_reads_one_line_witness :
  Keychain_add upper_ascii base32_decode example_keychain add_hotp_flags
    (bytes_of "new") (bytes_of "aaaaucim" ++ newline :: bytes_of "more")
    (proc_of example_loaded_world)
  = Keychain_add upper_ascii base32_decode example_keychain add_hotp_flags
      (bytes_of "new") (bytes_of "aaaaucim" ++ [newline])
      (proc_of example_loaded_world).
Proof.
  apply (add_reads_one_line upper_ascii base32_decode example_keychain
           add_hotp_flags (bytes_of "new") (bytes_of "aaaaucim")
           (bytes_of "more") (proc_of example_loaded_world)).
  intros H. vm_compute in H. intuition discriminate.
Defined.
